(** * koishi-registry: the dependency security analysis engine

    A shallow embedding of
    - [src/utils/fetcher.js]             ([fetchWithRetry]),
    - [src/utils/dependency-analyzer.ts] (the metadata-graph scanner),
    - the sandbox-install variant of [analyzePackageDependencies]
      (with [getInstalledPackages]),
    - the package names and the registry scan of [src/utils/fetcher.js]
      ([getPackageShortname], [isVerifiedPackage], [fetchKoishiPlugins]),
    - the file-based update counter and the server's [updatePluginsData]

    Conventions.  A JavaScript number that the code only ever uses as an
    integer (HTTP status, milliseconds, loop counter) is a [Z] or a [nat];
    [NaN] is [None] in an [option Z].  A JavaScript object used as a record
    of string keys is an association list in [Object.entries] order.
    [Map<string, _>] is a [gmap string _], [Set<string>] a [gset string];
    a [Set] whose iteration order is observed is a duplicate-free list.
    An [async] function is modelled by what it has done when its promise
    settles: its settled value (or thrown error) and the effects it left. *)

From Stdlib Require Import Ascii String.
From stdpp Require Import gmap strings list fin_maps pretty relations sorting.

Local Open Scope string_scope.
Local Open Scope Z_scope.
Local Open Scope list_scope.

(** ** JavaScript string and number helpers *)

(** [String.prototype.includes] *)
Fixpoint includes (s sub : string) : bool :=
  String.prefix sub s ||
  match s with
  | EmptyString => false
  | String _ s' => includes s' sub
  end.

(** [String.prototype.startsWith] *)
Definition startsWith (s pre : string) : bool := String.prefix pre s.

(** A string is truthy when it is not empty; [null] is falsy. *)
Definition truthy_string (o : option string) : bool :=
  match o with
  | Some (String _ _) => true
  | _ => false
  end.

(** White space skipped by [parseInt], within the Latin-1 range of a header
    value. *)
Definition is_white (c : ascii) : bool :=
  let n := nat_of_ascii c in
  bool_decide (n ∈ [9; 10; 11; 12; 13; 32; 160]%nat).

Definition digit_of (c : ascii) : option Z :=
  let n := nat_of_ascii c in
  if bool_decide (48 ≤ n ≤ 57)%nat then Some (Z.of_nat n - 48) else None.

Fixpoint skip_white (s : string) : string :=
  match s with
  | String c s' => if is_white c then skip_white s' else s
  | EmptyString => s
  end.

(** The longest prefix of decimal digits, read as a number; [acc] is [None]
    until the first digit has been seen. *)
Fixpoint read_digits (s : string) (acc : option Z) : option Z :=
  match s with
  | String c s' =>
      match digit_of c with
      | Some d => read_digits s' (Some (10 * default 0 acc + d))
      | None => acc
      end
  | EmptyString => acc
  end.

(** [parseInt(s, 10)]; [None] is [NaN].  The digits are read exactly; the
    code's result is a double, which is the same number as long as it is a
    safe integer (at most [2^53 - 1] in absolute value).  Statements that
    depend on the number read bound it. *)
Definition parseInt (s : string) : option Z :=
  match skip_white s with
  | String "-" s' => Z.opp <$> read_digits s' None
  | String "+" s' => read_digits s' None
  | s' => read_digits s' None
  end.

(** [x || y] on numbers: [NaN] and [0] are falsy. *)
Definition num_or (x : option Z) (y : Z) : Z :=
  match x with
  | Some n => if bool_decide (n = 0) then y else n
  | None => y
  end.

(** The largest delay of a Node timer; with a delay outside
    [1 .. TIMEOUT_MAX], [setTimeout] waits 1 ms. *)
Definition TIMEOUT_MAX : Z := 2 ^ 31 - 1.

(** A delay that [setTimeout] waits for as given. *)
Definition honoured (waitTime : Z) : Prop := 1 ≤ waitTime ≤ TIMEOUT_MAX.

(** ** [src/utils/fetcher.js]: [fetchWithRetry] *)

Module Fetcher.

Section types.
(** [J] is the type of parsed JSON payloads. *)
Context {J : Type}.

(** What the code reads of a [node-fetch] response.  [json] is the
    settlement of [response.json()]: a payload, or the message of the
    error it rejects with. *)
Record Response := mkResponse {
  status : Z;
  retryAfterHeader : option string;   (* headers.get('Retry-After') *)
  json : string + J
}.

Definition ok (r : Response) : bool :=
  bool_decide (200 ≤ status r ≤ 299).

(** [error.cause] as built at fetcher.js:52-55. *)
Record Cause := mkCause {
  cause_status : Z;
  cause_retryAfter : option Z
}.

Record Error := mkError {
  message : string;
  cause : option Cause
}.

(** How one call of [fetch(url, ...)] settles. *)
Inductive Fetched :=
| Resolves (res : Response)
| Rejects (msg : string).

(** What [fetchWithRetry] hands back on success. *)
Inductive Payload :=
| Json (j : J)
| Raw (response : Response).

(** How a call of [fetchWithRetry] settles. *)
Inductive Outcome :=
| Return (v : Payload)
| ReturnUndefined
| Throw (error : Error).

(** What the [catch] block decides. *)
Inductive Handling :=
| WaitThenRetry (waitTime : Z)
| Rethrow.
End types.

Arguments Response : clear implicits.
Arguments Fetched : clear implicits.
Arguments Payload : clear implicits.
Arguments Outcome : clear implicits.

(** [p-limit] only delays the start of the operation; the operation's
    settlement is passed through. *)
Definition npmjsLimiter {A} (operation : A) : A := operation.

Section fetchWithRetry.
Context {J : Type}.
(** [net i] is how the [fetch] of attempt [i] settles. *)
Variable net : nat → Fetched J.
Variables (url : string) (retries : nat) (returnJson : bool)
          (isNpmjsOfficialSource : bool).

(** fetcher.js:41-60 *)
Definition fetchOperation (i : nat) : Response J + Error :=
  match net i with
  | Rejects msg => inr (mkError msg None)
  | Resolves res =>
      if bool_decide (status res = 429) then
        let retryAfter := retryAfterHeader res in
        inr (mkError
               ("429 Too Many Requests" +:+
                (if truthy_string retryAfter
                 then " (Retry-After: " +:+ default "" retryAfter +:+ "s)"
                 else ""))
               (Some (mkCause 429
                        (if truthy_string retryAfter
                         then (λ n, n * 1000) <$> parseInt (default "" retryAfter)
                         else Some 0))))
      else inl res
  end.

(** The [try] block, fetcher.js:39-79. *)
Definition attempt (i : nat) : Payload J + Error :=
  match (if isNpmjsOfficialSource
         then npmjsLimiter (fetchOperation i)
         else fetchOperation i) with
  | inr error => inr error
  | inl response =>
      if negb (ok response) && negb (bool_decide (status response = 404))
      then inr (mkError ("HTTP error! status: " +:+ pretty (status response)
                         +:+ " for " +:+ url) None)
      else if returnJson then
        match json response with
        | inr j => inl (Json j)
        | inl msg => inr (mkError msg None)
        end
      else inl (Raw response)
  end.

(** The [catch] block, fetcher.js:80-108.  [2 ** i * 1000] is computed
    exactly here; the code's double is the same number for [i] up to 1014,
    and the timer honours it for [i] up to 21.  Statements about the size
    of a backoff bound [i]. *)
Definition handle (i : nat) (error : Error) : Handling :=
  let isLastAttempt := bool_decide (i = retries - 1)%nat in
  let status := cause_status <$> cause error in
  let retryAfter := cause error ≫= cause_retryAfter in
  if bool_decide (status = Some 429) then
    WaitThenRetry (num_or retryAfter (2 ^ Z.of_nat i * 1000))
  else if includes (message error) "ECONNRESET" then
    WaitThenRetry (2 ^ Z.of_nat i * 1000)
  else if isLastAttempt then Rethrow
  else WaitThenRetry 1000.

(** The [for] loop from index [i] on.  The result carries the list of
    delays handed to [setTimeout], in order.  [fuel] counts the
    iterations left; it reaches [0] exactly when [i] reaches [retries],
    where the loop ends and the function falls off its end. *)
Fixpoint attempts_from (fuel i : nat) : Outcome J * list Z :=
  match fuel with
  | O => (ReturnUndefined, [])
  | S fuel' =>
      if bool_decide (i < retries)%nat then
        match attempt i with
        | inl v => (Return v, [])
        | inr error =>
            match handle i error with
            | Rethrow => (Throw error, [])
            | WaitThenRetry waitTime =>
                let '(o, waits) := attempts_from fuel' (i + 1) in
                (o, waitTime :: waits)
            end
        end
      else (ReturnUndefined, [])
  end.

Definition fetchWithRetry : Outcome J * list Z :=
  attempts_from retries 0.
End fetchWithRetry.

End Fetcher.

(** ** Objects, results and the deny-list check shared by both analyzers *)

(** A JavaScript object with string keys, in [Object.entries] order.  Keys
    that look like array indices, which JavaScript lists first, do not occur
    among package names and versions. *)
Definition Obj (V : Type) : Type := list (string * V).

Fixpoint get {V} (k : string) (o : Obj V) : option V :=
  match o with
  | [] => None
  | (k', v) :: o' => if bool_decide (k' = k) then Some v else get k o'
  end.

(** [o[k] = v]: an existing key keeps its place, a new key goes last. *)
Fixpoint put {V} (k : string) (v : V) (o : Obj V) : Obj V :=
  match o with
  | [] => [(k, v)]
  | (k', v') :: o' =>
      if bool_decide (k' = k) then (k, v) :: o' else (k', v') :: put k v o'
  end.

(** [{ ...target, ...source }]; spreading [undefined] adds nothing. *)
Definition spread {V} (target : Obj V) (source : option (Obj V)) : Obj V :=
  foldl (λ acc kv, put kv.1 kv.2 acc) target (default [] source).

Definition keys {V} (o : Obj V) : list string := fst <$> o.

(** The names of the members that every object inherits from
    [Object.prototype]. *)
Definition Object_prototype : list string :=
  ["constructor"; "__defineGetter__"; "__defineSetter__"; "hasOwnProperty";
   "__lookupGetter__"; "__lookupSetter__"; "isPrototypeOf";
   "propertyIsEnumerable"; "toString"; "valueOf"; "__proto__";
   "toLocaleString"].

(** [o[key]] for a computed [key] on an object that [JSON.parse] made: the
    own property when there is one, else the member inherited from
    [Object.prototype] when [key] names one, else [undefined].  [inherited]
    is what such a member (a function, or [Object.prototype] itself) looks
    like to the code that reads the value. *)
Definition index {V} (inherited : V) (key : string) (o : Obj V) : option V :=
  match get key o with
  | Some v => Some v
  | None =>
      if bool_decide (key ∈ Object_prototype) then Some inherited else None
  end.

(** [interface AnalysisResult]; [analyzedAt] is the clock reading. *)
Record AnalysisResult := mkResult {
  isInsecure : bool;
  insecurePackages : list string;
  analyzedAt : Z;
  error : option string
}.

Definition set_error (msg : string) (r : AnalysisResult) : AnalysisResult :=
  mkResult (isInsecure r) (insecurePackages r) (analyzedAt r) (Some msg).

Definition UNSAFE_DEPENDENCIES : gset string :=
  {[ "sharp"; "puppeteer"; "canvas" ]}.

(** [result.isInsecure = true;
     if (!result.insecurePackages.includes(n)) result.insecurePackages.push(n)] *)
Definition flag (n : string) (r : AnalysisResult) : AnalysisResult :=
  mkResult true
    (if bool_decide (n ∈ insecurePackages r)
     then insecurePackages r
     else insecurePackages r ++ [n])
    (analyzedAt r) (error r).

Definition insecurePackages_push (n : string) (r : AnalysisResult) : list string :=
  insecurePackages r ++ [n].

(** The two [if]s applied to every dependency name: first the built-in set,
    then the loaded list. *)
Definition check (insecure : gset string) (n : string) (r : AnalysisResult)
  : AnalysisResult :=
  let r := if bool_decide (n ∈ UNSAFE_DEPENDENCIES) then flag n r else r in
  if bool_decide (n ∈ insecure) then flag n r else r.

(** How the promise of an analyzer call settles. *)
Inductive Settled :=
| Resolved (r : AnalysisResult)
| Rejected (message : string).

(** [Array.prototype.slice(i, j)] for [0 <= i <= j]. *)
Definition slice {A} (l : list A) (i j : nat) : list A :=
  take (j - i) (drop i l).

(** ** [src/utils/dependency-analyzer.ts]: the metadata-graph scanner *)

Module MetadataGraph.

(** A version's manifest, as far as the analyzer reads it. *)
Record VersionInfo := mkVersionInfo {
  dependencies : option (Obj string);
  peerDependencies : option (Obj string);
  optionalDependencies : option (Obj string)
}.

(** A package's registry document, as far as the analyzer reads it. *)
Record PkgData := mkPkgData {
  dist_tags : option (Obj string);
  versions : option (Obj VersionInfo)
}.

(** A member inherited from [Object.prototype] read as a manifest: it has
    none of the three dependency sections. *)
Definition inherited : VersionInfo := mkVersionInfo None None None.

(** What the analyzer asks of the network. *)
Inductive Event :=
| FetchRoot (packageName : string)
| FetchDep (depName versionRange : string) (currentDepth : nat).

(** The objects a traversal shares and mutates: [result], [visited], and
    the requests issued so far. *)
Record Mem := mkMem {
  result : AnalysisResult;
  visited : gset string;
  issued : list Event
}.

(** The callbacks of a traversal that have not settled.  [Fetching] is a
    callback of [batch.map] suspended at [await fetchWithRetry(depUrl)];
    [Traversing] is a call of [traverseDependencies] suspended at
    [await Promise.all(...)]: the callbacks of its current batch that are
    still pending, and the batches its loop has yet to start. *)
#[warnings="-register-all"]
Inductive Task :=
| Fetching (depName : string) (currentDepth : nat)
| Traversing (pending : list Task) (rest : list (list (string * string)))
             (currentDepth : nat).

Definition option_cons {A} (o : option A) (l : list A) : list A :=
  match o with
  | Some a => a :: l
  | None => l
  end.

(** The number of suspended fetches under a task. *)
Fixpoint fetches (t : Task) : nat :=
  match t with
  | Fetching _ _ => 1
  | Traversing pending _ _ => sum_list_with fetches pending
  end.

(** The callback holding the [k]-th suspended fetch among [pending] is
    resumed by [resume]; a callback that settles leaves the list. *)
Definition within (resume : nat → Task → Mem → option Task * Mem) (m : Mem)
  : nat → list Task → list Task * Mem :=
  fix go (k : nat) (l : list Task) : list Task * Mem :=
    match l with
    | [] => ([], m)
    | t :: l' =>
        if bool_decide (k < fetches t)%nat then
          let '(o, m') := resume k t m in (option_cons o l', m')
        else
          let '(l'', m') := go (k - fetches t)%nat l' in (t :: l'', m')
    end.

Definition batchSize : nat := 10.

(** The values [i] takes in [for (i = 0; i < n; i += batchSize)]. *)
Definition batch_starts (n : nat) : list nat :=
  (λ k, k * batchSize)%nat <$> seq 0 ((n + (batchSize - 1)) / batchSize)%nat.

(** The successive values of [depEntries.slice(i, i + batchSize)]. *)
Definition batches {A} (depEntries : list A) : list (list A) :=
  (λ i, slice depEntries i (i + batchSize)) <$> batch_starts (length depEntries).

Section scanner.
(** The registry, the configuration and the deny-list loader are the
    analyzer's environment.  [net url i] is how attempt [i] of fetching
    [url] settles; [loadInsecurePackages] is how the imported loader
    settles: the loaded set, or the message of the error it throws. *)
Variable net : string → nat → Fetcher.Fetched (option PkgData).
Variable NPM_REGISTRY : string.
Variable MAX_RETRIES : nat.
Variable loadInsecurePackages : string + gset string.

(** [await fetchWithRetry(url)] with the default arguments: the value
    read by the caller ([None] when it is [undefined] or not an
    object), or the error thrown. *)
Definition fetchJson (name : string) : option PkgData + Fetcher.Error :=
  let url := NPM_REGISTRY +:+ "/" +:+ name in
  match (Fetcher.fetchWithRetry (net url) url MAX_RETRIES true false).1 with
  | Fetcher.Return (Fetcher.Json j) => inl j
  | Fetcher.Return (Fetcher.Raw _) => inl None
  | Fetcher.ReturnUndefined => inl None
  | Fetcher.Throw e => inr e
  end.

Section traversal.
Variable insecurePackages : gset string.
Variable maxDepth : nat.

(** A callback of [batch.map] up to its first [await],
    dependency-analyzer.ts:141-168. *)
Definition callback_start (currentDepth : nat) (e : string * string)
           (m : Mem) : option Task * Mem :=
  let '(depName, versionRange) := e in
  let r := check insecurePackages depName (result m) in
  let depKey := depName +:+ "@" +:+ versionRange in
  if bool_decide (depKey ∈ visited m) then
    (None, mkMem r (visited m) (issued m))
  else
    (Some (Fetching depName currentDepth),
     mkMem r ({[depKey]} ∪ visited m)
           (issued m ++ [FetchDep depName versionRange currentDepth])).

(** [batch.map(async ...)]: every callback runs to its first [await]
    before any of them is resumed. *)
Fixpoint batch_start (currentDepth : nat) (batch : list (string * string))
         (m : Mem) : list Task * Mem :=
  match batch with
  | [] => ([], m)
  | e :: batch' =>
      let '(t, m1) := callback_start currentDepth e m in
      let '(ts, m2) := batch_start currentDepth batch' m1 in
      (option_cons t ts, m2)
  end.

(** The [for] loop over the batches, up to the first [Promise.all]
    that has a pending callback to wait for. *)
Fixpoint batches_loop (currentDepth : nat)
         (rest : list (list (string * string))) (m : Mem)
  : option Task * Mem :=
  match rest with
  | [] => (None, m)
  | batch :: rest' =>
      let '(ts, m') := batch_start currentDepth batch m in
      match ts with
      | [] => batches_loop currentDepth rest' m'
      | _ => (Some (Traversing ts rest' currentDepth), m')
      end
  end.

(** A call of [traverseDependencies] up to its first suspension;
    [None] when it returns without suspending. *)
Definition traverseDependencies (dependencies : Obj string)
           (currentDepth : nat) (m : Mem) : option Task * Mem :=
  if bool_decide (maxDepth ≤ currentDepth)%nat then (None, m)
  else batches_loop currentDepth (batches dependencies) m.

(** [nestedDeps] of a fetched dependency, dependency-analyzer.ts:
    170-185; [None] on the early [return]s. *)
Definition nestedDeps_of (depData : option PkgData) : option (Obj string) :=
  d ← depData;
  tags ← dist_tags d;
  vs ← versions d;
  latestVersion ← get "latest" tags;
  if truthy_string (Some latestVersion) then
    depVersionInfo ← index inherited latestVersion vs;
    Some (spread [] (dependencies depVersionInfo))
  else None.

(** A callback from the settlement of its fetch to its next
    suspension, dependency-analyzer.ts:165-204. *)
Definition callback_resume (depName : string) (currentDepth : nat)
           (m : Mem) : option Task * Mem :=
  match fetchJson depName with
  | inr _ => (None, m)
  | inl depData =>
      match nestedDeps_of depData with
      | None => (None, m)
      | Some nestedDeps =>
          if bool_decide (0 < length (keys nestedDeps))%nat then
            traverseDependencies nestedDeps (currentDepth + 1) m
          else (None, m)
      end
  end.

(** One turn of the event loop: the [k]-th suspended fetch under [t]
    (counted from the left) settles, and everything that no longer
    waits for a fetch runs on: the callback resumes; when it was the
    last one pending in its batch, the enclosing loop starts its next
    batches; when the loop ends, the enclosing callback settles. *)
Fixpoint resume (k : nat) (t : Task) (m : Mem) : option Task * Mem :=
  match t with
  | Fetching depName currentDepth => callback_resume depName currentDepth m
  | Traversing pending rest currentDepth =>
      let '(pending', m') := within resume m k pending in
      match pending' with
      | [] => batches_loop currentDepth rest m'
      | _ => (Some (Traversing pending' rest currentDepth), m')
      end
  end.

(** The traversal runs until nothing is suspended.  [sched] is the
    order in which the network answers: at each turn it picks one of
    the suspended fetches. *)
Fixpoint run (fuel : nat) (sched : nat → nat) (s : option Task * Mem)
  : option Mem :=
  match s with
  | (None, m) => Some m
  | (Some t, m) =>
      match fuel with
      | O => None
      | S fuel' =>
          run fuel' (λ n, sched (S n)) (resume (sched O mod fetches t) t m)
      end
  end.

(** The dependencies the traversal finds under [depName]. *)
Definition nested (depName : string) : Obj string :=
  match fetchJson depName with
  | inl depData => default [] (nestedDeps_of depData)
  | inr _ => []
  end.

(** An upper bound on the fetches a traversal of [deps] can issue with
    [levels] levels left below it. *)
Fixpoint tree_cost (levels : nat) (deps : list (string * string)) : nat :=
  match levels with
  | O => 0%nat
  | S levels' =>
      sum_list_with (λ e, S (tree_cost levels' (nested e.1))) deps
  end.

(** An upper bound on the fetches still to settle under a task. *)
Fixpoint weight (t : Task) : nat :=
  match t with
  | Fetching depName currentDepth =>
      S (tree_cost (maxDepth - (currentDepth + 1)) (nested depName))
  | Traversing pending rest currentDepth =>
      (sum_list_with weight pending
       + tree_cost (maxDepth - currentDepth) (concat rest))%nat
  end.

Definition weight_of (s : option Task * Mem) : nat :=
  from_option weight 0%nat s.1.

(** [await traverseDependencies(...)] as a whole.  The fuel is enough for
    the traversal to end ([traverse_all_run] below), so the default is
    never taken. *)
Definition traverse_all (sched : nat → nat) (dependencies : Obj string)
           (m : Mem) : Mem :=
  let s := traverseDependencies dependencies 0 m in
  default s.2 (run (weight_of s) sched s).
End traversal.

(** [pkgData.versions[version]] behind the guard
    [!pkgData || !pkgData.versions || !pkgData.versions[version]]. *)
Definition manifest_of (pkgData : option PkgData) (version : string)
  : option VersionInfo :=
  match pkgData with
  | None => None
  | Some d =>
      match versions d with
      | None => None
      | Some vs => index inherited version vs
      end
  end.

(** [{ ...versionInfo.dependencies, ...versionInfo.peerDependencies,
       ...versionInfo.optionalDependencies }] *)
Definition allDeps_of (versionInfo : VersionInfo) : Obj string :=
  spread (spread (spread [] (dependencies versionInfo))
                 (peerDependencies versionInfo))
         (optionalDependencies versionInfo).

(** The cache is the module-level [analysisCache]; the function takes it
    and gives it back. *)
Definition analyzePackageDependencies (sched : nat → nat) (now : Z)
           (packageName version : string)
           (analysisCache : gmap string AnalysisResult)
  : Settled * gmap string AnalysisResult * list Event :=
  let cacheKey := packageName +:+ "@" +:+ version in
  match analysisCache !! cacheKey with
  | Some cached => (Resolved cached, analysisCache, [])
  | None =>
      let result := mkResult false [] now None in
      (* the [try] block: the result object as it leaves the block, the
         error when it leaves by a throw, and the requests issued *)
      let '(result, thrown, events) :=
        match loadInsecurePackages with
        | inl msg => (result, Some msg, [])
        | inr insecurePackages =>
            if bool_decide (packageName ∈ insecurePackages) then
              (mkResult true (insecurePackages_push packageName result)
                        (analyzedAt result) (error result), None, [])
            else
              match fetchJson packageName with
              | inr e => (result, Some (Fetcher.message e), [FetchRoot packageName])
              | inl pkgData =>
                  match manifest_of pkgData version with
                  | None =>
                      (set_error "Package version not found" result, None,
                       [FetchRoot packageName])
                  | Some versionInfo =>
                      let allDeps := allDeps_of versionInfo in
                      let result :=
                        foldl (λ r depName, check insecurePackages depName r)
                              result (keys allDeps) in
                      let m := traverse_all insecurePackages 3 sched allDeps
                                 (mkMem result {[cacheKey]} [FetchRoot packageName]) in
                      (MetadataGraph.result m, None, issued m)
                  end
              end
        end in
      (* the [catch] block *)
      let result :=
        match thrown with
        | Some msg => set_error msg result
        | None => result
        end in
      (Resolved result, <[cacheKey := result]> analysisCache, events)
  end.

(** [clearAnalysisCache] and [getAnalysisCacheSize] *)
Definition clearAnalysisCache (analysisCache : gmap string AnalysisResult)
  : gmap string AnalysisResult := ∅.

Definition getAnalysisCacheSize (analysisCache : gmap string AnalysisResult)
  : nat := size analysisCache.
End scanner.

End MetadataGraph.

(** ** The sandbox-install scanner (the [yarn install] variant of
       [analyzePackageDependencies]) *)

Module SandboxInstall.

(** What is found at a path: something that is not a directory, or a
    directory with its entries; [readdir] fails on a directory that is not
    readable. *)
#[warnings="-register-all"]
Inductive Node :=
| File
| Dir (readable : bool) (entries : list (string * Node)).

(** [packages.add(name)] on a [Set] kept in insertion order. *)
Definition add (name : string) (packages : list string) : list string :=
  if bool_decide (name ∈ packages) then packages else packages ++ [name].

(** [getInstalledPackages(nodeModulesPath, packages)], where [node] is
    what is at [nodeModulesPath]; the result is [Array.from(packages)].  A
    failing [readdir] leaves through the [catch], which returns the set as
    it stands. *)
Fixpoint getInstalledPackages (node : Node) (packages : list string)
  : list string :=
  let nested_of (children : list (string * Node)) (packages : list string) :=
    (* try { access(nestedNodeModules); getInstalledPackages(...) } catch {} *)
    (fix find (l : list (string * Node)) : list string :=
       match l with
       | [] => packages
       | (n, c) :: l' =>
           if bool_decide (n = "node_modules")
           then getInstalledPackages c packages
           else find l'
       end) children in
  match node with
  | File => packages
  | Dir false _ => packages
  | Dir true entries =>
      (fix loop (l : list (string * Node)) (packages : list string)
         : list string :=
         match l with
         | [] => packages
         | (name, File) :: l' => loop l' packages
         | (name, Dir readable children) :: l' =>
             if startsWith name "@" then
               if readable then
                 loop l'
                   ((fix scoped (sl : list (string * Node))
                         (packages : list string) : list string :=
                       match sl with
                       | [] => packages
                       | (_, File) :: sl' => scoped sl' packages
                       | (scopedName, Dir _ children') :: sl' =>
                           let packageName := name +:+ "/" +:+ scopedName in
                           let packages := add packageName packages in
                           scoped sl' (nested_of children' packages)
                       end) children packages)
               else packages
             else if negb (bool_decide (name = ".bin"))
                     && negb (bool_decide (name = ".yarn-integrity")) then
               let packages := add name packages in
               loop l' (nested_of children packages)
             else loop l' packages
         end) entries packages
  end.

(** What the analyzer does to the machine outside its own memory. *)
Inductive Event :=
| Mkdtemp (tempDir : string)
| WriteFile (tempDir : string)
| Install (tempDir : string)
| Rm (tempDir : string).

Section scanner.
(** The environment: how the deny-list loader settles, and how each
    file-system and subprocess call of a scan settles ([inl] and [Some]
    carry the message of the error thrown).  [node_modules] is what
    [yarn] left at [tempDir/node_modules], if anything. *)
Variable loadInsecurePackages : string + gset string.
Variable mkdtemp : string + string.
Variable writeFile : option string.
Variable install : option string.
Variable node_modules : option Node.
Variable rm : option string.

(** The [try] block up to the statement that leaves it: the result
    object, the error if it leaves by a throw, [tempDir], the existing
    temporary directories, and the calls made. *)
Definition try_block (result : AnalysisResult) (packageName : string)
           (dirs : gset string)
  : AnalysisResult * option string * option string * gset string * list Event :=
  match loadInsecurePackages with
  | inl msg => (result, Some msg, None, dirs, [])
  | inr insecurePackages =>
      if bool_decide (packageName ∈ insecurePackages) then
        (mkResult true (insecurePackages_push packageName result)
                  (analyzedAt result) (error result), None, None, dirs, [])
      else
        match mkdtemp with
        | inl msg => (result, Some msg, None, dirs, [])
        | inr tempDir =>
            let dirs := {[tempDir]} ∪ dirs in
            match writeFile with
            | Some msg =>
                (result, Some msg, Some tempDir, dirs,
                 [Mkdtemp tempDir; WriteFile tempDir])
            | None =>
                let events := [Mkdtemp tempDir; WriteFile tempDir; Install tempDir] in
                match install with
                | Some msg =>
                    (set_error ("Installation failed: " +:+ msg) result,
                     None, Some tempDir, dirs, events)
                | None =>
                    match node_modules with
                    | None => (result, None, Some tempDir, dirs, events)
                    | Some node =>
                        let installedPackages := getInstalledPackages node [] in
                        (foldl (λ r installedPkg, check insecurePackages installedPkg r)
                               result installedPackages,
                         None, Some tempDir, dirs, events)
                    end
                end
            end
        end
  end.

(** The [finally] block. *)
Definition finally_block (tempDir : option string) (dirs : gset string)
  : gset string * list Event :=
  match tempDir with
  | Some tempDir =>
      match rm with
      | None => (dirs ∖ {[tempDir]}, [Rm tempDir])
      | Some _ => (dirs, [Rm tempDir])
      end
  | None => (dirs, [])
  end.

(** The function takes and gives back the module-level [analysisCache]
    and the set of temporary directories that exist. *)
Definition analyzePackageDependencies (now : Z) (packageName version : string)
           (analysisCache : gmap string AnalysisResult) (dirs : gset string)
  : Settled * gmap string AnalysisResult * gset string * list Event :=
  let cacheKey := packageName +:+ "@" +:+ version in
  match analysisCache !! cacheKey with
  | Some cached => (Resolved cached, analysisCache, dirs, [])
  | None =>
      let result := mkResult false [] now None in
      let '(result, thrown, tempDir, dirs, events) :=
        try_block result packageName dirs in
      (* the [catch] block *)
      let result :=
        match thrown with
        | Some msg => set_error msg result
        | None => result
        end in
      let '(dirs, cleanup) := finally_block tempDir dirs in
      (Resolved result, <[cacheKey := result]> analysisCache, dirs,
       (events ++ cleanup)%list)
  end.

Definition clearAnalysisCache (analysisCache : gmap string AnalysisResult)
  : gmap string AnalysisResult := ∅.

Definition getAnalysisCacheSize (analysisCache : gmap string AnalysisResult)
  : nat := size analysisCache.
End scanner.

End SandboxInstall.

(** ** Predicates used to state the properties *)

(** [isInsecure] is set exactly when a name has been recorded. *)
Definition consistent (r : AnalysisResult) : Prop :=
  isInsecure r = true ↔ insecurePackages r ≠ [].

(** A task as the traversal builds them: every suspended call sits at a depth
    below [maxDepth], and a suspended [traverseDependencies] waits for at
    least one callback. *)
#[warnings="-register-all"]
Inductive wf_task (maxDepth : nat) : MetadataGraph.Task → Prop :=
| wf_Fetching depName d :
    (d < maxDepth)%nat → wf_task maxDepth (MetadataGraph.Fetching depName d)
| wf_Traversing pending rest d :
    (d < maxDepth)%nat → pending ≠ [] → Forall (wf_task maxDepth) pending →
    wf_task maxDepth (MetadataGraph.Traversing pending rest d).

Definition wf_state (maxDepth : nat) (o : option MetadataGraph.Task) : Prop :=
  ∀ t, o = Some t → wf_task maxDepth t.

(** The [visited] keys of the dependency fetches in a list of requests. *)
Definition dep_keys (events : list MetadataGraph.Event) : list string :=
  omap (λ ev, match ev with
              | MetadataGraph.FetchDep depName versionRange _ =>
                  Some (depName +:+ "@" +:+ versionRange)
              | MetadataGraph.FetchRoot _ => None
              end) events.

(** The batches a suspended traversal has yet to start. *)
Definition todo (o : option MetadataGraph.Task) : list (string * string) :=
  match o with
  | Some (MetadataGraph.Traversing _ rest _) => concat rest
  | _ => []
  end.

(** What a traversal keeps true of the memory it shares. *)
Definition result_ok (m : MetadataGraph.Mem) : Prop :=
  consistent (MetadataGraph.result m)
  ∧ NoDup (insecurePackages (MetadataGraph.result m)).

Definition log_ok (maxDepth : nat) (m : MetadataGraph.Mem) : Prop :=
  (∀ n r d, MetadataGraph.FetchDep n r d ∈ MetadataGraph.issued m →
            (d < maxDepth)%nat)
  ∧ (∀ k, k ∈ dep_keys (MetadataGraph.issued m) → k ∈ MetadataGraph.visited m)
  ∧ NoDup (dep_keys (MetadataGraph.issued m)).

Definition visited_ok (cacheKey : string) (m : MetadataGraph.Mem) : Prop :=
  ∀ k, k ∈ MetadataGraph.visited m →
       k = cacheKey ∨ k ∈ dep_keys (MetadataGraph.issued m).

(** [m] is [m0] after some more of the traversal: nothing recorded is lost,
    and the traversal does not touch [error] and [analyzedAt]. *)
Definition extends (m0 m : MetadataGraph.Mem) : Prop :=
  MetadataGraph.visited m0 ⊆ MetadataGraph.visited m
  ∧ (∀ x, x ∈ insecurePackages (MetadataGraph.result m0) →
          x ∈ insecurePackages (MetadataGraph.result m))
  ∧ (isInsecure (MetadataGraph.result m0) = true →
     isInsecure (MetadataGraph.result m) = true)
  ∧ error (MetadataGraph.result m) = error (MetadataGraph.result m0)
  ∧ analyzedAt (MetadataGraph.result m) = analyzedAt (MetadataGraph.result m0).

(** Each entry of [deps] is either behind the traversal, with its key in
    [visited], or in a batch the loop has yet to start. *)
Definition covered (deps : list (string * string))
           (s : option MetadataGraph.Task * MetadataGraph.Mem) : Prop :=
  ∀ e, e ∈ deps →
       e.1 +:+ "@" +:+ e.2 ∈ MetadataGraph.visited s.2 ∨ e ∈ todo s.1.

(** The memory a metadata-graph scan starts its traversal with, and the
    memory the traversal leaves. *)
Definition start_memory (insecure : gset string) (now : Z)
           (packageName version : string)
           (versionInfo : MetadataGraph.VersionInfo) : MetadataGraph.Mem :=
  MetadataGraph.mkMem
    (foldl (λ r depName, check insecure depName r) (mkResult false [] now None)
           (keys (MetadataGraph.allDeps_of versionInfo)))
    {[packageName +:+ "@" +:+ version]}
    [MetadataGraph.FetchRoot packageName].

(** The paths of a metadata-graph scan that misses the cache, with the
    result and the requests of each. *)
Section scanned.
Import MetadataGraph.
Variable net : string → nat → Fetcher.Fetched (option PkgData).
Variable NPM_REGISTRY : string.
Variable MAX_RETRIES : nat.
Variable loadInsecurePackages : string + gset string.
Variable sched : nat → nat.
Variable now : Z.

Local Abbreviation fetchJson := (fetchJson net NPM_REGISTRY MAX_RETRIES).
Local Abbreviation traverse_all :=
  (traverse_all net NPM_REGISTRY MAX_RETRIES).
Local Abbreviation fresh := (mkResult false [] now None).

Inductive scanned (packageName version : string)
  : AnalysisResult → list Event → Prop :=
| scanned_load_failed msg :
    loadInsecurePackages = inl msg →
    scanned packageName version (set_error msg fresh) []
| scanned_listed ins :
    loadInsecurePackages = inr ins → packageName ∈ ins →
    scanned packageName version (mkResult true [packageName] now None) []
| scanned_fetch_failed ins e :
    loadInsecurePackages = inr ins → packageName ∉ ins →
    fetchJson packageName = inr e →
    scanned packageName version (set_error (Fetcher.message e) fresh)
            [FetchRoot packageName]
| scanned_not_found ins pkgData :
    loadInsecurePackages = inr ins → packageName ∉ ins →
    fetchJson packageName = inl pkgData →
    manifest_of pkgData version = None →
    scanned packageName version
            (set_error "Package version not found" fresh)
            [FetchRoot packageName]
| scanned_traversed ins pkgData versionInfo :
    loadInsecurePackages = inr ins → packageName ∉ ins →
    fetchJson packageName = inl pkgData →
    manifest_of pkgData version = Some versionInfo →
    let m := traverse_all ins 3 sched (allDeps_of versionInfo)
               (start_memory ins now packageName version versionInfo) in
    scanned packageName version (result m) (issued m).
End scanned.

(** The root's own key is in [visited] from the start and is never
    requested as a dependency. *)
Definition root_ok (cacheKey : string) (m : MetadataGraph.Mem) : Prop :=
  cacheKey ∈ MetadataGraph.visited m
  ∧ cacheKey ∉ dep_keys (MetadataGraph.issued m).

(** The delay that section 4.1 of the specification prescribes after a 429
    on attempt [i]: the server-supplied delay, in milliseconds, when the
    response carries one, and [2^i * 1000] otherwise. *)
Definition spec_wait_429 (i : nat) (retryAfter : option string) : option Z :=
  match retryAfter with
  | Some h => (λ n, n * 1000) <$> parseInt h
  | None => Some (2 ^ Z.of_nat i * 1000)
  end.

(** ** Registries to run the scanners on *)

Module Registry.
Import MetadataGraph.

Definition url : string := "https://registry.npmmirror.com".

(** A registry document with one version, tagged [latest]. *)
Definition doc (version : string) (deps : Obj string) : PkgData :=
  mkPkgData (Some [("latest", version)])
            (Some [(version, mkVersionInfo (Some deps) None None)]).

(** What the registry answers for an unknown package: a JSON object with
    neither [dist-tags] nor [versions]. *)
Definition not_found : PkgData := mkPkgData None None.

Inductive Served :=
| Document (d : PkgData)
| Broken (status : Z)
| Unreachable (msg : string).

(** A registry that answers every attempt for a package the same way. *)
Definition serve (packages : Obj Served) (u : string) (i : nat)
  : Fetcher.Fetched (option PkgData) :=
  match get u ((λ p, (url +:+ "/" +:+ p.1, p.2)) <$> packages) with
  | Some (Document d) =>
      Fetcher.Resolves (Fetcher.mkResponse 200 None (inr (Some d)))
  | Some (Broken status) =>
      Fetcher.Resolves (Fetcher.mkResponse status None (inl "Unexpected token <"))
  | Some (Unreachable msg) => Fetcher.Rejects msg
  | None =>
      Fetcher.Resolves (Fetcher.mkResponse 404 None (inr (Some not_found)))
  end.

(** [p0 -> p1 -> ... -> p10], and [p10] depends on [sharp]. *)
Definition chain : Obj Served :=
  [("p0", Document (doc "1.0.0" [("p1", "^1.0.0")]));
   ("p1", Document (doc "1.0.0" [("p2", "^1.0.0")]));
   ("p2", Document (doc "1.0.0" [("p3", "^1.0.0")]));
   ("p3", Document (doc "1.0.0" [("p4", "^1.0.0")]));
   ("p4", Document (doc "1.0.0" [("p5", "^1.0.0")]));
   ("p5", Document (doc "1.0.0" [("p6", "^1.0.0")]));
   ("p6", Document (doc "1.0.0" [("p7", "^1.0.0")]));
   ("p7", Document (doc "1.0.0" [("p8", "^1.0.0")]));
   ("p8", Document (doc "1.0.0" [("p9", "^1.0.0")]));
   ("p9", Document (doc "1.0.0" [("p10", "^1.0.0")]));
   ("p10", Document (doc "1.0.0" [("sharp", "^0.33.0")]))].

(** [A -> B -> A], and [B] depends on [canvas] too. *)
Definition cycle : Obj Served :=
  [("A", Document (doc "1.0.0" [("B", "^1.0.0")]));
   ("B", Document (doc "1.0.0" [("A", "^1.0.0"); ("canvas", "*")]))].

(** A plugin with three dependencies; the registry fails on the first. *)
Definition flaky : Obj Served :=
  [("koishi-plugin-x",
    Document (doc "2.1.0" [("gone", "^1.0.0"); ("wrapper", "^3.0.0");
                           ("left-pad", "*")]));
   ("gone", Broken 500);
   ("wrapper", Document (doc "3.0.1" [("puppeteer", "^21.0.0")]));
   ("left-pad", Document (doc "1.3.0" []))].

(** [X], which depends on [sharp], is reached from the root both through
    [A] (two levels down) and through [B] and [C] (three levels down). *)
Definition diamond : Obj Served :=
  [("root", Document (doc "1.0.0" [("A", "^1.0.0"); ("B", "^1.0.0")]));
   ("A", Document (doc "1.0.0" [("X", "^1.0.0")]));
   ("B", Document (doc "1.0.0" [("C", "^1.0.0")]));
   ("C", Document (doc "1.0.0" [("X", "^1.0.0")]));
   ("X", Document (doc "1.0.0" [("sharp", "^0.33.0")]))].

(** [sharp] itself, with no dependencies. *)
Definition native : Obj Served :=
  [("sharp", Document (doc "0.33.0" []))].
End Registry.

(** ** The installed-package listing, loop by loop *)

(** The three loops of [getInstalledPackages], each with the recursive call
    as a parameter; [getInstalledPackages] on a readable directory is
    [entries_loop getInstalledPackages]. *)
Definition nested_of (rec : SandboxInstall.Node → list string → list string)
           (children : list (string * SandboxInstall.Node))
           (packages : list string) : list string :=
  (fix find (l : list (string * SandboxInstall.Node)) : list string :=
     match l with
     | [] => packages
     | (n, c) :: l' =>
         if bool_decide (n = "node_modules") then rec c packages else find l'
     end) children.

Definition scoped_loop (rec : SandboxInstall.Node → list string → list string)
           (name : string)
  : list (string * SandboxInstall.Node) → list string → list string :=
  fix scoped (sl : list (string * SandboxInstall.Node))
      (packages : list string) : list string :=
    match sl with
    | [] => packages
    | (_, SandboxInstall.File) :: sl' => scoped sl' packages
    | (scopedName, SandboxInstall.Dir _ children') :: sl' =>
        let packageName := name +:+ "/" +:+ scopedName in
        let packages := SandboxInstall.add packageName packages in
        scoped sl' (nested_of rec children' packages)
    end.

Definition entries_loop (rec : SandboxInstall.Node → list string → list string)
  : list (string * SandboxInstall.Node) → list string → list string :=
  fix loop (l : list (string * SandboxInstall.Node)) (packages : list string)
    : list string :=
    match l with
    | [] => packages
    | (name, SandboxInstall.File) :: l' => loop l' packages
    | (name, SandboxInstall.Dir readable children) :: l' =>
        if startsWith name "@" then
          if readable then
            loop l' (scoped_loop rec name children packages)
          else packages
        else if negb (bool_decide (name = ".bin"))
                && negb (bool_decide (name = ".yarn-integrity")) then
          let packages := SandboxInstall.add name packages in
          loop l' (nested_of rec children packages)
        else loop l' packages
    end.

(** A directory entry that stands for an unscoped package. *)
Definition regular (name : string) : Prop :=
  startsWith name "@" = false ∧ name ≠ ".bin" ∧ name ≠ ".yarn-integrity".

(** The packages of an installation, read off the tree: [installed node x]
    when [x] names a package directory in the [node_modules] directory
    [node] or in a [node_modules] directory nested in one of its
    packages. *)
Inductive installed : SandboxInstall.Node → string → Prop :=
| installed_package entries name r children :
    (name, SandboxInstall.Dir r children) ∈ entries → regular name →
    installed (SandboxInstall.Dir true entries) name
| installed_below_package entries name r children node x :
    (name, SandboxInstall.Dir r children) ∈ entries → regular name →
    get "node_modules" children = Some node → installed node x →
    installed (SandboxInstall.Dir true entries) x
| installed_scoped entries scope children name r children' :
    (scope, SandboxInstall.Dir true children) ∈ entries →
    startsWith scope "@" = true →
    (name, SandboxInstall.Dir r children') ∈ children →
    installed (SandboxInstall.Dir true entries) (scope +:+ "/" +:+ name)
| installed_below_scoped entries scope children name r children' node x :
    (scope, SandboxInstall.Dir true children) ∈ entries →
    startsWith scope "@" = true →
    (name, SandboxInstall.Dir r children') ∈ children →
    get "node_modules" children' = Some node → installed node x →
    installed (SandboxInstall.Dir true entries) x.

(** A tree in which every directory can be read. *)
#[warnings="-register-all"]
Inductive readable_tree : SandboxInstall.Node → Prop :=
| readable_File : readable_tree SandboxInstall.File
| readable_Dir entries :
    Forall (λ e, readable_tree e.2) entries →
    readable_tree (SandboxInstall.Dir true entries).

(** The number of nodes of a tree. *)
Fixpoint node_size (node : SandboxInstall.Node) : nat :=
  match node with
  | SandboxInstall.File => 1%nat
  | SandboxInstall.Dir _ entries =>
      S (sum_list_with (λ e, node_size e.2) entries)
  end.

(** A name is on a deny-list. *)
Definition listed (ins : gset string) (name : string) : Prop :=
  name ∈ UNSAFE_DEPENDENCIES ∨ name ∈ ins.

(** What the recursive call of the listing is known to do on a node: it
    keeps the set duplicate-free, keeps what is in it, and adds only
    installed packages ([listing_sound]); it adds every installed package
    ([listing_complete]). *)
Definition listing_sound (rec : SandboxInstall.Node → list string → list string)
           (c : SandboxInstall.Node) : Prop :=
  ∀ acc, (NoDup acc → NoDup (rec c acc))
         ∧ (∀ x, x ∈ acc → x ∈ rec c acc)
         ∧ (∀ x, x ∈ rec c acc → x ∈ acc ∨ installed c x).

Definition listing_complete
           (rec : SandboxInstall.Node → list string → list string)
           (c : SandboxInstall.Node) : Prop :=
  ∀ acc x, installed c x → x ∈ rec c acc.

Definition entries_size (l : list (string * SandboxInstall.Node)) : nat :=
  sum_list_with (λ e, node_size e.2) l.

(** ** An installation to run the listing on *)

Module Installation.
Import SandboxInstall.

(** [node_modules] after installing a plugin that brings [sharp] in a nested
    [node_modules], next to a scoped package and [yarn]'s own entries. *)
Definition sample : Node :=
  Dir true
    [(".bin", Dir true [("left-pad", File)]);
     (".yarn-integrity", File);
     ("koishi-plugin-x",
      Dir true [("package.json", File);
                ("node_modules", Dir true [("sharp", Dir true [])])]);
     ("@koishijs", Dir true [("plugin-help", Dir true []); ("README.md", File)]);
     ("left-pad", Dir true [("index.js", File)])].
End Installation.

(** ** More JavaScript string functions *)

(** [String.prototype.trimEnd] and [String.prototype.trim], for the white
    space of [is_white]. *)
Fixpoint trimEnd (s : string) : string :=
  match s with
  | EmptyString => EmptyString
  | String c s' =>
      match trimEnd s' with
      | EmptyString => if is_white c then EmptyString else String c EmptyString
      | t => String c t
      end
  end.

Definition trim (s : string) : string := trimEnd (skip_white s).

(** [s.slice(n)] *)
Fixpoint skip (n : nat) (s : string) : string :=
  match n, s with
  | O, _ => s
  | S n', String _ s' => skip n' s'
  | S _, EmptyString => EmptyString
  end.

(** [s.replace(pattern, replacement)] for a string [pattern] and a
    [replacement] without [$]: the first occurrence is replaced. *)
Fixpoint replace (s pattern replacement : string) : string :=
  if String.prefix pattern s then
    replacement +:+ skip (String.length pattern) s
  else
    match s with
    | EmptyString => EmptyString
    | String c s' => String c (replace s' pattern replacement)
    end.

(** [s.split(sep)] for a separator of one character. *)
Fixpoint split (sep : ascii) (s : string) : list string :=
  match s with
  | EmptyString => [EmptyString]
  | String c s' =>
      if Ascii.eqb c sep then EmptyString :: split sep s'
      else
        match split sep s' with
        | part :: parts => String c part :: parts
        | [] => [String c EmptyString]
        end
  end.

(** How a synchronous call completes. *)
Inductive Completion (A : Type) :=
| Normal (a : A)
| TypeError (message : string).
Arguments Normal {A} a.
Arguments TypeError {A} message.

(** ** Regular expressions, as far as [VALID_PACKAGE_PATTERN] needs them *)

Inductive Regex :=
| Never
| Empty
| Class (p : ascii → bool)
| Seq (r1 r2 : Regex)
| Alt (r1 r2 : Regex)
| Plus (r : Regex).

(** A literal string. *)
Fixpoint Lit (s : string) : Regex :=
  match s with
  | EmptyString => Empty
  | String c s' => Seq (Class (Ascii.eqb c)) (Lit s')
  end.

Fixpoint nullable (r : Regex) : bool :=
  match r with
  | Never => false
  | Empty => true
  | Class _ => false
  | Seq r1 r2 => nullable r1 && nullable r2
  | Alt r1 r2 => nullable r1 || nullable r2
  | Plus r => nullable r
  end.

(** The expression for what may follow a first character [c]. *)
Fixpoint derive (c : ascii) (r : Regex) : Regex :=
  match r with
  | Never => Never
  | Empty => Never
  | Class p => if p c then Empty else Never
  | Seq r1 r2 =>
      if nullable r1 then Alt (Seq (derive c r1) r2) (derive c r2)
      else Seq (derive c r1) r2
  | Alt r1 r2 => Alt (derive c r1) (derive c r2)
  | Plus r => Seq (derive c r) (Alt Empty (Plus r))
  end.

(** [/^r$/.test(s)] *)
Fixpoint test (r : Regex) (s : string) : bool :=
  match s with
  | EmptyString => nullable r
  | String c s' => test (derive c r) s'
  end.

(** The strings an expression stands for. *)
Inductive matches : Regex → string → Prop :=
| matches_Empty : matches Empty EmptyString
| matches_Class p c : p c = true → matches (Class p) (String c EmptyString)
| matches_Seq r1 r2 s1 s2 :
    matches r1 s1 → matches r2 s2 → matches (Seq r1 r2) (s1 +:+ s2)
| matches_Alt_l r1 r2 s : matches r1 s → matches (Alt r1 r2) s
| matches_Alt_r r1 r2 s : matches r2 s → matches (Alt r1 r2) s
| matches_Plus_one r s : matches r s → matches (Plus r) s
| matches_Plus_more r s1 s2 :
    matches r s1 → matches (Plus r) s2 → matches (Plus r) (s1 +:+ s2).

(** [\w] *)
Definition is_word (c : ascii) : bool :=
  let n := nat_of_ascii c in
  bool_decide (48 ≤ n ≤ 57 ∨ 65 ≤ n ≤ 90 ∨ 97 ≤ n ≤ 122 ∨ n = 95)%nat.

(** ** [src/utils/fetcher.js]: package names *)

Module Plugins.

(** [defaults.VALID_PACKAGE_PATTERN] of [src/config.js]:
    [^(?:@[^/]+\/koishi-plugin-|@koishijs\/plugin-|koishi-plugin-)[\w-]+$] *)
Definition VALID_PACKAGE_PATTERN : Regex :=
  Seq (Alt (Seq (Lit "@")
                (Seq (Plus (Class (λ c, negb (Ascii.eqb c "/"))))
                     (Lit "/koishi-plugin-")))
           (Alt (Lit "@koishijs/plugin-") (Lit "koishi-plugin-")))
      (Plus (Class (λ c, is_word c || Ascii.eqb c "-"))).

(** fetcher.js:14-23 *)
Definition getPackageShortname (name : string) : Completion string :=
  if startsWith name "@koishijs/" then
    Normal (replace name "@koishijs/plugin-" "")
  else if startsWith name "@" then
    match split "/" name with
    | scope :: pkgName :: _ =>
        Normal (scope +:+ "/" +:+ replace pkgName "koishi-plugin-" "")
    | _ =>
        (* [pkgName] is [undefined] *)
        TypeError "Cannot read properties of undefined (reading 'replace')"
    end
  else Normal (replace name "koishi-plugin-" "").

(** fetcher.js:26-28 *)
Definition isVerifiedPackage (name : string) : bool :=
  startsWith name "@koishijs/".

End Plugins.

(** ** The file-based update counter *)

(** Numbers are integers here; the code's are doubles, which agree with
    them on the safe integers. *)
Definition MAX_SAFE_INTEGER : Z := 2 ^ 53 - 1.

Definition safe (z : Z) : Prop :=
  (- MAX_SAFE_INTEGER ≤ z ≤ MAX_SAFE_INTEGER)%Z.

Module UpdateCounter.

Section counter.
(** The counter file is its content, or [None] when it does not exist;
    [readFails] and [writeFails] say whether [readFileSync] and
    [writeFileSync] throw.  A write that throws leaves the file as it
    was. *)
Variables readFails writeFails : bool.

Definition readUpdateCounter (file : option string) : Z :=
  match file with
  | Some content =>
      if readFails then 0
      else
        match parseInt (trim content) with
        | Some count => count
        | None => 0
        end
  | None => 0
  end.

Definition incrementUpdateCounter (file : option string)
  : Z * option string :=
  let currentCount := readUpdateCounter file in
  let newCount := currentCount + 1 in
  if writeFails then (currentCount, file)
  else (newCount, Some (pretty newCount)).

Definition resetUpdateCounter (file : option string) : option string :=
  if writeFails then file else Some "0".
End counter.

End UpdateCounter.

(** ** The server's refresh of the plugin index *)

Module Server.

Section server.
Context {Plugin : Type}.

(** [pluginsData], and the document [saveToFile] writes. *)
Record Index := mkIndex {
  time : string;
  total : nat;
  version : Z;
  objects : list Plugin
}.

(** The initial [pluginsData]. *)
Definition pluginsData0 : Index := mkIndex "" 0 1 [].

(** The document [saveToFile(data)] writes when the clock reads [now]. *)
Definition saveToFile (now : string) (data : list Plugin) : Index :=
  mkIndex now (length data) 1 data.

(** [updatePluginsData]: [scan] is how [fetchKoishiPlugins()] settles (the
    message of the error, or the plugins), [writeFails] whether
    [fs.writeFile] rejects, [now1] and [now2] the two clock readings.  The
    state is [pluginsData] and the content of [index.json], if any. *)
Definition updatePluginsData (scan : string + list Plugin) (writeFails : bool)
           (now1 now2 : string) (pluginsData : Index) (file : option Index)
  : Index * option Index :=
  match scan with
  | inl _ => (pluginsData, file)
  | inr plugins =>
      if bool_decide (length plugins ≠ 0%nat) then
        let pluginsData := mkIndex now1 (length plugins) 1 plugins in
        if writeFails then (pluginsData, file)
        else (pluginsData, Some (saveToFile now2 plugins))
      else (pluginsData, file)
  end.
End server.

Arguments Index : clear implicits.

End Server.

(** Every character of a string satisfies [p]. *)
Fixpoint all_chars (p : ascii → bool) (s : string) : bool :=
  match s with
  | EmptyString => true
  | String c s' => p c && all_chars p s'
  end.

(** ** [src/utils/fetcher.js]: the scan of the registry *)

Module PluginScan.

Section scan.
Context {Plugin : Type}.

(** An entry of a search page: [name] is [result.package?.name], and
    [details] is what [fetchPackageDetails(name, result)] resolves to for
    this entry ([None] is [null]; the call never rejects, its body being one
    [try] block whose [catch] returns [null]). *)
Record SearchResult := mkSearchResult {
  name : option string;
  details : option Plugin
}.

(** The answer to a search request: [total] is [data.total] ([None] when
    the key is absent; [null] compares like 0 and is [Some 0]), [objects] is
    [data.objects || []]. *)
Record Page := mkPage {
  total : option Z;
  objects : list SearchResult
}.

Inductive Settles :=
| Resolves (plugins : list Plugin) (skippedPackages : nat)
| Rejects.

(** [preloads]: whether the categories and the insecure list load;
    [search fromOffset]: the answer to the search request with
    [from=fromOffset], [None] when [fetchWithRetry] throws or returns
    [undefined]. *)
Variable preloads : bool.
Variable search : nat → option Page.

(** [!totalPackages] *)
Definition unset (totalPackages : option Z) : bool :=
  match totalPackages with
  | None | Some 0 => true
  | Some _ => false
  end.

(** [fromOffset >= totalPackages] *)
Definition reached (fromOffset : nat) (totalPackages : option Z) : bool :=
  match totalPackages with
  | Some n => bool_decide (n ≤ Z.of_nat fromOffset)
  | None => false
  end.

(** [config.VALID_PACKAGE_PATTERN.test(result.package?.name)] *)
Definition valid (result : SearchResult) : bool :=
  test Plugins.VALID_PACKAGE_PATTERN (default "undefined" (name result)).

(** The [while (true)] loop of fetcher.js:315-361, one iteration for each
    unit of [fuel]; [requests] are the offsets asked for so far. *)
Fixpoint pages (fuel : nat) (plugins : list Plugin) (fromOffset : nat)
         (totalPackages : option Z) (skippedPackages : nat)
         (requests : list nat) : option (list nat * Settles) :=
  match fuel with
  | O => None
  | S fuel =>
      let requests := requests ++ [fromOffset] in
      match search fromOffset with
      | None => Some (requests, Rejects)
      | Some data =>
          let totalPackages :=
            if unset totalPackages then total data else totalPackages in
          let results := objects data in
          if bool_decide (length results = 0%nat) then
            Some (requests, Resolves plugins skippedPackages)
          else
            let validPackages := filter (λ r, valid r = true) results in
            let batchResults := details <$> validPackages in
            let validResults := omap id batchResults in
            let skippedPackages :=
              (skippedPackages
               + (length batchResults - length validResults))%nat in
            let plugins := plugins ++ validResults in
            let fromOffset := (fromOffset + length results)%nat in
            if reached fromOffset totalPackages then
              Some (requests, Resolves plugins skippedPackages)
            else
              pages fuel plugins fromOffset totalPackages skippedPackages
                    requests
      end
  end.

(** fetcher.js:303-369 *)
Definition fetchKoishiPlugins (fuel : nat) : option (list nat * Settles) :=
  if preloads then pages fuel [] 0%nat None 0%nat []
  else Some ([], Rejects).
End scan.

Arguments SearchResult : clear implicits.
Arguments Page : clear implicits.
Arguments Settles : clear implicits.

(** A registry that serves a fixed list of results in pages of [size]. *)
Definition paged {Plugin} (entries : list (SearchResult Plugin)) (size : nat)
  : nat → option (Page Plugin) :=
  λ fromOffset,
    Some (mkPage (Some (Z.of_nat (length entries)))
                 (take size (drop fromOffset entries))).

(** A registry that never says how many results there are and never runs
    out of them. *)
Definition endless {Plugin} (entry : SearchResult Plugin)
  : nat → option (Page Plugin) :=
  λ _, Some (mkPage None [entry]).

End PluginScan.

(** ** Refreshes of the served index, one after the other *)

Module Refreshes.

Section refreshes.
Context {Plugin : Type}.

(** What a run of [updatePluginsData] meets: how the scan settles, whether
    the write of [index.json] fails, and the two clock readings. *)
Record Run := mkRun {
  scan : string + list Plugin;
  writeFails : bool;
  now1 : string;
  now2 : string
}.

Definition refresh (state : Server.Index Plugin * option (Server.Index Plugin))
           (run : Run) : Server.Index Plugin * option (Server.Index Plugin) :=
  Server.updatePluginsData (scan run) (writeFails run) (now1 run) (now2 run)
                           state.1 state.2.

(** The first update of [startServer] and the scheduled ones after it;
    [file] is [index.json] as the server finds it. *)
Definition refreshes (file : option (Server.Index Plugin)) (runs : list Run)
  : Server.Index Plugin * option (Server.Index Plugin) :=
  foldl refresh (Server.pluginsData0, file) runs.

(** The plugins of a run whose scan resolved with at least one. *)
Definition found (run : Run) : option (list Plugin) :=
  match scan run with
  | inr (plugin :: plugins) => Some (plugin :: plugins)
  | _ => None
  end.
End refreshes.

Arguments Run : clear implicits.

End Refreshes.

(** * Properties *)

Local Open Scope nat_scope.

(** ** Helper facts on lists and objects *)

Lemma take_drop_step {A} (l : list A) (n b : nat) :
  take (n * b) l ++ take b (drop (n * b) l) = take (S n * b) l.
Proof.
  rewrite take_take_drop. f_equal. lia.
Qed.

Lemma concat_slices {A} (l : list A) (b n : nat) :
  concat ((λ i, slice l i (i + b)) <$> ((λ k, k * b)%nat <$> seq 0 n))
  = take (n * b) l.
Proof.
  induction n as [| n IH].
  - by rewrite take_0.
  - rewrite seq_S, !fmap_app, concat_app, IH. simpl.
    rewrite app_nil_r. unfold slice.
    replace (n * b + b - n * b)%nat with b by lia.
    apply take_drop_step.
Qed.

Lemma concat_batches {A} (l : list A) :
  concat (MetadataGraph.batches l) = l.
Proof.
  unfold MetadataGraph.batches, MetadataGraph.batch_starts.
  rewrite concat_slices. apply take_ge.
  unfold MetadataGraph.batchSize.
  pose proof (Nat.div_mod_eq (length l + (10 - 1)) 10) as H.
  pose proof (Nat.mod_upper_bound (length l + (10 - 1)) 10). lia.
Qed.

(** ** The traversal: invariants and termination *)

Lemma Task_ind' (P : MetadataGraph.Task → Prop)
      (Hf : ∀ n d, P (MetadataGraph.Fetching n d))
      (Ht : ∀ ts bs d, Forall P ts → P (MetadataGraph.Traversing ts bs d)) :
  ∀ t, P t.
Proof.
  fix IH 1. intros [n d | ts bs d]; [apply Hf | apply Ht].
  induction ts as [| t ts IHts]; constructor; [apply IH | exact IHts].
Qed.

Section traversal_facts.
Import MetadataGraph.
Variable net : string → nat → Fetcher.Fetched (option PkgData).
Variable NPM_REGISTRY : string.
Variable MAX_RETRIES : nat.
Variable insecure : gset string.
Variable maxDepth : nat.

Local Abbreviation callback_start := (callback_start insecure).
Local Abbreviation batch_start := (batch_start insecure).
Local Abbreviation batches_loop := (batches_loop insecure).
Local Abbreviation traverseDependencies := (traverseDependencies insecure maxDepth).
Local Abbreviation callback_resume :=
  (callback_resume net NPM_REGISTRY MAX_RETRIES insecure maxDepth).
Local Abbreviation resume := (resume net NPM_REGISTRY MAX_RETRIES insecure maxDepth).
Local Abbreviation run := (run net NPM_REGISTRY MAX_RETRIES insecure maxDepth).
Local Abbreviation nested := (nested net NPM_REGISTRY MAX_RETRIES).
Local Abbreviation tree_cost := (tree_cost net NPM_REGISTRY MAX_RETRIES).
Local Abbreviation weight := (weight net NPM_REGISTRY MAX_RETRIES maxDepth).
Local Abbreviation weight_of := (weight_of net NPM_REGISTRY MAX_RETRIES maxDepth).
Local Abbreviation traverse_all :=
  (traverse_all net NPM_REGISTRY MAX_RETRIES insecure maxDepth).
Local Abbreviation wf := (wf_task maxDepth).
Local Abbreviation wf_o := (wf_state maxDepth).

Lemma wf_o_None : wf_o None.
Proof. by intros t. Qed.

Lemma wf_o_Some t : wf t → wf_o (Some t).
Proof. intros H t' [= <-]. exact H. Qed.

Lemma fetches_pos t : wf t → 0 < fetches t.
Proof.
  induction t as [n d | ts bs d IH] using Task_ind'; simpl; [lia |].
  inversion 1 as [| ? ? ? _ Hne Hall]; subst.
  destruct ts as [| t ts]; [done |].
  apply Forall_cons in IH as [IHt _]. apply Forall_cons in Hall as [Ht _].
  simpl. specialize (IHt Ht). lia.
Qed.

(** *** A property of the shared memory that every callback start keeps
        is kept by the whole traversal *)
Section invariant.
Variable I : Mem → Prop.
Hypothesis I_callback_start :
  ∀ d e m, d < maxDepth → I m → I (callback_start d e m).2.

Lemma callback_start_wf d e m :
  d < maxDepth → wf_o (callback_start d e m).1.
Proof.
  intros Hd. unfold MetadataGraph.callback_start. destruct e as [n r].
  case_bool_decide; simpl; [apply wf_o_None |].
  apply wf_o_Some. by constructor.
Qed.

Lemma batch_start_inv d b m :
  d < maxDepth → I m →
  I (batch_start d b m).2 ∧ Forall wf (batch_start d b m).1.
Proof.
  intros Hd. revert m. induction b as [| e b IH]; intros m Hm; simpl.
  - by split.
  - pose proof (I_callback_start d e m Hd Hm) as H1.
    pose proof (callback_start_wf d e m Hd) as H2.
    destruct (callback_start d e m) as [o m1]; simpl in *.
    destruct (IH m1 H1) as [H3 H4].
    destruct (batch_start d b m1) as [ts m2]; simpl in *.
    split; [done |]. destruct o as [t |]; simpl; [| done].
    constructor; [by apply H2 | done].
Qed.

Lemma batches_loop_inv d bs m :
  d < maxDepth → I m →
  I (batches_loop d bs m).2 ∧ wf_o (batches_loop d bs m).1.
Proof.
  intros Hd. revert m. induction bs as [| b bs IH]; intros m Hm; simpl.
  - split; [done | apply wf_o_None].
  - destruct (batch_start_inv d b m Hd Hm) as [H1 H2].
    destruct (batch_start d b m) as [ts m']; simpl in *.
    destruct ts as [| t ts]; [by apply IH |].
    simpl. split; [done |]. apply wf_o_Some. by constructor.
Qed.

Lemma traverseDependencies_inv deps d m :
  I m →
  I (traverseDependencies deps d m).2 ∧ wf_o (traverseDependencies deps d m).1.
Proof.
  intros Hm. unfold MetadataGraph.traverseDependencies.
  case_bool_decide; [split; [done | apply wf_o_None] |].
  apply batches_loop_inv; [lia | done].
Qed.

Lemma callback_resume_inv n d m :
  I m → I (callback_resume n d m).2 ∧ wf_o (callback_resume n d m).1.
Proof.
  intros Hm. unfold MetadataGraph.callback_resume.
  destruct (fetchJson _ _ _ n) as [depData | e];
    [| split; [done | apply wf_o_None]].
  destruct (nestedDeps_of depData) as [nestedDeps |];
    [| split; [done | apply wf_o_None]].
  case_bool_decide; [| split; [done | apply wf_o_None]].
  by apply traverseDependencies_inv.
Qed.

Lemma within_inv ts :
  Forall (λ t, ∀ k m, wf t → I m →
                      I (resume k t m).2 ∧ wf_o (resume k t m).1) ts →
  ∀ k m, Forall wf ts → I m →
         I (within resume m k ts).2 ∧ Forall wf (within resume m k ts).1.
Proof.
  induction 1 as [| t ts Ht _ IH]; intros k m Hwf Hm; simpl; [done |].
  apply Forall_cons in Hwf as [Hwt Hwts].
  case_bool_decide.
  - destruct (Ht k m Hwt Hm) as [H1 H2].
    destruct (resume k t m) as [o m']; simpl in *.
    split; [done |]. destruct o as [t' |]; simpl; [| done].
    constructor; [by apply H2 | done].
  - destruct (IH (k - fetches t) m Hwts Hm) as [H1 H2].
    destruct (within resume m (k - fetches t) ts) as [l'' m']; simpl in *.
    split; [done |]. by constructor.
Qed.

Lemma resume_inv t :
  ∀ k m, wf t → I m → I (resume k t m).2 ∧ wf_o (resume k t m).1.
Proof.
  induction t as [n d | ts bs d IH] using Task_ind'; intros k m Hwf Hm.
  - apply callback_resume_inv, Hm.
  - inversion Hwf as [| ? ? ? Hd Hne Hall]; subst. simpl.
    destruct (within_inv ts IH k m Hall Hm) as [H1 H2].
    destruct (within resume m k ts) as [ts' m']; simpl in *.
    destruct ts' as [| t' ts']; [by apply batches_loop_inv |].
    simpl. split; [done |]. apply wf_o_Some. by constructor.
Qed.

Lemma run_inv fuel :
  ∀ sched s m', wf_o s.1 → I s.2 → run fuel sched s = Some m' → I m'.
Proof.
  induction fuel as [| fuel IH]; intros sched [[t |] m] m' Hwf Hm; simpl in *;
    try congruence.
  specialize (Hwf t eq_refl).
  apply IH; by apply resume_inv.
Qed.
End invariant.

Lemma resume_wf k t m : wf t → wf_o (resume k t m).1.
Proof.
  intros Hwf. by apply (resume_inv (λ _, True)).
Qed.

(** *** Termination: every turn of the event loop lowers [weight] *)

Lemma tree_cost_app k l1 l2 :
  tree_cost k (l1 ++ l2) = tree_cost k l1 + tree_cost k l2.
Proof.
  destruct k; simpl; [done | apply sum_list_with_app].
Qed.

Lemma levels_left d : d < maxDepth → maxDepth - d = S (maxDepth - (d + 1)).
Proof. lia. Qed.

Lemma batch_start_weight d b m :
  d < maxDepth →
  sum_list_with weight (batch_start d b m).1 ≤ tree_cost (maxDepth - d) b.
Proof.
  intros Hd. rewrite (levels_left d Hd). revert m.
  induction b as [| [n r] b IH]; intros m; simpl; [done |].
  unfold MetadataGraph.callback_start.
  case_bool_decide; simpl.
  - specialize (IH (mkMem (check insecure n (result m)) (visited m) (issued m))).
    destruct (batch_start d b _) as [ts m2]; simpl in *. lia.
  - match goal with |- context [batch_start d b ?m1] =>
      specialize (IH m1); destruct (batch_start d b m1) as [ts m2] end.
    simpl in *. lia.
Qed.

Lemma batches_loop_weight d bs m :
  d < maxDepth →
  weight_of (batches_loop d bs m) ≤ tree_cost (maxDepth - d) (concat bs).
Proof.
  intros Hd. revert m. induction bs as [| b bs IH]; intros m; simpl.
  - unfold MetadataGraph.weight_of. simpl. lia.
  - rewrite tree_cost_app.
    pose proof (batch_start_weight d b m Hd) as Hb.
    destruct (batch_start d b m) as [ts m']; simpl in *.
    destruct ts as [| t ts].
    + specialize (IH m'). lia.
    + unfold MetadataGraph.weight_of. simpl in *. lia.
Qed.

Lemma traverseDependencies_weight deps d m :
  weight_of (traverseDependencies deps d m) ≤ tree_cost (maxDepth - d) deps.
Proof.
  unfold MetadataGraph.traverseDependencies. case_bool_decide.
  - unfold MetadataGraph.weight_of. simpl. lia.
  - rewrite <- (concat_batches deps) at 2.
    apply batches_loop_weight. lia.
Qed.

Lemma callback_resume_weight n d m :
  weight_of (callback_resume n d m) < weight (Fetching n d).
Proof.
  unfold MetadataGraph.callback_resume. simpl.
  unfold MetadataGraph.nested.
  destruct (fetchJson _ _ _ n) as [depData | e];
    [| unfold MetadataGraph.weight_of; simpl; lia].
  destruct (nestedDeps_of depData) as [nestedDeps |];
    [| unfold MetadataGraph.weight_of; simpl; lia].
  case_bool_decide; [| unfold MetadataGraph.weight_of; simpl; lia].
  pose proof (traverseDependencies_weight nestedDeps (d + 1) m). simpl. lia.
Qed.

Lemma within_fetches_pos ts : Forall wf ts → ts ≠ [] → 0 < sum_list_with fetches ts.
Proof.
  intros Hall Hne. destruct ts as [| t ts]; [done |].
  apply Forall_cons in Hall as [Ht _]. apply fetches_pos in Ht. simpl. lia.
Qed.

Lemma within_weight ts :
  Forall (λ t, ∀ k m, wf t → k < fetches t →
                      weight_of (resume k t m) < weight t) ts →
  ∀ k m, Forall wf ts → k < sum_list_with fetches ts →
         sum_list_with weight (within resume m k ts).1 < sum_list_with weight ts.
Proof.
  induction 1 as [| t ts Ht _ IH]; intros k m Hwf Hk; simpl in *; [lia |].
  apply Forall_cons in Hwf as [Hwt Hwts].
  case_bool_decide as Hlt.
  - specialize (Ht k m Hwt Hlt). unfold MetadataGraph.weight_of in Ht.
    destruct (resume k t m) as [[t' |] m']; simpl in *; lia.
  - specialize (IH (k - fetches t) m Hwts).
    destruct (within resume m (k - fetches t) ts) as [l'' m']; simpl in *.
    assert (k - fetches t < sum_list_with fetches ts) by lia.
    specialize (IH ltac:(done)). lia.
Qed.

Lemma resume_weight t :
  ∀ k m, wf t → k < fetches t → weight_of (resume k t m) < weight t.
Proof.
  induction t as [n d | ts bs d IH] using Task_ind'; intros k m Hwf Hk.
  - apply callback_resume_weight.
  - inversion Hwf as [| ? ? ? Hd Hne Hall]; subst. simpl in Hk.
    pose proof (within_weight ts IH k m Hall Hk) as Hw.
    simpl. destruct (within resume m k ts) as [ts' m']; simpl in *.
    destruct ts' as [| t' ts'].
    + pose proof (batches_loop_weight d bs m' Hd). simpl in *. lia.
    + unfold MetadataGraph.weight_of. simpl in *. lia.
Qed.

Lemma weight_pos t : wf t → 0 < weight t.
Proof.
  induction t as [n d | ts bs d IH] using Task_ind'; simpl; [lia |].
  inversion 1 as [| ? ? ? _ Hne Hall]; subst.
  destruct ts as [| t ts]; [done |].
  apply Forall_cons in IH as [IHt _]. apply Forall_cons in Hall as [Ht _].
  simpl. specialize (IHt Ht). lia.
Qed.

(** With [weight_of s] turns of fuel the traversal runs to its end,
    whatever the registry serves and in whatever order it answers. *)
Lemma run_terminates fuel :
  ∀ sched s, wf_o s.1 → weight_of s ≤ fuel → is_Some (run fuel sched s).
Proof.
  induction fuel as [| fuel IH]; intros sched [[t |] m] Hwf Hfuel; simpl in *;
    try by eexists.
  - specialize (Hwf t eq_refl). apply weight_pos in Hwf.
    unfold MetadataGraph.weight_of in Hfuel. simpl in Hfuel. lia.
  - specialize (Hwf t eq_refl).
    assert (sched 0 mod fetches t < fetches t) as Hk.
    { apply Nat.mod_upper_bound. pose proof (fetches_pos t Hwf). lia. }
    pose proof (resume_weight t _ m Hwf Hk) as Hlt.
    apply IH; [by apply resume_wf |].
    unfold MetadataGraph.weight_of in *. simpl in *. lia.
Qed.

Lemma traverseDependencies_wf deps d m :
  wf_o (traverseDependencies deps d m).1.
Proof.
  by apply (traverseDependencies_inv (λ _, True)).
Qed.

Lemma traverse_all_run sched deps m :
  run (weight_of (traverseDependencies deps 0 m)) sched
      (traverseDependencies deps 0 m)
  = Some (traverse_all sched deps m).
Proof.
  unfold MetadataGraph.traverse_all.
  destruct (run_terminates _ sched (traverseDependencies deps 0 m)
              (traverseDependencies_wf deps 0 m) (Nat.le_refl _)) as [m' Hm'].
  by rewrite Hm'.
Qed.

Lemma traverse_all_inv (I : Mem → Prop) sched deps m :
  (∀ d e m, d < maxDepth → I m → I (callback_start d e m).2) →
  I m → I (traverse_all sched deps m).
Proof.
  intros HI Hm.
  destruct (traverseDependencies_inv I HI deps 0 m Hm) as [H1 H2].
  eapply (run_inv I HI); [exact H2 | exact H1 | apply traverse_all_run].
Qed.
End traversal_facts.

(** ** The deny-list check *)

Lemma flag_consistent n r : consistent (flag n r).
Proof.
  unfold consistent, flag. simpl. split; [intros _ | done].
  case_bool_decide as Hin.
  - intros Heq. rewrite Heq in Hin. by apply not_elem_of_nil in Hin.
  - by intros ?%app_eq_nil%proj2.
Qed.

Lemma check_consistent ins n r : consistent r → consistent (check ins n r).
Proof.
  intros Hr. unfold check.
  repeat case_bool_decide; auto using flag_consistent.
Qed.

Lemma flag_NoDup n r :
  NoDup (insecurePackages r) → NoDup (insecurePackages (flag n r)).
Proof.
  intros Hr. unfold flag. simpl. case_bool_decide; [done |].
  apply NoDup_app. split_and!; [done | | apply NoDup_singleton].
  intros x Hx ->%list_elem_of_singleton. done.
Qed.

Lemma check_NoDup ins n r :
  NoDup (insecurePackages r) → NoDup (insecurePackages (check ins n r)).
Proof.
  intros Hr. unfold check. repeat case_bool_decide; auto using flag_NoDup.
Qed.

Lemma flag_elem n r : n ∈ insecurePackages (flag n r) ∧ isInsecure (flag n r) = true.
Proof.
  unfold flag. simpl. split; [| done].
  case_bool_decide; [done |]. apply elem_of_app. right. by apply list_elem_of_singleton.
Qed.

Lemma flag_keeps n x r :
  x ∈ insecurePackages r → x ∈ insecurePackages (flag n r).
Proof.
  unfold flag. simpl. case_bool_decide; [done |]. intros. apply elem_of_app. by left.
Qed.

Lemma check_keeps ins n x r :
  x ∈ insecurePackages r → x ∈ insecurePackages (check ins n r).
Proof.
  unfold check. repeat case_bool_decide; auto using flag_keeps.
Qed.

Lemma check_keeps_flag ins n r :
  isInsecure r = true → isInsecure (check ins n r) = true.
Proof.
  unfold check. by repeat case_bool_decide.
Qed.

Lemma check_error ins n r :
  error (check ins n r) = error r ∧ analyzedAt (check ins n r) = analyzedAt r.
Proof.
  unfold check. by repeat case_bool_decide.
Qed.

(** A name on either list is recorded by [check]. *)
Lemma check_elem ins n r :
  n ∈ UNSAFE_DEPENDENCIES ∨ n ∈ ins →
  n ∈ insecurePackages (check ins n r) ∧ isInsecure (check ins n r) = true.
Proof.
  intros Hn. unfold check.
  case_bool_decide as H1; case_bool_decide as H2.
  - apply flag_elem.
  - apply flag_elem.
  - apply flag_elem.
  - by destruct Hn.
Qed.

(** Only names on a list are recorded by [check]. *)
Lemma check_only ins n x r :
  x ∈ insecurePackages (check ins n r) →
  x ∈ insecurePackages r ∨ (x = n ∧ (n ∈ UNSAFE_DEPENDENCIES ∨ n ∈ ins)).
Proof.
  unfold check, flag.
  repeat case_bool_decide; simpl;
    rewrite ?elem_of_app, ?list_elem_of_singleton; intuition auto.
Qed.

Section foldl_check.
Variable ins : gset string.

Lemma foldl_check_consistent names r :
  consistent r → consistent (foldl (λ r n, check ins n r) r names).
Proof.
  revert r. induction names as [| n names IH]; intros r Hr; simpl; [done |].
  by apply IH, check_consistent.
Qed.

Lemma foldl_check_NoDup names r :
  NoDup (insecurePackages r) →
  NoDup (insecurePackages (foldl (λ r n, check ins n r) r names)).
Proof.
  revert r. induction names as [| n names IH]; intros r Hr; simpl; [done |].
  by apply IH, check_NoDup.
Qed.

Lemma foldl_check_keeps names x r :
  x ∈ insecurePackages r →
  x ∈ insecurePackages (foldl (λ r n, check ins n r) r names).
Proof.
  revert r. induction names as [| n names IH]; intros r Hr; simpl; [done |].
  by apply IH, check_keeps.
Qed.

Lemma foldl_check_keeps_flag names r :
  isInsecure r = true →
  isInsecure (foldl (λ r n, check ins n r) r names) = true.
Proof.
  revert r. induction names as [| n names IH]; intros r Hr; simpl; [done |].
  by apply IH, check_keeps_flag.
Qed.

Lemma foldl_check_error names r :
  error (foldl (λ r n, check ins n r) r names) = error r.
Proof.
  revert r. induction names as [| n names IH]; intros r; simpl; [done |].
  rewrite IH. apply check_error.
Qed.

Lemma foldl_check_elem names n r :
  n ∈ names → n ∈ UNSAFE_DEPENDENCIES ∨ n ∈ ins →
  n ∈ insecurePackages (foldl (λ r n, check ins n r) r names)
  ∧ isInsecure (foldl (λ r n, check ins n r) r names) = true.
Proof.
  revert r. induction names as [| n' names IH]; intros r Hin Hn; simpl.
  - by apply not_elem_of_nil in Hin.
  - apply elem_of_cons in Hin as [<- | Hin]; [| by apply IH].
    destruct (check_elem ins n r Hn).
    split; [by apply foldl_check_keeps | by apply foldl_check_keeps_flag].
Qed.
End foldl_check.

(** ** What a callback start keeps true *)

Section callback_start_facts.
Import MetadataGraph.
Variable insecure : gset string.
Variable maxDepth : nat.

Lemma callback_start_result d e m :
  result (callback_start insecure d e m).2 = check insecure e.1 (result m).
Proof.
  destruct e as [n r]. unfold callback_start. by case_bool_decide.
Qed.

Lemma callback_start_visited d e m :
  visited (callback_start insecure d e m).2
  = {[e.1 +:+ "@" +:+ e.2]} ∪ visited m.
Proof.
  destruct e as [n r]. unfold callback_start.
  case_bool_decide; simpl; [| done].
  symmetry. by apply subseteq_union_1_L, singleton_subseteq_l.
Qed.

Lemma callback_start_result_ok d e m :
  result_ok m → result_ok (callback_start insecure d e m).2.
Proof.
  intros [H1 H2]. unfold result_ok. rewrite callback_start_result.
  split; [by apply check_consistent | by apply check_NoDup].
Qed.

Lemma dep_keys_snoc l n r d :
  dep_keys (l ++ [FetchDep n r d]) = dep_keys l ++ [n +:+ "@" +:+ r].
Proof.
  unfold dep_keys. by rewrite omap_app.
Qed.

Lemma callback_start_log_ok d e m :
  d < maxDepth → log_ok maxDepth m →
  log_ok maxDepth (callback_start insecure d e m).2.
Proof.
  intros Hd (H1 & H2 & H3). destruct e as [n r]. unfold callback_start.
  case_bool_decide as Hv; simpl; [done |].
  unfold log_ok. simpl. rewrite dep_keys_snoc. split_and!.
  - intros n' r' d' [Hin | [= -> -> ->]%list_elem_of_singleton]%elem_of_app;
      [by eapply H1 | done].
  - intros k [Hin | ->%list_elem_of_singleton]%elem_of_app;
      apply elem_of_union; [right; by apply H2 | left; by apply elem_of_singleton].
  - apply NoDup_app. split_and!; [done | | apply NoDup_singleton].
    intros k Hk ->%list_elem_of_singleton. by apply Hv, H2.
Qed.

Lemma callback_start_visited_ok cacheKey d e m :
  visited_ok cacheKey m → visited_ok cacheKey (callback_start insecure d e m).2.
Proof.
  intros H. destruct e as [n r]. unfold callback_start.
  case_bool_decide as Hv; simpl; [done |].
  unfold visited_ok. simpl. rewrite dep_keys_snoc.
  intros k [->%elem_of_singleton | Hk]%elem_of_union.
  - right. apply elem_of_app. right. by apply list_elem_of_singleton.
  - destruct (H k Hk) as [-> | ?]; [by left | right].
    apply elem_of_app. by left.
Qed.

Lemma callback_start_extends m0 d e m :
  extends m0 m → extends m0 (callback_start insecure d e m).2.
Proof.
  intros (H1 & H2 & H3 & H4 & H5). unfold extends.
  rewrite callback_start_result, callback_start_visited.
  destruct (check_error insecure e.1 (result m)) as [-> ->].
  split_and!; [by apply union_subseteq_r' | | | done | done].
  - intros x Hx. by apply check_keeps, H2.
  - intros Hx. by apply check_keeps_flag, H3.
Qed.

Lemma extends_refl m : extends m m.
Proof. by unfold extends. Qed.
End callback_start_facts.

(** ** Every dependency handed to a traversal is reached *)

Section coverage.
Import MetadataGraph.
Variable net : string → nat → Fetcher.Fetched (option PkgData).
Variable NPM_REGISTRY : string.
Variable MAX_RETRIES : nat.
Variable insecure : gset string.
Variable maxDepth : nat.

Local Abbreviation resume := (resume net NPM_REGISTRY MAX_RETRIES insecure maxDepth).
Local Abbreviation run := (run net NPM_REGISTRY MAX_RETRIES insecure maxDepth).
Local Abbreviation traverse_all :=
  (traverse_all net NPM_REGISTRY MAX_RETRIES insecure maxDepth).
Local Abbreviation key := (λ e : string * string, e.1 +:+ "@" +:+ e.2).

Lemma extends_step m0 d e m :
  d < maxDepth → extends m0 m → extends m0 (callback_start insecure d e m).2.
Proof. intros _. apply callback_start_extends. Qed.

Lemma batch_start_covers d b m :
  ∀ e, e ∈ b → key e ∈ visited (batch_start insecure d b m).2.
Proof.
  revert m. induction b as [| e' b IH]; intros m e He; simpl.
  - by apply not_elem_of_nil in He.
  - pose proof (callback_start_visited insecure d e' m) as Hv.
    destruct (callback_start insecure d e' m) as [o m1]; simpl in *.
    specialize (IH m1 e).
    pose proof (batch_start_inv insecure (S d) (extends m1)
                  (λ d' e' m' _, callback_start_extends insecure m1 d' e' m')
                  d b m1 ltac:(lia) (extends_refl m1)) as [Hext _].
    destruct (batch_start insecure d b m1) as [ts m2]; simpl in *.
    apply elem_of_cons in He as [-> | He]; [| by apply IH].
    destruct Hext as [Hsub _]. apply Hsub. rewrite Hv.
    apply elem_of_union. left. by apply elem_of_singleton.
Qed.

Lemma batches_loop_covers d bs m :
  covered (concat bs) (batches_loop insecure d bs m).
Proof.
  revert m. induction bs as [| b bs IH]; intros m e He; simpl in *.
  - by apply not_elem_of_nil in He.
  - pose proof (batch_start_covers d b m) as Hb.
    destruct (batch_start insecure d b m) as [ts m'] eqn:Es; simpl in *.
    apply elem_of_app in He as [He | He].
    + left. specialize (Hb e He). destruct ts as [| t ts]; [| done].
      pose proof (batches_loop_inv insecure (S d) (extends m')
                    (λ d' e' m'' _, callback_start_extends insecure m' d' e' m'')
                    d bs m' ltac:(lia) (extends_refl m')) as [[Hsub _] _].
      by apply Hsub.
    + destruct ts as [| t ts]; [by apply IH | by right].
Qed.

Lemma resume_extends k t m :
  wf_task maxDepth t → extends m (resume k t m).2.
Proof.
  intros Hwf.
  by apply (resume_inv net NPM_REGISTRY MAX_RETRIES insecure maxDepth
              (extends m) (extends_step m) t k m Hwf (extends_refl m)).
Qed.

Lemma resume_covers deps k t m :
  wf_task maxDepth t → covered deps (Some t, m) → covered deps (resume k t m).
Proof.
  intros Hwf Hc e He. pose proof (resume_extends k t m Hwf) as [Hsub _].
  destruct (Hc e He) as [Hv | Ht]; [left; by apply Hsub |].
  destruct t as [n d | ts bs d]; simpl in Ht; [by apply not_elem_of_nil in Ht |].
  simpl. destruct (within resume m k ts) as [ts' m'].
  destruct ts' as [| t' ts']; [by apply batches_loop_covers | by right].
Qed.

Lemma run_covers deps fuel :
  ∀ sched s m', wf_state maxDepth s.1 → covered deps s →
                run fuel sched s = Some m' →
                ∀ e, e ∈ deps → key e ∈ visited m'.
Proof.
  induction fuel as [| fuel IH]; intros sched [[t |] m] m' Hwf Hc Hrun;
    simpl in *; try congruence.
  - injection Hrun as <-. intros e He.
    destruct (Hc e He) as [? | Hn]; [done | by apply not_elem_of_nil in Hn].
  - specialize (Hwf t eq_refl).
    eapply IH; [| | exact Hrun]; [by apply resume_wf | by apply resume_covers].
  - injection Hrun as <-. intros e He.
    destruct (Hc e He) as [? | Hn]; [done | by apply not_elem_of_nil in Hn].
Qed.

Lemma traverse_all_covers sched deps m :
  0 < maxDepth → ∀ e, e ∈ deps → key e ∈ visited (traverse_all sched deps m).
Proof.
  intros Hd.
  eapply (run_covers deps);
    [apply traverseDependencies_wf | | apply traverse_all_run].
  unfold traverseDependencies. case_bool_decide; [lia |].
  rewrite <- (concat_batches deps) at 1. apply batches_loop_covers.
Qed.
End coverage.

(** ** The metadata-graph scan, path by path *)

Section analyze_facts.
Import MetadataGraph.
Variable net : string → nat → Fetcher.Fetched (option PkgData).
Variable NPM_REGISTRY : string.
Variable MAX_RETRIES : nat.
Variable loadInsecurePackages : string + gset string.
Variable sched : nat → nat.
Variable now : Z.

Local Abbreviation analyze :=
  (analyzePackageDependencies net NPM_REGISTRY MAX_RETRIES
                              loadInsecurePackages sched now).
Local Abbreviation fetchJson := (fetchJson net NPM_REGISTRY MAX_RETRIES).
Local Abbreviation traverse_all :=
  (traverse_all net NPM_REGISTRY MAX_RETRIES).
Local Abbreviation fresh := (mkResult false [] now None).

Lemma analyze_cached packageName version cache cached :
  cache !! (packageName +:+ "@" +:+ version) = Some cached →
  analyze packageName version cache = (Resolved cached, cache, []).
Proof.
  intros H. unfold analyzePackageDependencies. by rewrite H.
Qed.

Lemma analyze_load_failed packageName version cache msg :
  cache !! (packageName +:+ "@" +:+ version) = None →
  loadInsecurePackages = inl msg →
  analyze packageName version cache
  = (Resolved (set_error msg fresh),
     <[packageName +:+ "@" +:+ version := set_error msg fresh]> cache, []).
Proof.
  intros H1 H2. unfold analyzePackageDependencies. by rewrite H1, H2.
Qed.

Lemma analyze_listed packageName version cache ins :
  cache !! (packageName +:+ "@" +:+ version) = None →
  loadInsecurePackages = inr ins → packageName ∈ ins →
  analyze packageName version cache
  = (Resolved (mkResult true [packageName] now None),
     <[packageName +:+ "@" +:+ version := mkResult true [packageName] now None]> cache,
     []).
Proof.
  intros H1 H2 H3. unfold analyzePackageDependencies. rewrite H1, H2.
  by rewrite bool_decide_eq_true_2.
Qed.

Lemma analyze_fetch_failed packageName version cache ins e :
  cache !! (packageName +:+ "@" +:+ version) = None →
  loadInsecurePackages = inr ins → packageName ∉ ins →
  fetchJson packageName = inr e →
  analyze packageName version cache
  = (Resolved (set_error (Fetcher.message e) fresh),
     <[packageName +:+ "@" +:+ version := set_error (Fetcher.message e) fresh]> cache,
     [FetchRoot packageName]).
Proof.
  intros H1 H2 H3 H4. unfold analyzePackageDependencies. rewrite H1, H2.
  rewrite bool_decide_eq_false_2 by done. by rewrite H4.
Qed.

Lemma analyze_not_found packageName version cache ins pkgData :
  cache !! (packageName +:+ "@" +:+ version) = None →
  loadInsecurePackages = inr ins → packageName ∉ ins →
  fetchJson packageName = inl pkgData →
  manifest_of pkgData version = None →
  analyze packageName version cache
  = (Resolved (set_error "Package version not found" fresh),
     <[packageName +:+ "@" +:+ version := set_error "Package version not found" fresh]> cache,
     [FetchRoot packageName]).
Proof.
  intros H1 H2 H3 H4 H5. unfold analyzePackageDependencies. rewrite H1, H2.
  rewrite bool_decide_eq_false_2 by done. by rewrite H4, H5.
Qed.

Lemma analyze_traversed packageName version cache ins pkgData versionInfo :
  cache !! (packageName +:+ "@" +:+ version) = None →
  loadInsecurePackages = inr ins → packageName ∉ ins →
  fetchJson packageName = inl pkgData →
  manifest_of pkgData version = Some versionInfo →
  let m := traverse_all ins 3 sched (allDeps_of versionInfo)
             (start_memory ins now packageName version versionInfo) in
  analyze packageName version cache
  = (Resolved (result m),
     <[packageName +:+ "@" +:+ version := result m]> cache, issued m).
Proof.
  intros H1 H2 H3 H4 H5. unfold analyzePackageDependencies. rewrite H1, H2.
  rewrite bool_decide_eq_false_2 by done. by rewrite H4, H5.
Qed.

Lemma analyze_cases packageName version cache :
  let cacheKey := packageName +:+ "@" +:+ version in
  (∃ cached, cache !! cacheKey = Some cached
             ∧ analyze packageName version cache = (Resolved cached, cache, []))
  ∨ (cache !! cacheKey = None
     ∧ ∃ r events, scanned net NPM_REGISTRY MAX_RETRIES loadInsecurePackages
                           sched now packageName version r events
                   ∧ analyze packageName version cache
                     = (Resolved r, <[cacheKey := r]> cache, events)).
Proof.
  intros cacheKey.
  destruct (cache !! cacheKey) as [cached |] eqn:Hc.
  { left. exists cached. split; [done | by apply analyze_cached]. }
  right. split; [done |].
  destruct loadInsecurePackages as [msg | ins] eqn:Hl; rewrite <- Hl.
  { eexists _, _. split; [by eapply scanned_load_failed |].
    by apply analyze_load_failed. }
  destruct (decide (packageName ∈ ins)) as [Hin | Hin].
  { eexists _, _. split; [by eapply scanned_listed |].
    by eapply analyze_listed. }
  destruct (fetchJson packageName) as [pkgData | e] eqn:Hf.
  2: { eexists _, _. split; [by eapply scanned_fetch_failed |].
       by eapply analyze_fetch_failed. }
  destruct (manifest_of pkgData version) as [versionInfo |] eqn:Hm.
  - eexists _, _. split; [by eapply scanned_traversed |].
    by eapply analyze_traversed.
  - eexists _, _. split; [by eapply scanned_not_found |].
    by eapply analyze_not_found.
Qed.
End analyze_facts.

(** ** What the traversal of a scan leaves *)

Section traversed_facts.
Import MetadataGraph.
Variable net : string → nat → Fetcher.Fetched (option PkgData).
Variable NPM_REGISTRY : string.
Variable MAX_RETRIES : nat.
Variable ins : gset string.
Variable sched : nat → nat.
Variable now : Z.
Variables packageName version : string.
Variable versionInfo : VersionInfo.

Local Abbreviation cacheKey := (packageName +:+ "@" +:+ version).
Local Abbreviation m0 := (start_memory ins now packageName version versionInfo).
Local Abbreviation m :=
  (traverse_all net NPM_REGISTRY MAX_RETRIES ins 3 sched
                (allDeps_of versionInfo) m0).

Lemma fresh_consistent : consistent (mkResult false [] now None).
Proof. by unfold consistent. Qed.

Lemma start_memory_result_ok : result_ok m0.
Proof.
  unfold result_ok. simpl. split.
  - apply foldl_check_consistent, fresh_consistent.
  - apply foldl_check_NoDup. simpl. constructor.
Qed.

Lemma traversed_result_ok : result_ok m.
Proof.
  apply traverse_all_inv; [| apply start_memory_result_ok].
  intros d e m' _. apply callback_start_result_ok.
Qed.

Lemma traversed_log_ok : log_ok 3 m.
Proof.
  apply traverse_all_inv; [apply callback_start_log_ok |].
  unfold log_ok. simpl. split_and!.
  - intros n r d Hin. by apply list_elem_of_singleton in Hin.
  - intros k Hk. by apply not_elem_of_nil in Hk.
  - constructor.
Qed.

Lemma callback_start_root_ok d e m' :
  root_ok cacheKey m' → root_ok cacheKey (callback_start ins d e m').2.
Proof.
  intros [H1 H2]. destruct e as [n r]. unfold callback_start.
  case_bool_decide as Hv; simpl; [done |].
  unfold root_ok. simpl. rewrite dep_keys_snoc. split.
  - apply elem_of_union. by right.
  - intros [? | Heq%list_elem_of_singleton]%elem_of_app; [done |].
    by rewrite Heq in H1.
Qed.

Lemma traversed_root_ok : root_ok cacheKey m.
Proof.
  apply traverse_all_inv; [intros d e m' _; apply callback_start_root_ok |].
  split; simpl; [by apply elem_of_singleton | apply not_elem_of_nil].
Qed.

Lemma traversed_visited_ok : visited_ok cacheKey m.
Proof.
  apply traverse_all_inv;
    [intros d e m' _; apply callback_start_visited_ok |].
  intros k Hk. simpl in Hk. left. by apply elem_of_singleton in Hk.
Qed.

Lemma traversed_extends : extends m0 m.
Proof.
  apply traverse_all_inv; [| apply extends_refl].
  intros d e m' _. apply callback_start_extends.
Qed.

(** The key of every direct dependency, unless it is the root's own, has
    been requested by the end of the scan. *)
Lemma traversed_requests e :
  e ∈ allDeps_of versionInfo → e.1 +:+ "@" +:+ e.2 ≠ cacheKey →
  e.1 +:+ "@" +:+ e.2 ∈ dep_keys (issued m).
Proof.
  intros He Hne.
  pose proof (traverse_all_covers net NPM_REGISTRY MAX_RETRIES ins 3 sched
                (allDeps_of versionInfo) m0 ltac:(lia) e He) as Hv.
  by destruct (traversed_visited_ok _ Hv).
Qed.

(** A direct dependency on either list is in the result. *)
Lemma traversed_flags depName :
  depName ∈ keys (allDeps_of versionInfo) →
  depName ∈ UNSAFE_DEPENDENCIES ∨ depName ∈ ins →
  depName ∈ insecurePackages (result m) ∧ isInsecure (result m) = true.
Proof.
  intros Hin Hlisted.
  destruct traversed_extends as (_ & Hkeep & Hflag & _).
  destruct (foldl_check_elem ins (keys (allDeps_of versionInfo)) depName
              (mkResult false [] now None) Hin Hlisted) as [H1 H2].
  split; [by apply Hkeep | by apply Hflag].
Qed.

Lemma traversed_error : error (result m) = None.
Proof.
  destruct traversed_extends as (_ & _ & _ & -> & _). simpl.
  apply foldl_check_error.
Qed.
End traversed_facts.

Lemma scanned_consistent net REG RETRIES load sched now packageName version r events :
  scanned net REG RETRIES load sched now packageName version r events →
  consistent r ∧ NoDup (insecurePackages r).
Proof.
  destruct 1.
  - split; [by unfold consistent | apply NoDup_nil_2].
  - split; [by unfold consistent | apply NoDup_singleton].
  - split; [by unfold consistent | apply NoDup_nil_2].
  - split; [by unfold consistent | apply NoDup_nil_2].
  - apply traversed_result_ok.
Qed.

Lemma scanned_log net REG RETRIES load sched now packageName version r events :
  scanned net REG RETRIES load sched now packageName version r events →
  (∀ n range d, MetadataGraph.FetchDep n range d ∈ events → d + 1 ≤ 3)
  ∧ NoDup (dep_keys events)
  ∧ packageName +:+ "@" +:+ version ∉ dep_keys events.
Proof.
  assert (∀ l : list MetadataGraph.Event,
            dep_keys l = [] → (∀ n range d, MetadataGraph.FetchDep n range d ∉ l) →
            (∀ n range d, MetadataGraph.FetchDep n range d ∈ l → d + 1 ≤ 3)
            ∧ NoDup (dep_keys l)
            ∧ packageName +:+ "@" +:+ version ∉ dep_keys l) as Hquiet.
  { intros l -> Hl. split_and!; [| apply NoDup_nil_2 | apply not_elem_of_nil].
    intros n range d Hin. by apply Hl in Hin. }
  destruct 1;
    try (apply Hquiet; [done | intros n range d Hin];
         (by apply not_elem_of_nil in Hin)
         || by apply list_elem_of_singleton in Hin).
  destruct (traversed_log_ok net REG RETRIES ins sched now packageName version
              versionInfo) as (Hdepth & _ & Hnodup).
  split_and!; [| done | apply traversed_root_ok].
  intros n range d Hin. specialize (Hdepth n range d Hin). lia.
Qed.

(** ** The sandbox-install scan *)

Lemma set_error_consistent msg r : consistent r → consistent (set_error msg r).
Proof. done. Qed.

Section sandbox_facts.
Import SandboxInstall.
Variable loadInsecurePackages : string + gset string.
Variable mkdtemp : string + string.
Variable writeFile : option string.
Variable install : option string.
Variable node_modules : option Node.
Variable rm : option string.
Variable now : Z.

Local Abbreviation try_block :=
  (try_block loadInsecurePackages mkdtemp writeFile install node_modules).
Local Abbreviation analyze :=
  (analyzePackageDependencies loadInsecurePackages mkdtemp writeFile install
                              node_modules rm now).

Lemma sandbox_cached packageName version cache dirs cached :
  cache !! (packageName +:+ "@" +:+ version) = Some cached →
  analyze packageName version cache dirs = (Resolved cached, cache, dirs, []).
Proof.
  intros H. unfold analyzePackageDependencies. by rewrite H.
Qed.

(** What leaves the [try] block, once the [catch] block has run. *)
Lemma try_block_consistent r packageName dirs :
  consistent r → NoDup (insecurePackages r) → insecurePackages r = [] →
  let '(r', thrown, _, _, _) := try_block r packageName dirs in
  consistent (match thrown with Some msg => set_error msg r' | None => r' end).
Proof.
  intros Hr Hnd Hnil. unfold SandboxInstall.try_block.
  destruct loadInsecurePackages as [msg | ins]; [done |].
  case_bool_decide.
  { unfold consistent, insecurePackages_push. simpl. rewrite Hnil. done. }
  destruct mkdtemp as [msg | tempDir]; [done |].
  destruct writeFile as [msg |]; [done |].
  destruct install as [msg |]; [done |].
  destruct node_modules as [node |]; [| done].
  by apply foldl_check_consistent.
Qed.

(** [tempDir] is set exactly when the directory has been made; the calls
    made are then all on that directory, the first being [mkdtemp]. *)
Lemma try_block_tempDir r packageName dirs :
  let '(_, _, tempDir, dirs', events) := try_block r packageName dirs in
  match tempDir with
  | None => events = [] ∧ dirs' = dirs
  | Some p =>
      mkdtemp = inr p ∧ dirs' = {[p]} ∪ dirs
      ∧ (events = [Mkdtemp p; WriteFile p]
         ∨ events = [Mkdtemp p; WriteFile p; Install p])
  end.
Proof.
  unfold SandboxInstall.try_block.
  destruct loadInsecurePackages as [msg | ins]; [done |].
  case_bool_decide; [done |].
  destruct mkdtemp as [msg | tempDir]; [done |].
  destruct writeFile as [msg |]; [by auto |].
  destruct install as [msg |]; [by auto |].
  destruct node_modules as [node |]; by auto.
Qed.
End sandbox_facts.

(** ** [fetchWithRetry] *)

Section fetcher_facts.
Import Fetcher.
Context {J : Type}.
Variable net : nat → Fetched J.
Variables (url : string) (retries : nat) (returnJson : bool)
          (isNpmjsOfficialSource : bool).

Local Abbreviation attempt :=
  (attempt net url returnJson isNpmjsOfficialSource).
Local Abbreviation handle := (handle retries).
Local Abbreviation attempts_from :=
  (attempts_from net url retries returnJson isNpmjsOfficialSource).

(** One iteration of the loop. *)
Lemma attempts_from_step fuel i :
  i < retries →
  attempts_from (S fuel) i
  = match attempt i with
    | inl v => (Return v, [])
    | inr error =>
        match handle i error with
        | Rethrow => (Throw error, [])
        | WaitThenRetry waitTime =>
            let '(o, waits) := attempts_from fuel (i + 1) in
            (o, waitTime :: waits)
        end
    end.
Proof.
  intros Hi. simpl. by rewrite bool_decide_eq_true_2.
Qed.

(** The limiter does not change what an attempt yields. *)
Lemma attempt_fetchOperation i :
  attempt i
  = match fetchOperation net i with
    | inr error => inr error
    | inl response =>
        if negb (ok response) && negb (bool_decide (status response = 404%Z))
        then inr (mkError ("HTTP error! status: " +:+ pretty (status response)
                           +:+ " for " +:+ url) None)
        else if returnJson then
          match json response with
          | inr j => inl (Json j)
          | inl msg => inr (mkError msg None)
          end
        else inl (Raw response)
    end.
Proof.
  unfold Fetcher.attempt, npmjsLimiter. by destruct isNpmjsOfficialSource.
Qed.

(** Past the last attempt the loop has ended. *)
Lemma attempts_from_end fuel i :
  retries ≤ i → attempts_from fuel i = (ReturnUndefined, []).
Proof.
  intros Hi. destruct fuel; simpl; [done |].
  by rewrite bool_decide_eq_false_2 by lia.
Qed.

(** The fuel only has to cover the iterations that are left. *)
Lemma attempts_from_fuel fuel :
  ∀ fuel' i, retries ≤ i + fuel → retries ≤ i + fuel' →
             attempts_from fuel i = attempts_from fuel' i.
Proof.
  induction fuel as [| fuel IH]; intros fuel' i H1 H2.
  - by rewrite !attempts_from_end by lia.
  - destruct fuel' as [| fuel']; [by rewrite !attempts_from_end by lia |].
    simpl. case_bool_decide; [| done].
    destruct (attempt i) as [v | error]; [done |].
    destruct (handle i error); [| done].
    by rewrite (IH fuel' (i + 1)) by lia.
Qed.

(** When every attempt is answered by a 429, the loop runs to its end
    and the function returns [undefined]. *)
Lemma all_429_returns_undefined :
  (∀ i, i < retries → ∃ res, net i = Resolves res ∧ status res = 429%Z) →
  ∀ fuel i, i + fuel = retries → (attempts_from fuel i).1 = ReturnUndefined.
Proof.
  intros Hnet. induction fuel as [| fuel IH]; intros i Hi; [done |].
  rewrite attempts_from_step by lia.
  destruct (Hnet i ltac:(lia)) as (res & Hres & H429).
  rewrite attempt_fetchOperation. unfold fetchOperation. rewrite Hres.
  rewrite bool_decide_eq_true_2 by done.
  unfold Fetcher.handle. simpl.
  specialize (IH (i + 1) ltac:(lia)).
  by destruct (attempts_from fuel (i + 1)).
Qed.
End fetcher_facts.

(** C1 (the code departs from the claim).  [fetchWithRetry] with three
    attempts, each answered by HTTP 429: the third failure is not raised;
    the function waits a third time and returns [undefined].  The same
    happens when every attempt fails with a connection reset.  Only a
    failure of another kind is raised after the last attempt. *)
Theorem fetchWithRetry_exhausted_returns_undefined :
  let url := "https://registry.npmmirror.com/koishi" in
  let busy : Fetcher.Fetched unit :=
    Fetcher.Resolves (Fetcher.mkResponse 429 None (inl "")) in
  let reset : Fetcher.Fetched unit :=
    Fetcher.Rejects ("request to " +:+ url +:+ " failed, reason: read ECONNRESET") in
  let broken : Fetcher.Fetched unit :=
    Fetcher.Resolves (Fetcher.mkResponse 500 None (inl "")) in
  Fetcher.fetchWithRetry (λ _, busy) url 3 true false
  = (Fetcher.ReturnUndefined, [1000; 2000; 4000]%Z)
  ∧ Fetcher.fetchWithRetry (λ _, reset) url 3 true false
    = (Fetcher.ReturnUndefined, [1000; 2000; 4000]%Z)
  ∧ Fetcher.fetchWithRetry (λ _, broken) url 3 true false
    = (Fetcher.Throw
         (Fetcher.mkError
            "HTTP error! status: 500 for https://registry.npmmirror.com/koishi"
            None),
       [1000; 1000]%Z).
Proof.
  by vm_compute.
Qed.

(** C7 as the specification words it fails: a 429 that carries
    [Retry-After: 0] on the first attempt supplies a delay of 0 ms, and
    the code waits 1000 ms, its exponential backoff. *)
Lemma retry_after_zero_counterexample :
  let busy : Fetcher.Response unit := Fetcher.mkResponse 429 (Some "0") (inl "") in
  let fine : Fetcher.Response unit := Fetcher.mkResponse 200 None (inr ()) in
  let net := λ i, Fetcher.Resolves (if bool_decide (i = 0) then busy else fine) in
  spec_wait_429 0 (Fetcher.retryAfterHeader busy) = Some 0%Z
  ∧ Fetcher.fetchWithRetry net "https://registry.npmmirror.com/koishi" 3 true false
    = (Fetcher.Return (Fetcher.Json ()), [1000%Z]).
Proof.
  by vm_compute.
Qed.

(** C7, amended.  A 429 on attempt [i], with retries remaining, makes
    [fetchWithRetry] wait before the next attempt: [n * 1000] ms when
    [parseInt] reads a number [n] other than 0 from the [Retry-After]
    header, and [2^i * 1000] ms in every other case (no header, an empty
    one, one that is not a number, one that reads as 0); this for every
    delay that the timer honours, between 1 and [2^31 - 1] ms. *)
Theorem wait_after_429 {J} (net : nat → Fetcher.Fetched J) (url : string)
        (retries : nat) (returnJson isNpmjsOfficialSource : bool)
        (fuel i : nat) (res : Fetcher.Response J) :
  i + 1 < retries →
  net i = Fetcher.Resolves res → Fetcher.status res = 429%Z →
  let backoff := (2 ^ Z.of_nat i * 1000)%Z in
  let waitTime :=
    match Fetcher.retryAfterHeader res with
    | Some h =>
        match parseInt h with
        | Some n => if bool_decide (n = 0%Z) then backoff else (n * 1000)%Z
        | None => backoff
        end
    | None => backoff
    end in
  honoured waitTime →
  Fetcher.attempts_from net url retries returnJson isNpmjsOfficialSource (S fuel) i
  = (let '(o, waits) :=
       Fetcher.attempts_from net url retries returnJson isNpmjsOfficialSource
                             fuel (i + 1) in
     (o, waitTime :: waits)).
Proof.
  intros Hi Hnet H429 backoff waitTime _.
  rewrite attempts_from_step by lia.
  rewrite attempt_fetchOperation. unfold Fetcher.fetchOperation.
  rewrite Hnet, bool_decide_eq_true_2 by done.
  unfold Fetcher.handle. simpl.
  replace (num_or _ _) with waitTime; [done |].
  subst waitTime backoff.
  destruct (Fetcher.retryAfterHeader res) as [[| c h] |]; simpl; try done.
  destruct (parseInt (String c h)) as [n |]; simpl; [| done].
  repeat case_bool_decide; lia.
Qed.

(** [Retry-After: 2] makes the client wait 2000 ms, and the 200 that follows
    yields the parsed payload. *)
Lemma wait_after_429_witness :
  let busy : Fetcher.Response nat := Fetcher.mkResponse 429 (Some "2") (inl "") in
  let fine : Fetcher.Response nat := Fetcher.mkResponse 200 None (inr 7) in
  let net := λ i, Fetcher.Resolves (if bool_decide (i = 0) then busy else fine) in
  Fetcher.fetchWithRetry net "https://registry.npmmirror.com/koishi" 3 true false
  = (Fetcher.Return (Fetcher.Json 7), [2000%Z]).
Proof.
  intros busy fine net. unfold Fetcher.fetchWithRetry.
  rewrite (wait_after_429 net _ 3 true false 2 0 busy);
    [| lia | done | done | by vm_compute].
  reflexivity.
Defined.

(** C8 as the specification words it fails: with [returnJson] set, a 404
    whose body is not JSON is retried like any other failure, and the parse
    error is raised after the last attempt. *)
Lemma not_found_retried_counterexample :
  let missing : Fetcher.Fetched unit :=
    Fetcher.Resolves (Fetcher.mkResponse 404 None (inl "Unexpected token < in JSON")) in
  Fetcher.fetchWithRetry (λ _, missing) "https://registry.npmmirror.com/koishi"
                         3 true false
  = (Fetcher.Throw (Fetcher.mkError "Unexpected token < in JSON" None),
     [1000; 1000]%Z).
Proof.
  by vm_compute.
Qed.

(** C8, amended.  A 404 is not turned into an HTTP error: the attempt that
    receives it returns the response itself when [returnJson] is off, and
    its parsed body when [returnJson] is on and the body parses.  Any other
    status outside 2xx, 429 apart, is followed by a wait of 1000 ms and a
    further attempt, and is raised when it comes on the last attempt,
    provided the error message, which quotes the url, does not contain
    "ECONNRESET". *)
Theorem status_404_returned_others_retried
        {J} (net : nat → Fetcher.Fetched J) (url : string)
        (retries : nat) (returnJson isNpmjsOfficialSource : bool)
        (fuel i : nat) (res : Fetcher.Response J) :
  i < retries → net i = Fetcher.Resolves res →
  let run := Fetcher.attempts_from net url retries returnJson isNpmjsOfficialSource in
  (Fetcher.status res = 404%Z → returnJson = false →
   run (S fuel) i = (Fetcher.Return (Fetcher.Raw res), []))
  ∧ (∀ j, Fetcher.status res = 404%Z → returnJson = true →
          Fetcher.json res = inr j →
          run (S fuel) i = (Fetcher.Return (Fetcher.Json j), []))
  ∧ (Fetcher.ok res = false → Fetcher.status res ≠ 404%Z →
     Fetcher.status res ≠ 429%Z →
     let error :=
       Fetcher.mkError ("HTTP error! status: " +:+ pretty (Fetcher.status res)
                        +:+ " for " +:+ url) None in
     includes (Fetcher.message error) "ECONNRESET" = false →
     run (S fuel) i
     = if bool_decide (i = retries - 1) then (Fetcher.Throw error, [])
       else let '(o, waits) := run fuel (i + 1) in (o, 1000%Z :: waits)).
Proof.
  intros Hi Hnet run. subst run.
  rewrite attempts_from_step by done.
  rewrite attempt_fetchOperation. unfold Fetcher.fetchOperation. rewrite Hnet.
  split_and!.
  - intros H404 ->. rewrite bool_decide_eq_false_2 by (rewrite H404; lia).
    rewrite (bool_decide_eq_true_2 (Fetcher.status res = 404%Z)) by done.
    by rewrite andb_false_r.
  - intros j H404 -> Hj. rewrite bool_decide_eq_false_2 by (rewrite H404; lia).
    rewrite (bool_decide_eq_true_2 (Fetcher.status res = 404%Z)) by done.
    by rewrite andb_false_r, Hj.
  - intros Hok H404 H429 Hmsg.
    rewrite bool_decide_eq_false_2 by done.
    rewrite Hok, (bool_decide_eq_false_2 (Fetcher.status res = 404%Z)) by done.
    simpl. unfold Fetcher.handle. simpl.
    simpl in Hmsg. rewrite Hmsg. by case_bool_decide.
Qed.

(** A 404 fetched with [returnJson] off is returned at once; three 500s are
    retried after 1000 ms each and the third is raised. *)
Lemma status_404_returned_others_retried_witness :
  let url := "https://registry.npmjs.org/koishi" in
  let missing : Fetcher.Response unit := Fetcher.mkResponse 404 None (inl "") in
  let absent : Fetcher.Response unit :=
    Fetcher.mkResponse 404 None (inr ()) in
  let broken : Fetcher.Response unit := Fetcher.mkResponse 500 None (inl "") in
  Fetcher.fetchWithRetry (λ _, Fetcher.Resolves missing) url 5 false true
  = (Fetcher.Return (Fetcher.Raw missing), [])
  ∧ Fetcher.fetchWithRetry (λ _, Fetcher.Resolves absent) url 3 true false
    = (Fetcher.Return (Fetcher.Json ()), [])
  ∧ Fetcher.fetchWithRetry (λ _, Fetcher.Resolves broken) url 3 true false
    = (Fetcher.Throw
         (Fetcher.mkError "HTTP error! status: 500 for https://registry.npmjs.org/koishi"
                          None),
       [1000; 1000]%Z).
Proof.
  intros url missing absent broken. unfold Fetcher.fetchWithRetry. split_and!.
  - apply (status_404_returned_others_retried
             (λ _, Fetcher.Resolves missing) url 5 false true 4 0 missing);
      [lia | done | done | done].
  - apply (status_404_returned_others_retried
             (λ _, Fetcher.Resolves absent) url 3 true false 2 0 absent);
      [lia | done | done | done | done].
  - etrans.
    + apply (status_404_returned_others_retried
               (λ _, Fetcher.Resolves broken) url 3 true false 2 0 broken);
        [lia | done | done | done | done | done].
    + reflexivity.
Defined.

(** ** The metadata-graph scanner *)

(** C2 as the specification words it fails: the root's own name is not
    looked up in the built-in set.  Scanning [sharp] itself, with an empty
    loaded list, gives a result that is not insecure. *)
Lemma root_not_checked_against_builtin_counterexample :
  bool_decide ("sharp" ∈ UNSAFE_DEPENDENCIES) = true
  ∧ (MetadataGraph.analyzePackageDependencies
       (Registry.serve Registry.native) Registry.url 3 (inr ∅) (λ _, 0) 0%Z
       "sharp" "0.33.0" ∅).1.1
    = Resolved (mkResult false [] 0%Z None).
Proof.
  by vm_compute.
Qed.

(** C2, amended.  In a scan that misses the cache and has the list loaded,
    the root's own name is looked up in the loaded list only, and a match
    ends the scan with that one name recorded.  When the root is not listed
    and its manifest is found, every direct dependency name is looked up in
    both the built-in set and the loaded list; every name found in either is
    in [insecurePackages], which has no duplicates, and [isInsecure] is
    true. *)
Theorem direct_dependencies_flagged
        (net : string → nat → Fetcher.Fetched (option MetadataGraph.PkgData))
        (NPM_REGISTRY : string) (MAX_RETRIES : nat) (ins : gset string)
        (sched : nat → nat) (now : Z) (packageName version : string)
        (cache : gmap string AnalysisResult) :
  cache !! (packageName +:+ "@" +:+ version) = None →
  let settled :=
    (MetadataGraph.analyzePackageDependencies
       net NPM_REGISTRY MAX_RETRIES (inr ins) sched now
       packageName version cache).1.1 in
  (packageName ∈ ins →
   settled = Resolved (mkResult true [packageName] now None))
  ∧ (∀ pkgData versionInfo,
       packageName ∉ ins →
       MetadataGraph.fetchJson net NPM_REGISTRY MAX_RETRIES packageName
       = inl pkgData →
       MetadataGraph.manifest_of pkgData version = Some versionInfo →
       ∃ r, settled = Resolved r
            ∧ NoDup (insecurePackages r)
            ∧ ∀ depName,
                depName ∈ keys (MetadataGraph.allDeps_of versionInfo) →
                depName ∈ UNSAFE_DEPENDENCIES ∨ depName ∈ ins →
                depName ∈ insecurePackages r ∧ isInsecure r = true).
Proof.
  intros Hmiss settled. subst settled. split.
  - intros Hin. by erewrite analyze_listed.
  - intros pkgData versionInfo Hin Hfetch Hmanifest.
    erewrite analyze_traversed by done. simpl.
    eexists. split; [done |]. split.
    + apply traversed_result_ok.
    + apply traversed_flags.
Qed.

(** A plugin that depends on [sharp] and on [canvas]: both are recorded. *)
Lemma direct_dependencies_flagged_witness :
  let packages :=
    [("koishi-plugin-img",
      Registry.Document (Registry.doc "1.0.0" [("sharp", "^0.33.0");
                                               ("canvas", "^2.0.0")]))] in
  ∃ r, (MetadataGraph.analyzePackageDependencies
          (Registry.serve packages) Registry.url 3 (inr {["canvas"]}) (λ _, 0)
          0%Z "koishi-plugin-img" "1.0.0" ∅).1.1 = Resolved r
       ∧ "sharp" ∈ insecurePackages r ∧ "canvas" ∈ insecurePackages r
       ∧ NoDup (insecurePackages r) ∧ isInsecure r = true.
Proof.
  intros packages.
  destruct (direct_dependencies_flagged
              (Registry.serve packages) Registry.url 3 {["canvas"]} (λ _, 0)
              0%Z "koishi-plugin-img" "1.0.0" ∅ (lookup_empty _)) as [_ H].
  destruct (H (Some (Registry.doc "1.0.0" [("sharp", "^0.33.0");
                                            ("canvas", "^2.0.0")]))
              (MetadataGraph.mkVersionInfo
                 (Some [("sharp", "^0.33.0"); ("canvas", "^2.0.0")]) None None))
    as (r & Hr & Hnd & Hflag).
  - by vm_compute.
  - reflexivity.
  - reflexivity.
  - exists r. split; [exact Hr |].
    destruct (Hflag "sharp") as [H1 H2].
    { vm_compute. apply list_elem_of_here. }
    { left. by vm_compute. }
    destruct (Hflag "canvas") as [H3 _].
    { vm_compute. apply list_elem_of_further, list_elem_of_here. }
    { right. by apply elem_of_singleton. }
    done.
Defined.

(** C3.  On every registry, cyclic or not, and in whatever order the
    registry answers, the traversal of a scan runs to its end: the fuel
    computed from the dependency graph suffices.  The scan returns a
    result; every dependency fetch it issued was for a node at most 3
    levels below the root; and no [name@range] key was fetched twice, nor
    was the root's own key. *)
Theorem scan_terminates_within_depth_bound
        (net : string → nat → Fetcher.Fetched (option MetadataGraph.PkgData))
        (NPM_REGISTRY : string) (MAX_RETRIES : nat)
        (loadInsecurePackages : string + gset string)
        (sched : nat → nat) (now : Z) (packageName version : string)
        (cache : gmap string AnalysisResult) :
  (∀ ins deps m,
     let s := MetadataGraph.traverseDependencies ins 3 deps 0 m in
     is_Some (MetadataGraph.run net NPM_REGISTRY MAX_RETRIES ins 3
                (MetadataGraph.weight_of net NPM_REGISTRY MAX_RETRIES 3 s)
                sched s))
  ∧ let out := MetadataGraph.analyzePackageDependencies
                 net NPM_REGISTRY MAX_RETRIES loadInsecurePackages sched now
                 packageName version cache in
    (∃ r, out.1.1 = Resolved r)
    ∧ (∀ depName range d,
         MetadataGraph.FetchDep depName range d ∈ out.2 → d + 1 ≤ 3)
    ∧ NoDup (dep_keys out.2)
    ∧ packageName +:+ "@" +:+ version ∉ dep_keys out.2.
Proof.
  split.
  - intros ins deps m s. apply run_terminates; [| done].
    apply traverseDependencies_wf.
  - intros out. subst out.
    destruct (analyze_cases net NPM_REGISTRY MAX_RETRIES loadInsecurePackages
                sched now packageName version cache)
      as [(cached & _ & ->) | (_ & r & events & Hscan & ->)]; simpl.
    + split_and!; [by eexists | | apply NoDup_nil_2 | apply not_elem_of_nil].
      intros ??? Hin. by apply not_elem_of_nil in Hin.
    + split; [by eexists |]. by eapply scanned_log.
Qed.

(** On the chain [p0 -> p1 -> ... -> p10 -> sharp], the scan of [p0]
    fetches [p1], [p2] and [p3] and nothing below; [sharp], eleven levels
    down, is not seen. *)
Example chain_of_ten_stops_at_three :
  MetadataGraph.analyzePackageDependencies
    (Registry.serve Registry.chain) Registry.url 3 (inr ∅) (λ _, 0) 0%Z
    "p0" "1.0.0" ∅
  = (Resolved (mkResult false [] 0%Z None),
     {[ "p0@1.0.0" := mkResult false [] 0%Z None ]},
     [MetadataGraph.FetchRoot "p0";
      MetadataGraph.FetchDep "p1" "^1.0.0" 0;
      MetadataGraph.FetchDep "p2" "^1.0.0" 1;
      MetadataGraph.FetchDep "p3" "^1.0.0" 2]).
Proof.
  by vm_compute.
Qed.

(** On [A -> B -> A] the scan of [A] ends after three dependency fetches,
    with [canvas], a dependency of [B], recorded. *)
Example cycle_terminates :
  MetadataGraph.analyzePackageDependencies
    (Registry.serve Registry.cycle) Registry.url 3 (inr ∅) (λ _, 0) 0%Z
    "A" "1.0.0" ∅
  = (Resolved (mkResult true ["canvas"] 0%Z None),
     {[ "A@1.0.0" := mkResult true ["canvas"] 0%Z None ]},
     [MetadataGraph.FetchRoot "A";
      MetadataGraph.FetchDep "B" "^1.0.0" 0;
      MetadataGraph.FetchDep "A" "^1.0.0" 1;
      MetadataGraph.FetchDep "canvas" "*" 1]).
Proof.
  by vm_compute.
Qed.

(** The order in which the registry answers matters.  When [A] is answered
    first, [X] is fetched two levels down and [sharp] below it is seen.
    When [B] and then [C] are answered before [A], [X] is fetched three
    levels down, where the traversal stops, and [A] finds [X] visited:
    [sharp] is missed. *)
Example verdict_depends_on_schedule :
  let scan := λ sched,
    (MetadataGraph.analyzePackageDependencies
       (Registry.serve Registry.diamond) Registry.url 3 (inr ∅) sched 0%Z
       "root" "1.0.0" ∅).1.1 in
  scan (λ _, 0) = Resolved (mkResult true ["sharp"] 0%Z None)
  ∧ scan (λ n, if bool_decide (n < 2) then 1 else 0)
    = Resolved (mkResult false [] 0%Z None).
Proof.
  by vm_compute.
Qed.

(** C9 as the specification words it fails: the message differs. *)
Lemma version_not_found_message_counterexample :
  ∃ r, (MetadataGraph.analyzePackageDependencies
          (Registry.serve Registry.native) Registry.url 3 (inr ∅) (λ _, 0) 0%Z
          "sharp" "0.1.0" ∅).1.1 = Resolved r
       ∧ error r = Some "Package version not found"
       ∧ error r ≠ Some "version not found".
Proof.
  eexists. split; [by vm_compute |]. by split.
Qed.

(** C9, amended.  When a scan fetches the registry document of the requested
    package and the document has no manifest for the requested version
    ([pkgData.versions[version]] is [undefined]: no such key, and [version]
    is not the name of a member inherited from [Object.prototype]), the
    result has [error = "Package version not found"], [isInsecure = false]
    and no recorded package. *)
Theorem version_not_found_result
        (net : string → nat → Fetcher.Fetched (option MetadataGraph.PkgData))
        (NPM_REGISTRY : string) (MAX_RETRIES : nat) (ins : gset string)
        (sched : nat → nat) (now : Z) (packageName version : string)
        (cache : gmap string AnalysisResult)
        (pkgData : option MetadataGraph.PkgData) :
  cache !! (packageName +:+ "@" +:+ version) = None →
  packageName ∉ ins →
  MetadataGraph.fetchJson net NPM_REGISTRY MAX_RETRIES packageName = inl pkgData →
  MetadataGraph.manifest_of pkgData version = None →
  (MetadataGraph.analyzePackageDependencies
     net NPM_REGISTRY MAX_RETRIES (inr ins) sched now packageName version cache).1.1
  = Resolved (mkResult false [] now (Some "Package version not found")).
Proof.
  intros Hmiss Hin Hfetch Hmanifest. by erewrite analyze_not_found.
Qed.

Lemma version_not_found_result_witness :
  (MetadataGraph.analyzePackageDependencies
     (Registry.serve Registry.native) Registry.url 3 (inr ∅) (λ _, 0) 7%Z
     "sharp" "0.1.0" ∅).1.1
  = Resolved (mkResult false [] 7%Z (Some "Package version not found")).
Proof.
  apply (version_not_found_result
           (Registry.serve Registry.native) Registry.url 3 ∅ (λ _, 0) 7%Z
           "sharp" "0.1.0" ∅ (Some (Registry.doc "0.33.0" []))).
  - apply lookup_empty.
  - apply not_elem_of_empty.
  - by vm_compute.
  - reflexivity.
Defined.

(** What [manifest_of] finds and what it does not. *)
Lemma manifest_of_absent (pkgData : option MetadataGraph.PkgData)
      (version : string) :
  MetadataGraph.manifest_of pkgData version = None ↔
  ∀ d vs, pkgData = Some d → MetadataGraph.versions d = Some vs →
          get version vs = None ∧ version ∉ Object_prototype.
Proof.
  unfold MetadataGraph.manifest_of, index.
  destruct pkgData as [d |]; [| by split].
  destruct (MetadataGraph.versions d) as [vs |] eqn:Hvs.
  - split.
    + intros H d' vs' [= <-] Hvs'. rewrite Hvs in Hvs'.
      injection Hvs' as <-.
      destruct (get version vs); [done |].
      by case_bool_decide.
    + intros H. destruct (H d vs eq_refl Hvs) as [-> Hproto].
      by rewrite bool_decide_eq_false_2.
  - split; [| done]. intros _ d' vs' [= <-] Hvs'. congruence.
Qed.

(** A version string that names a member of [Object.prototype] finds that
    member: the guard lets it through, there is nothing to traverse, and
    the result carries no error. *)
Example inherited_member_is_a_manifest :
  (MetadataGraph.analyzePackageDependencies
     (Registry.serve Registry.native) Registry.url 3 (inr ∅) (λ _, 0) 7%Z
     "sharp" "constructor" ∅).1.1
  = Resolved (mkResult false [] 7%Z None).
Proof.
  by vm_compute.
Qed.

(** ** The sandbox-install scanner *)

Section sandbox_scan.
Import SandboxInstall.
Variable loadInsecurePackages : string + gset string.
Variable mkdtemp : string + string.
Variable writeFile : option string.
Variable install : option string.
Variable node_modules : option Node.
Variable rm : option string.
Variable now : Z.

Local Abbreviation try_block :=
  (try_block loadInsecurePackages mkdtemp writeFile install node_modules).
Local Abbreviation analyze :=
  (analyzePackageDependencies loadInsecurePackages mkdtemp writeFile install
                              node_modules rm now).

(** A scan that misses the cache: the [try] block, then the [catch]
    block, then the [finally] block. *)
Lemma sandbox_fresh packageName version cache dirs :
  cache !! (packageName +:+ "@" +:+ version) = None →
  ∃ r thrown tempDir dirs1 events,
    try_block (mkResult false [] now None) packageName dirs
    = (r, thrown, tempDir, dirs1, events)
    ∧ let r' := match thrown with Some msg => set_error msg r | None => r end in
      analyze packageName version cache dirs
      = (Resolved r', <[packageName +:+ "@" +:+ version := r']> cache,
         (finally_block rm tempDir dirs1).1,
         events ++ (finally_block rm tempDir dirs1).2).
Proof.
  intros Hmiss. unfold analyzePackageDependencies. rewrite Hmiss.
  destruct (try_block _ packageName dirs) as [[[[r thrown] tempDir] dirs1] events].
  exists r, thrown, tempDir, dirs1, events. split; [done |].
  by destruct (finally_block rm tempDir dirs1).
Qed.

Lemma sandbox_result_consistent packageName version cache dirs :
  cache !! (packageName +:+ "@" +:+ version) = None →
  ∃ r, analyze packageName version cache dirs
       = (Resolved r, <[packageName +:+ "@" +:+ version := r]> cache,
          (analyze packageName version cache dirs).1.2,
          (analyze packageName version cache dirs).2)
       ∧ consistent r.
Proof.
  intros Hmiss.
  destruct (sandbox_fresh packageName version cache dirs Hmiss)
    as (r & thrown & tempDir & dirs1 & events & Htry & Hout).
  simpl in Hout. rewrite Hout. simpl. eexists. split; [done |].
  pose proof (try_block_consistent loadInsecurePackages mkdtemp writeFile
                install node_modules (mkResult false [] now None)
                packageName dirs) as Hc.
  rewrite Htry in Hc. apply Hc; [by unfold consistent | constructor | done].
Qed.

(** Once the directory has been made, the last thing a scan does is to
    remove it; when the removal succeeds the directory is gone. *)
Lemma sandbox_removes packageName version cache dirs tempDir :
  let out := analyze packageName version cache dirs in
  Mkdtemp tempDir ∈ out.2 →
  last out.2 = Some (Rm tempDir) ∧ (rm = None → tempDir ∉ out.1.2).
Proof.
  intros out. subst out.
  destruct (cache !! (packageName +:+ "@" +:+ version)) as [cached |] eqn:Hc.
  { rewrite (sandbox_cached _ _ _ _ _ _ _ _ _ _ _ cached Hc). simpl.
    intros Hin. by apply not_elem_of_nil in Hin. }
  destruct (sandbox_fresh packageName version cache dirs Hc)
    as (r & thrown & dir & dirs1 & events & Htry & Hout).
  simpl in Hout. rewrite Hout. simpl.
  pose proof (try_block_tempDir loadInsecurePackages mkdtemp writeFile install
                node_modules (mkResult false [] now None) packageName dirs)
    as Ht.
  rewrite Htry in Ht. destruct dir as [p |].
  - destruct Ht as (_ & -> & Hev). unfold finally_block.
    assert (Mkdtemp tempDir ∈ events ++ [Rm p] → tempDir = p) as Hsame.
    { intros Hin. destruct Hev as [-> | ->]; simpl in Hin;
        repeat (apply elem_of_cons in Hin as [Heq | Hin];
                [by (discriminate || injection Heq) |]);
        by apply not_elem_of_nil in Hin. }
    destruct rm as [msg |]; simpl; intros Hin; specialize (Hsame Hin);
      subst p; (split; [by destruct Hev as [-> | ->] |]); [done |].
    intros _. apply not_elem_of_difference. right. by apply elem_of_singleton.
  - destruct Ht as [-> ->]. simpl. intros Hin. by apply not_elem_of_nil in Hin.
Qed.

(** The result and the cache do not depend on how the removal goes. *)
Lemma sandbox_rm_irrelevant rm' packageName version cache dirs :
  (analyzePackageDependencies loadInsecurePackages mkdtemp writeFile install
                              node_modules rm' now packageName version cache
                              dirs).1.1
  = (analyze packageName version cache dirs).1.1.
Proof.
  unfold analyzePackageDependencies.
  destruct (cache !! (packageName +:+ "@" +:+ version)); [done |].
  destruct (try_block _ packageName dirs) as [[[[r thrown] tempDir] dirs1] events].
  unfold finally_block. by destruct tempDir, rm, rm'.
Qed.
End sandbox_scan.

(** ** The cache, cleanup, errors and the result invariant *)

(** C4.  A second scan of the same package and version, with the cache left
    alone in between, returns the result the first scan returned, leaves
    the cache as it is, and touches neither the network nor the file system
    nor [yarn]; this holds for both scanners and whatever the registry, the
    deny-list or the clock have become.  An entry of the cache is returned
    as it is, and [clearAnalysisCache] leaves no entry. *)
Theorem cached_result_returned_verbatim :
  (∀ net NPM_REGISTRY MAX_RETRIES load sched now
     net' NPM_REGISTRY' MAX_RETRIES' load' sched' now'
     packageName version cache,
      let first := MetadataGraph.analyzePackageDependencies
                     net NPM_REGISTRY MAX_RETRIES load sched now
                     packageName version cache in
      let second := MetadataGraph.analyzePackageDependencies
                      net' NPM_REGISTRY' MAX_RETRIES' load' sched' now'
                      packageName version first.1.2 in
      second.1.1 = first.1.1 ∧ second.1.2 = first.1.2 ∧ second.2 = [])
  ∧ (∀ load mkdtemp writeFile install node_modules rm now
       load' mkdtemp' writeFile' install' node_modules' rm' now'
       packageName version cache dirs,
        let first := SandboxInstall.analyzePackageDependencies
                       load mkdtemp writeFile install node_modules rm now
                       packageName version cache dirs in
        let second := SandboxInstall.analyzePackageDependencies
                        load' mkdtemp' writeFile' install' node_modules' rm' now'
                        packageName version first.1.1.2 first.1.2 in
        second.1.1.1 = first.1.1.1 ∧ second.1.1.2 = first.1.1.2
        ∧ second.1.2 = first.1.2 ∧ second.2 = [])
  ∧ (∀ net NPM_REGISTRY MAX_RETRIES load sched now packageName version cache r,
        MetadataGraph.analyzePackageDependencies
          net NPM_REGISTRY MAX_RETRIES load sched now packageName version
          (<[packageName +:+ "@" +:+ version := r]> cache)
        = (Resolved r, <[packageName +:+ "@" +:+ version := r]> cache, []))
  ∧ (∀ load mkdtemp writeFile install node_modules rm now
       packageName version cache dirs r,
        SandboxInstall.analyzePackageDependencies
          load mkdtemp writeFile install node_modules rm now packageName version
          (<[packageName +:+ "@" +:+ version := r]> cache) dirs
        = (Resolved r, <[packageName +:+ "@" +:+ version := r]> cache, dirs, []))
  ∧ (∀ cache key,
        MetadataGraph.clearAnalysisCache cache !! key = None
        ∧ SandboxInstall.clearAnalysisCache cache !! key = None).
Proof.
  split_and!.
  - intros. subst first second.
    destruct (analyze_cases net NPM_REGISTRY MAX_RETRIES load sched now
                packageName version cache)
      as [(cached & Hc & ->) | (_ & r & events & _ & ->)]; simpl.
    + by erewrite analyze_cached.
    + by erewrite analyze_cached by apply lookup_insert_eq.
  - intros. subst first second.
    destruct (cache !! (packageName +:+ "@" +:+ version)) as [cached |] eqn:Hc.
    + rewrite (sandbox_cached load mkdtemp writeFile install node_modules rm now
                 packageName version cache dirs cached Hc). simpl.
      by erewrite sandbox_cached.
    + destruct (sandbox_fresh load mkdtemp writeFile install node_modules rm now
                  packageName version cache dirs Hc)
        as (r & thrown & tempDir & dirs1 & events & _ & Hout).
      simpl in Hout. rewrite Hout. simpl.
      by erewrite sandbox_cached by apply lookup_insert_eq.
  - intros. apply analyze_cached, lookup_insert_eq.
  - intros. apply sandbox_cached, lookup_insert_eq.
  - intros. split; apply lookup_empty.
Qed.

(** C5.  Whatever happens in a sandbox scan after the temporary directory
    has been made (the manifest cannot be written, [yarn] fails, nothing is
    installed, the listing fails half-way, or all goes well), the last thing
    the scan does is to remove that directory, and when the removal succeeds
    the directory no longer exists.  The scan settles with a result either
    way: result and cache are what they would be had the removal gone
    differently. *)
Theorem sandbox_directory_removed
        (loadInsecurePackages : string + gset string) (mkdtemp : string + string)
        (writeFile install : option string)
        (node_modules : option SandboxInstall.Node) (rm : option string)
        (now : Z) (packageName version : string)
        (cache : gmap string AnalysisResult) (dirs : gset string)
        (tempDir : string) :
  let scan := λ rm, SandboxInstall.analyzePackageDependencies
                      loadInsecurePackages mkdtemp writeFile install
                      node_modules rm now packageName version cache dirs in
  SandboxInstall.Mkdtemp tempDir ∈ (scan rm).2 →
  last (scan rm).2 = Some (SandboxInstall.Rm tempDir)
  ∧ (rm = None → tempDir ∉ (scan rm).1.2)
  ∧ (∃ r, (scan rm).1.1.1 = Resolved r)
  ∧ (∀ rm', (scan rm').1.1 = (scan rm).1.1).
Proof.
  intros scan Hin. subst scan. simpl in *.
  destruct (sandbox_removes loadInsecurePackages mkdtemp writeFile install
              node_modules rm now packageName version cache dirs tempDir Hin)
    as [Hlast Hgone].
  split_and!; [done | done | | intros; apply sandbox_rm_irrelevant].
  destruct (cache !! (packageName +:+ "@" +:+ version)) as [cached |] eqn:Hc.
  - erewrite sandbox_cached by done. by eexists.
  - destruct (sandbox_fresh loadInsecurePackages mkdtemp writeFile install
                node_modules rm now packageName version cache dirs Hc)
      as (r & thrown & dir & dirs1 & events & _ & Hout).
    simpl in Hout. rewrite Hout. by eexists.
Qed.

(** [yarn] fails and then the removal fails too: the directory is still
    removed last, and the scan settles with the installation error.  When
    the removal succeeds, the directory is gone. *)
Lemma sandbox_directory_removed_witness :
  let scan := λ rm, SandboxInstall.analyzePackageDependencies
                      (inr ∅) (inr "/tmp/koishi-security-x7Gq2L") None
                      (Some "Command failed: yarn install") None rm 0%Z
                      "koishi-plugin-x" "2.1.0" ∅ ∅ in
  (last (scan (Some "EBUSY: resource busy or locked")).2
   = Some (SandboxInstall.Rm "/tmp/koishi-security-x7Gq2L")
   ∧ (scan (Some "EBUSY: resource busy or locked")).1.1.1
     = Resolved (mkResult false [] 0%Z
                   (Some "Installation failed: Command failed: yarn install")))
  ∧ "/tmp/koishi-security-x7Gq2L" ∉ (scan None).1.2.
Proof.
  intros scan. split.
  - destruct (sandbox_directory_removed
                (inr ∅) (inr "/tmp/koishi-security-x7Gq2L") None
                (Some "Command failed: yarn install") None
                (Some "EBUSY: resource busy or locked") 0%Z
                "koishi-plugin-x" "2.1.0" ∅ ∅ "/tmp/koishi-security-x7Gq2L")
      as (Hlast & _ & _ & _).
    + vm_compute. apply list_elem_of_here.
    + split; [exact Hlast | by vm_compute].
  - destruct (sandbox_directory_removed
                (inr ∅) (inr "/tmp/koishi-security-x7Gq2L") None
                (Some "Command failed: yarn install") None
                None 0%Z
                "koishi-plugin-x" "2.1.0" ∅ ∅ "/tmp/koishi-security-x7Gq2L")
      as (_ & Hgone & _ & _).
    + vm_compute. apply list_elem_of_here.
    + by apply Hgone.
Defined.



(** C10.  When every result in the cache has [isInsecure] set exactly when
    [insecurePackages] is not empty, so has the result a scan returns (be it
    fresh, from the cache, flagged with an error, or that of a failed
    install), and so has every result in the cache the scan leaves; this
    holds for both scanners. *)
Theorem results_consistent (cache : gmap string AnalysisResult) :
  (∀ key r, cache !! key = Some r → consistent r) →
  (∀ net NPM_REGISTRY MAX_RETRIES load sched now packageName version,
      let out := MetadataGraph.analyzePackageDependencies
                   net NPM_REGISTRY MAX_RETRIES load sched now
                   packageName version cache in
      (∃ r, out.1.1 = Resolved r ∧ consistent r)
      ∧ (∀ key r, out.1.2 !! key = Some r → consistent r))
  ∧ (∀ load mkdtemp writeFile install node_modules rm now
       packageName version dirs,
        let out := SandboxInstall.analyzePackageDependencies
                     load mkdtemp writeFile install node_modules rm now
                     packageName version cache dirs in
        (∃ r, out.1.1.1 = Resolved r ∧ consistent r)
        ∧ (∀ key r, out.1.1.2 !! key = Some r → consistent r)).
Proof.
  intros Hcache.
  assert (∀ k (r : AnalysisResult),
            consistent r →
            ∀ key r', <[k := r]> cache !! key = Some r' → consistent r')
    as Hinsert.
  { intros k r Hr key r'. rewrite lookup_insert. case_decide.
    - by intros [= <-].
    - apply Hcache. }
  split.
  - intros. subst out.
    destruct (analyze_cases net NPM_REGISTRY MAX_RETRIES load sched now
                packageName version cache)
      as [(cached & Hc & ->) | (_ & r & events & Hscan & ->)]; simpl.
    + split; [| done]. exists cached. split; [done | by eapply Hcache].
    + apply scanned_consistent in Hscan as [Hr _].
      split; [by exists r | by apply Hinsert].
  - intros. subst out.
    destruct (cache !! (packageName +:+ "@" +:+ version)) as [cached |] eqn:Hc.
    + erewrite sandbox_cached by done. simpl.
      split; [| done]. exists cached. split; [done | by eapply Hcache].
    + destruct (sandbox_result_consistent load mkdtemp writeFile install
                  node_modules rm now packageName version cache dirs Hc)
        as (r & -> & Hr). simpl.
      split; [by exists r | by apply Hinsert].
Qed.

(** From the empty cache: the scan of a plugin that depends on [sharp],
    and the scan of an installation in which [canvas] turns up. *)
Lemma results_consistent_witness :
  let packages :=
    [("koishi-plugin-img",
      Registry.Document (Registry.doc "1.0.0" [("sharp", "^0.33.0")]))] in
  let installed :=
    SandboxInstall.Dir true
      [(".bin", SandboxInstall.Dir true []);
       ("canvas", SandboxInstall.Dir true [("package.json", SandboxInstall.File)]);
       ("koishi-plugin-img", SandboxInstall.Dir true [])] in
  (∃ r, (MetadataGraph.analyzePackageDependencies
           (Registry.serve packages) Registry.url 3 (inr ∅) (λ _, 0) 0%Z
           "koishi-plugin-img" "1.0.0" ∅).1.1 = Resolved r
        ∧ consistent r)
  ∧ (∃ r, (SandboxInstall.analyzePackageDependencies
             (inr ∅) (inr "/tmp/koishi-security-x7Gq2L") None None
             (Some installed) None 0%Z "koishi-plugin-img" "1.0.0" ∅ ∅).1.1.1
          = Resolved r
          ∧ consistent r).
Proof.
  intros packages installed.
  assert (∀ key r, (∅ : gmap string AnalysisResult) !! key = Some r →
                   consistent r) as Hempty.
  { intros key r Hr. by rewrite lookup_empty in Hr. }
  destruct (results_consistent ∅ Hempty) as [Hgraph Hsandbox].
  split.
  - apply (Hgraph (Registry.serve packages) Registry.url 3 (inr ∅) (λ _, 0) 0%Z
                  "koishi-plugin-img" "1.0.0").
  - apply (Hsandbox (inr ∅) (inr "/tmp/koishi-security-x7Gq2L") None None
                    (Some installed) None 0%Z "koishi-plugin-img" "1.0.0" ∅).
Defined.

(** * Further properties of the code *)

(** ** [fetchWithRetry]: attempts, outcomes and waits *)

Section fetcher_runs.
Import Fetcher.
Context {J : Type}.
Variable net : nat → Fetched J.
Variables (url : string) (retries : nat) (returnJson : bool)
          (isNpmjsOfficialSource : bool).

Local Abbreviation attempt :=
  (attempt net url returnJson isNpmjsOfficialSource).
Local Abbreviation handle := (handle retries).
Local Abbreviation attempts_from :=
  (attempts_from net url retries returnJson isNpmjsOfficialSource).

(** Before the last attempt every failure is followed by a wait. *)
Lemma handle_before_last i error :
  i + 1 < retries → ∃ waitTime, handle i error = WaitThenRetry waitTime.
Proof.
  intros Hi. unfold Fetcher.handle.
  case_bool_decide; [by eexists |].
  destruct (includes _ _); [by eexists |].
  rewrite bool_decide_eq_false_2 by lia. by eexists.
Qed.

(** Only an error that is neither a 429 nor a connection reset is rethrown,
    and only on the last attempt. *)
Lemma handle_rethrow i error :
  handle i error = Rethrow →
  i = retries - 1
  ∧ cause_status <$> cause error ≠ Some 429%Z
  ∧ includes (message error) "ECONNRESET" = false.
Proof.
  unfold Fetcher.handle.
  case_bool_decide; [done |].
  destruct (includes _ _); [done |].
  by case_bool_decide.
Qed.

Lemma first_success_from d :
  ∀ k fuel i v,
    k + d = i → i < retries → retries ≤ k + fuel →
    attempt i = inl v →
    (∀ j, k ≤ j < i → ∃ error, attempt j = inr error) →
    (attempts_from fuel k).1 = Return v
    ∧ length (attempts_from fuel k).2 = d.
Proof.
  induction d as [| d IH]; intros k fuel i v Hk Hi Hfuel Hv Hfail.
  - assert (k = i) as -> by lia.
    destruct fuel as [| fuel]; [lia |].
    rewrite attempts_from_step by done. by rewrite Hv.
  - destruct fuel as [| fuel]; [lia |].
    rewrite attempts_from_step by lia.
    destruct (Hfail k ltac:(lia)) as [error ->].
    destruct (handle_before_last k error ltac:(lia)) as [w ->].
    destruct (IH (k + 1) fuel i v ltac:(lia) Hi ltac:(lia) Hv) as [H1 H2].
    { intros j Hj. apply Hfail. lia. }
    destruct (attempts_from fuel (k + 1)) as [o waits]. simpl in *.
    by rewrite H2.
Qed.

Lemma outcome_attempts_from fuel :
  ∀ k, k + fuel = retries →
       match (attempts_from fuel k).1 with
       | Return _ => k + length (attempts_from fuel k).2 < retries
       | Throw error =>
           k + length (attempts_from fuel k).2 + 1 = retries
           ∧ cause_status <$> cause error ≠ Some 429%Z
           ∧ includes (message error) "ECONNRESET" = false
       | ReturnUndefined => k + length (attempts_from fuel k).2 = retries
       end.
Proof.
  induction fuel as [| fuel IH]; intros k Hk; simpl; [lia |].
  rewrite bool_decide_eq_true_2 by lia.
  destruct (attempt k) as [v | error]; simpl; [lia |].
  destruct (handle k error) as [w |] eqn:Hh; simpl.
  - specialize (IH (k + 1) ltac:(lia)).
    destruct (attempts_from fuel (k + 1)) as [[v | | e] waits]; simpl in *;
      [lia | lia |].
    destruct IH as (? & ? & ?). split_and!; [lia | done | done].
  - apply handle_rethrow in Hh as (-> & ? & ?). split_and!; [lia | done | done].
Qed.

Lemma resets_from fuel :
  ∀ k, k + fuel = retries →
       (∀ i, i < retries →
             ∃ msg, net i = Rejects msg ∧ includes msg "ECONNRESET" = true) →
       attempts_from fuel k
       = (ReturnUndefined, (λ i, 2 ^ Z.of_nat i * 1000)%Z <$> seq k fuel).
Proof.
  induction fuel as [| fuel IH]; intros k Hk Hnet; [done |].
  rewrite attempts_from_step by lia.
  destruct (Hnet k ltac:(lia)) as (msg & Hmsg & Hreset).
  rewrite attempt_fetchOperation. unfold fetchOperation. rewrite Hmsg.
  unfold Fetcher.handle. simpl. rewrite Hreset.
  rewrite (IH (k + 1) ltac:(lia) Hnet). simpl.
  by replace (k + 1) with (S k) by lia.
Qed.
End fetcher_runs.

(** X1.  A success is returned whatever failed before it: when attempt [i]
    (below [retries]) yields a value and every earlier attempt failed,
    [fetchWithRetry] returns that value, after exactly [i] waits. *)
Theorem fetchWithRetry_first_success
        {J} (net : nat → Fetcher.Fetched J) (url : string) (retries : nat)
        (returnJson isNpmjsOfficialSource : bool) (i : nat)
        (v : Fetcher.Payload J) :
  i < retries →
  Fetcher.attempt net url returnJson isNpmjsOfficialSource i = inl v →
  (∀ j, j < i →
        ∃ error, Fetcher.attempt net url returnJson isNpmjsOfficialSource j
                 = inr error) →
  let run := Fetcher.fetchWithRetry net url retries returnJson
                                    isNpmjsOfficialSource in
  run.1 = Fetcher.Return v ∧ length run.2 = i.
Proof.
  intros Hi Hv Hfail run. subst run. unfold Fetcher.fetchWithRetry.
  apply (first_success_from net url retries returnJson isNpmjsOfficialSource
           i 0 retries i v); try done; try lia.
  intros j Hj. apply Hfail. lia.
Qed.

(** A 500, then a reset, then a 200: the payload comes back after two
    waits. *)
Lemma fetchWithRetry_first_success_witness :
  let net := λ i : nat,
    match i with
    | 0 => Fetcher.Resolves (Fetcher.mkResponse 500 None (inl ""))
    | 1 => Fetcher.Rejects "socket hang up ECONNRESET"
    | _ => Fetcher.Resolves (Fetcher.mkResponse 200 None (inr 42))
    end in
  let run := Fetcher.fetchWithRetry net "https://registry.npmmirror.com/koishi"
                                    3 true false in
  run.1 = Fetcher.Return (Fetcher.Json 42) ∧ length run.2 = 2.
Proof.
  intros net.
  apply (fetchWithRetry_first_success net _ 3 true false 2 (Fetcher.Json 42)).
  - lia.
  - reflexivity.
  - intros [| [| j]] Hj; [by eexists | by eexists | lia].
Defined.

(** X2.  [fetchWithRetry] makes at most [retries] attempts, and how it ends
    tells how many it made: a value comes back after fewer than [retries]
    waits; an error is raised only on the last attempt, after
    [retries - 1] waits, and it is never a 429 nor a connection reset; and
    when nothing is returned or raised the function has waited after each of
    its [retries] attempts. *)
Theorem fetchWithRetry_outcome_tells_attempts
        {J} (net : nat → Fetcher.Fetched J) (url : string) (retries : nat)
        (returnJson isNpmjsOfficialSource : bool) :
  let run := Fetcher.fetchWithRetry net url retries returnJson
                                    isNpmjsOfficialSource in
  match run.1 with
  | Fetcher.Return _ => length run.2 < retries
  | Fetcher.Throw error =>
      length run.2 + 1 = retries
      ∧ Fetcher.cause_status <$> Fetcher.cause error ≠ Some 429%Z
      ∧ includes (Fetcher.message error) "ECONNRESET" = false
  | Fetcher.ReturnUndefined => length run.2 = retries
  end.
Proof.
  intros run. subst run. unfold Fetcher.fetchWithRetry.
  pose proof (outcome_attempts_from net url retries returnJson
                isNpmjsOfficialSource retries 0 ltac:(lia)) as H.
  by destruct (Fetcher.attempts_from _ _ _ _ _ _ _).1.
Qed.

(** X3.  When every attempt fails with a connection reset, no error is
    raised: the function waits [2^i * 1000] ms after attempt [i], the last
    one included, and returns [undefined].  This for up to 22 retries, where
    every delay is one the timer honours ([2^21 * 1000 <= 2^31 - 1]). *)
Theorem fetchWithRetry_resets_exhausted
        {J} (net : nat → Fetcher.Fetched J) (url : string) (retries : nat)
        (returnJson isNpmjsOfficialSource : bool) :
  retries ≤ 22 →
  (∀ i, i < retries →
        ∃ msg, net i = Fetcher.Rejects msg
               ∧ includes msg "ECONNRESET" = true) →
  let run := Fetcher.fetchWithRetry net url retries returnJson
                                    isNpmjsOfficialSource in
  run = (Fetcher.ReturnUndefined,
         (λ i, 2 ^ Z.of_nat i * 1000)%Z <$> seq 0 retries)
  ∧ Forall honoured run.2.
Proof.
  intros Hretries Hnet run. subst run. unfold Fetcher.fetchWithRetry.
  rewrite (resets_from net url retries returnJson isNpmjsOfficialSource
             retries 0) by (done || lia).
  split; [done |].
  simpl. apply Forall_fmap, Forall_forall.
  intros i [_ Hi]%elem_of_seq. unfold honoured, TIMEOUT_MAX. simpl.
  assert (1 ≤ 2 ^ Z.of_nat i ≤ 2 ^ 21)%Z as Hpow.
  { split; [| apply Z.pow_le_mono_r; lia].
    pose proof (Z.pow_pos_nonneg 2 (Z.of_nat i)). lia. }
  lia.
Qed.

Lemma fetchWithRetry_resets_exhausted_witness :
  Fetcher.fetchWithRetry (J := unit)
    (λ _, Fetcher.Rejects "read ECONNRESET")
    "https://registry.npmjs.org/koishi" 5 false true
  = (Fetcher.ReturnUndefined, [1000; 2000; 4000; 8000; 16000]%Z).
Proof.
  apply (fetchWithRetry_resets_exhausted
           (λ _, Fetcher.Rejects "read ECONNRESET") _ 5 false true).
  - lia.
  - intros i Hi. by eexists.
Defined.

(** ** The installed-package listing *)

Lemma getInstalledPackages_Dir entries acc :
  SandboxInstall.getInstalledPackages (SandboxInstall.Dir true entries) acc
  = entries_loop SandboxInstall.getInstalledPackages entries acc.
Proof. reflexivity. Qed.

Lemma nested_of_get rec children acc :
  nested_of rec children acc
  = match get "node_modules" children with
    | Some node => rec node acc
    | None => acc
    end.
Proof.
  unfold nested_of. induction children as [| [n c] children IH]; simpl; [done |].
  by case_bool_decide.
Qed.

Lemma elem_of_add x name acc :
  x ∈ SandboxInstall.add name acc ↔ x = name ∨ x ∈ acc.
Proof.
  unfold SandboxInstall.add. case_bool_decide as Hin.
  - split; [by right | by intros [-> | ?]].
  - rewrite elem_of_app, list_elem_of_singleton. tauto.
Qed.

Lemma add_NoDup name acc : NoDup acc → NoDup (SandboxInstall.add name acc).
Proof.
  intros Hnd. unfold SandboxInstall.add. case_bool_decide; [done |].
  apply NoDup_app. split_and!; [done | | apply NoDup_singleton].
  by intros x Hx ->%list_elem_of_singleton.
Qed.

Lemma get_elem_of {V} k (o : Obj V) v : get k o = Some v → (k, v) ∈ o.
Proof.
  induction o as [| [k' v'] o IH]; simpl; [done |].
  case_bool_decide as Hk.
  - intros [= <-]. subst k'. apply list_elem_of_here.
  - intros H. by apply list_elem_of_further, IH.
Qed.

Lemma entry_size_lt (l : list (string * SandboxInstall.Node)) name node :
  (name, node) ∈ l → node_size node ≤ entries_size l.
Proof.
  unfold entries_size. induction l as [| e l IH]; intros Hin.
  - by apply not_elem_of_nil in Hin.
  - apply elem_of_cons in Hin as [<- | Hin]; simpl; [lia |].
    specialize (IH Hin). lia.
Qed.

Section listing_sound.
Import SandboxInstall.
Variable rec : Node → list string → list string.
Variable k : nat.
Hypothesis rec_sound : ∀ c, node_size c < k → listing_sound rec c.

Lemma nested_of_sound children :
  entries_size children < k →
  ∀ acc, (NoDup acc → NoDup (nested_of rec children acc))
         ∧ (∀ x, x ∈ acc → x ∈ nested_of rec children acc)
         ∧ (∀ x, x ∈ nested_of rec children acc →
                 x ∈ acc ∨ ∃ node, get "node_modules" children = Some node
                                   ∧ installed node x).
Proof.
  intros Hsize acc. rewrite nested_of_get.
  destruct (get "node_modules" children) as [node |] eqn:Hget.
  - pose proof (entry_size_lt _ _ _ (get_elem_of _ _ _ Hget)).
    destruct (rec_sound node ltac:(lia) acc) as (H1 & H2 & H3).
    split_and!; [done | done |].
    intros x Hx. destruct (H3 x Hx); [by left | right; by exists node].
  - split_and!; [done | done | by left].
Qed.

Lemma scoped_loop_sound scope sl :
  entries_size sl < k →
  ∀ acc,
    (NoDup acc → NoDup (scoped_loop rec scope sl acc))
    ∧ (∀ x, x ∈ acc → x ∈ scoped_loop rec scope sl acc)
    ∧ (∀ x, x ∈ scoped_loop rec scope sl acc →
            x ∈ acc
            ∨ ∃ name r children',
                (name, Dir r children') ∈ sl
                ∧ (x = scope +:+ "/" +:+ name
                   ∨ ∃ node, get "node_modules" children' = Some node
                             ∧ installed node x)).
Proof.
  induction sl as [| [name [| r children']] sl IH]; intros Hsize acc; simpl.
  - split_and!; [done | done | by left].
  - unfold entries_size in *. simpl in Hsize.
    destruct (IH ltac:(lia) acc) as (H1 & H2 & H3).
    split_and!; [done | done |].
    intros x Hx. destruct (H3 x Hx) as [? | (n & r & ch & Hin & Hcase)];
      [by left | right].
    exists n, r, ch. split; [by apply list_elem_of_further | done].
  - unfold entries_size in *. simpl in Hsize.
    destruct (nested_of_sound children' ltac:(unfold entries_size; lia)
                (add (scope +:+ "/" +:+ name) acc)) as (N1 & N2 & N3).
    destruct (IH ltac:(lia)
                (nested_of rec children' (add (scope +:+ "/" +:+ name) acc)))
      as (H1 & H2 & H3).
    split_and!.
    + intros Hnd. by apply H1, N1, add_NoDup.
    + intros x Hx. apply H2, N2, elem_of_add. by right.
    + intros x Hx.
      destruct (H3 x Hx) as [Hx' | (n & r' & ch & Hin & Hcase)].
      * destruct (N3 x Hx') as [[-> | ?]%elem_of_add | (node & Hget & Hinst)].
        -- right. exists name, r, children'.
           split; [apply list_elem_of_here | by left].
        -- by left.
        -- right. exists name, r, children'.
           split; [apply list_elem_of_here | right; by exists node].
      * right. exists n, r', ch. split; [by apply list_elem_of_further | done].
Qed.

Lemma entries_loop_sound l :
  entries_size l < k →
  ∀ acc,
    (NoDup acc → NoDup (entries_loop rec l acc))
    ∧ (∀ x, x ∈ acc → x ∈ entries_loop rec l acc)
    ∧ (∀ x, x ∈ entries_loop rec l acc →
            x ∈ acc
            ∨ ∃ name r children,
                (name, Dir r children) ∈ l
                ∧ ((regular name
                    ∧ (x = name
                       ∨ ∃ node, get "node_modules" children = Some node
                                 ∧ installed node x))
                   ∨ (startsWith name "@" = true ∧ r = true
                      ∧ ∃ sname r' children',
                          (sname, Dir r' children') ∈ children
                          ∧ (x = name +:+ "/" +:+ sname
                             ∨ ∃ node, get "node_modules" children' = Some node
                                       ∧ installed node x)))).
Proof.
  induction l as [| [name [| r children]] l IH]; intros Hsize acc; simpl.
  - split_and!; [done | done | by left].
  - unfold entries_size in *. simpl in Hsize.
    destruct (IH ltac:(lia) acc) as (H1 & H2 & H3).
    split_and!; [done | done |].
    intros x Hx. destruct (H3 x Hx) as [? | (n & r & ch & Hin & Hcase)];
      [by left | right].
    exists n, r, ch. split; [by apply list_elem_of_further | done].
  - unfold entries_size in *. simpl in Hsize.
    assert (∀ acc',
              (NoDup acc → NoDup acc')
              → (∀ x, x ∈ acc → x ∈ acc')
              → (∀ x, x ∈ acc' →
                      x ∈ acc
                      ∨ (regular name
                         ∧ (x = name
                            ∨ ∃ node, get "node_modules" children = Some node
                                      ∧ installed node x))
                      ∨ (startsWith name "@" = true ∧ r = true
                         ∧ ∃ sname r' children',
                             (sname, Dir r' children') ∈ children
                             ∧ (x = name +:+ "/" +:+ sname
                                ∨ ∃ node,
                                    get "node_modules" children' = Some node
                                    ∧ installed node x)))
              → (NoDup acc → NoDup (entries_loop rec l acc'))
                ∧ (∀ x, x ∈ acc → x ∈ entries_loop rec l acc')
                ∧ (∀ x, x ∈ entries_loop rec l acc' →
                        x ∈ acc
                        ∨ ∃ name0 r0 children0,
                            (name0, Dir r0 children0)
                              ∈ (name, Dir r children) :: l
                            ∧ ((regular name0
                                ∧ (x = name0
                                   ∨ ∃ node,
                                       get "node_modules" children0 = Some node
                                       ∧ installed node x))
                               ∨ (startsWith name0 "@" = true ∧ r0 = true
                                  ∧ ∃ sname r' children',
                                      (sname, Dir r' children') ∈ children0
                                      ∧ (x = name0 +:+ "/" +:+ sname
                                         ∨ ∃ node,
                                             get "node_modules" children'
                                             = Some node
                                             ∧ installed node x)))))
      as Hcont.
    { intros acc' A1 A2 A3.
      destruct (IH ltac:(lia) acc') as (H1 & H2 & H3).
      split_and!; [by intros; apply H1, A1 | by intros; apply H2, A2 |].
      intros x Hx.
      destruct (H3 x Hx) as [Hx' | (n & r0 & ch & Hin & Hcase)].
      - destruct (A3 x Hx') as [? | Hhere]; [by left | right].
        exists name, r, children. split; [apply list_elem_of_here | done].
      - right. exists n, r0, ch.
        split; [by apply list_elem_of_further | done]. }
    destruct (startsWith name "@") eqn:Hat.
    + destruct r.
      * destruct (scoped_loop_sound name children
                    ltac:(unfold entries_size; lia) acc) as (S1 & S2 & S3).
        apply Hcont; [done | done |].
        intros x Hx.
        destruct (S3 x Hx) as [? | (sn & r' & ch' & Hin & Hcase)]; [by left |].
        right. right. split_and!; [done | done |]. by exists sn, r', ch'.
      * split_and!; [done | done | by left].
    + destruct (negb (bool_decide (name = ".bin"))
                && negb (bool_decide (name = ".yarn-integrity"))) eqn:Hreg.
      * apply andb_true_iff in Hreg as [Hbin Hyarn].
        apply negb_true_iff, bool_decide_eq_false in Hbin.
        apply negb_true_iff, bool_decide_eq_false in Hyarn.
        destruct (nested_of_sound children ltac:(unfold entries_size; lia)
                    (add name acc)) as (N1 & N2 & N3).
        apply Hcont.
        -- intros Hnd. by apply N1, add_NoDup.
        -- intros x Hx. apply N2, elem_of_add. by right.
        -- intros x Hx.
           destruct (N3 x Hx) as [[-> | ?]%elem_of_add | Hnode].
           ++ right. left. split; [done | by left].
           ++ by left.
           ++ right. left. split; [done | by right].
      * apply Hcont; [done | done | by left].
Qed.
End listing_sound.

Lemma node_size_pos node : 0 < node_size node.
Proof. destruct node; simpl; lia. Qed.

Lemma getInstalledPackages_sound_below k :
  ∀ node, node_size node < k →
          listing_sound SandboxInstall.getInstalledPackages node.
Proof.
  induction k as [| k IH]; intros node Hsize; [lia |].
  destruct node as [| [|] entries].
  - intros acc. split_and!; [done | done | by left].
  - intros acc.
    destruct (entries_loop_sound SandboxInstall.getInstalledPackages k IH
                entries ltac:(simpl in Hsize; unfold entries_size; lia) acc)
      as (H1 & H2 & H3).
    rewrite getInstalledPackages_Dir.
    split_and!; [done | done |].
    intros x Hx.
    destruct (H3 x Hx) as [? | (name & r & ch & Hin & Hcase)]; [by left | right].
    destruct Hcase as [[Hreg [-> | (node & Hget & Hinst)]]
                      | (Hat & -> & sn & r' & ch' & Hin' & Hcase)].
    + by eapply installed_package.
    + by eapply installed_below_package.
    + destruct Hcase as [-> | (node & Hget & Hinst)].
      * by eapply installed_scoped.
      * by eapply installed_below_scoped.
  - intros acc. split_and!; [done | done | by left].
Qed.

Lemma getInstalledPackages_sound node :
  listing_sound SandboxInstall.getInstalledPackages node.
Proof.
  apply (getInstalledPackages_sound_below (S (node_size node))). lia.
Qed.

Section listing_complete.
Import SandboxInstall.
Variable rec : Node → list string → list string.
Variable k : nat.
Hypothesis rec_sound : ∀ c, node_size c < k → listing_sound rec c.
Hypothesis rec_complete :
  ∀ c, node_size c < k → readable_tree c → listing_complete rec c.

Lemma readable_entry (l : list (string * Node)) name node :
  Forall (λ e, readable_tree e.2) l → (name, node) ∈ l → readable_tree node.
Proof.
  intros Hall Hin. by apply (proj1 (Forall_forall _ _) Hall (name, node)).
Qed.

Lemma nested_of_complete children :
  entries_size children < k → Forall (λ e, readable_tree e.2) children →
  ∀ acc node x,
    get "node_modules" children = Some node → installed node x →
    x ∈ nested_of rec children acc.
Proof.
  intros Hsize Hread acc node x Hget Hinst. rewrite nested_of_get, Hget.
  pose proof (get_elem_of _ _ _ Hget) as Hin.
  pose proof (entry_size_lt _ _ _ Hin).
  apply rec_complete; [lia | by eapply readable_entry | done].
Qed.

Lemma scoped_loop_complete scope sl :
  entries_size sl < k → Forall (λ e, readable_tree e.2) sl →
  ∀ acc x name r children',
    (name, Dir r children') ∈ sl →
    (x = scope +:+ "/" +:+ name
     ∨ ∃ node, get "node_modules" children' = Some node ∧ installed node x) →
    x ∈ scoped_loop rec scope sl acc.
Proof.
  induction sl as [| [name0 node0] sl IH];
    intros Hsize Hread acc x name r children' Hin Hcase.
  - by apply not_elem_of_nil in Hin.
  - unfold entries_size in Hsize. simpl in Hsize.
    apply Forall_cons in Hread as [Hread0 Hread].
    apply elem_of_cons in Hin as [[= <- <-] | Hin].
    + simpl in *.
      destruct (scoped_loop_sound rec k rec_sound scope sl
                  ltac:(unfold entries_size; lia)
                  (nested_of rec children' (add (scope +:+ "/" +:+ name) acc)))
        as (_ & Hkeep & _).
      apply Hkeep.
      inversion Hread0 as [| ? Hch]; subst.
      destruct Hcase as [-> | (node & Hget & Hinst)].
      * destruct (nested_of_sound rec k rec_sound children'
                    ltac:(unfold entries_size; lia)
                    (add (scope +:+ "/" +:+ name) acc)) as (_ & Hk & _).
        apply Hk, elem_of_add. by left.
      * eapply nested_of_complete; [unfold entries_size; lia | done | done | done].
    + destruct node0 as [| r0 ch0]; simpl.
      * eapply IH; [unfold entries_size; lia | done | done | done].
      * eapply IH; [unfold entries_size; lia | done | done | done].
Qed.

Lemma entries_loop_complete l :
  entries_size l < k → Forall (λ e, readable_tree e.2) l →
  ∀ acc x name r children,
    (name, Dir r children) ∈ l →
    ((regular name
      ∧ (x = name
         ∨ ∃ node, get "node_modules" children = Some node ∧ installed node x))
     ∨ (startsWith name "@" = true
        ∧ ∃ sname r' children',
            (sname, Dir r' children') ∈ children
            ∧ (x = name +:+ "/" +:+ sname
               ∨ ∃ node, get "node_modules" children' = Some node
                         ∧ installed node x))) →
    x ∈ entries_loop rec l acc.
Proof.
  induction l as [| [name0 node0] l IH];
    intros Hsize Hread acc x name r children Hin Hcase.
  - by apply not_elem_of_nil in Hin.
  - unfold entries_size in Hsize. simpl in Hsize.
    apply Forall_cons in Hread as [Hread0 Hread].
    assert (∀ acc' y, y ∈ acc' → y ∈ entries_loop rec l acc') as Hrest.
    { intros acc' y.
      destruct (entries_loop_sound rec k rec_sound l
                  ltac:(unfold entries_size; lia) acc') as (_ & Hk & _).
      apply Hk. }
    apply elem_of_cons in Hin as [[= <- <-] | Hin].
    + simpl in *. inversion Hread0 as [| ? Hch]; subst.
      destruct Hcase as [[(Hat & Hbin & Hyarn) Hcase]
                        | (Hat & sn & r' & ch' & Hin' & Hcase)].
      * rewrite Hat.
        rewrite !bool_decide_eq_false_2 by done. simpl.
        apply Hrest.
        destruct Hcase as [-> | (node & Hget & Hinst)].
        -- destruct (nested_of_sound rec k rec_sound children
                       ltac:(unfold entries_size; lia) (add name acc))
             as (_ & Hk & _).
           apply Hk, elem_of_add. by left.
        -- eapply nested_of_complete;
             [unfold entries_size; lia | done | done | done].
      * rewrite Hat. apply Hrest.
        eapply scoped_loop_complete;
          [unfold entries_size; lia | done | done | done].
    + assert (∀ acc', x ∈ entries_loop rec l acc') as Htail.
      { intros acc'.
        eapply IH; [unfold entries_size; lia | done | done | done]. }
      destruct node0 as [| r0 ch0]; simpl; [done |].
      inversion Hread0; subst.
      destruct (startsWith name0 "@"); [done |].
      by destruct (negb _ && negb _).
Qed.
End listing_complete.

Lemma getInstalledPackages_complete_below k :
  ∀ node, node_size node < k → readable_tree node →
          listing_complete SandboxInstall.getInstalledPackages node.
Proof.
  induction k as [| k IH]; intros node Hsize Hread; [lia |].
  intros acc x Hinst.
  inversion Hread as [| entries Hentries]; subst; [inversion Hinst |].
  rewrite getInstalledPackages_Dir. simpl in Hsize.
  assert (entries_size entries < k) as Hlt by (unfold entries_size; lia).
  pose proof (entries_loop_complete SandboxInstall.getInstalledPackages k
                (λ c _, getInstalledPackages_sound c) IH entries Hlt Hentries
                acc x) as Hloop.
  inversion Hinst; subst.
  - eapply Hloop; [done |]. left. split; [done | by left].
  - eapply Hloop; [done |]. left. split; [done | right; by eexists].
  - eapply Hloop; [done |]. right. split; [done |].
    eexists _, _, _. split; [done | by left].
  - eapply Hloop; [done |]. right. split; [done |].
    eexists _, _, _. split; [done | right; by eexists].
Qed.

Lemma prefix_cons a s1 b s2 :
  String.prefix (String a s1) (String b s2)
  = if Ascii.ascii_dec a b then String.prefix s1 s2 else false.
Proof. reflexivity. Qed.

Lemma scoped_name_starts scope name x :
  startsWith scope "@" = true → x = scope +:+ "/" +:+ name →
  startsWith x "@" = true.
Proof.
  intros Hat ->. destruct scope as [| c scope]; [done |].
  unfold startsWith in *.
  change (String c scope +:+ "/" +:+ name)
    with (String c (scope +:+ "/" +:+ name)).
  rewrite prefix_cons in *.
  destruct (Ascii.ascii_dec "@" c); [| done].
  by destruct (scope +:+ "/" +:+ name).
Qed.

Lemma installed_not_bookkeeping node x :
  installed node x → x ≠ ".bin" ∧ x ≠ ".yarn-integrity".
Proof.
  induction 1 as [entries name r children Hin (Hat & Hbin & Hyarn)
                 | entries name r children node x Hin Hreg Hget Hinst IH
                 | entries scope children name r children' Hin Hat Hin'
                 | entries scope children name r children' node x
                     Hin Hat Hin' Hget Hinst IH]; try done.
  pose proof (scoped_name_starts scope name _ Hat eq_refl) as Hstart.
  split; intros Heq; by rewrite Heq in Hstart.
Qed.

(** X4.  [getInstalledPackages] returns a list without duplicates that
    starts from what it was given, and every name it adds is an installed
    package: the name of a package directory, or [@scope/name] for a
    directory [name] under a scope directory, at any depth of nested
    [node_modules]; files, [.bin] and [.yarn-integrity] are never listed.
    This holds for every tree, readable or not. *)
Theorem getInstalledPackages_lists_only_installed
        (node : SandboxInstall.Node) (packages : list string) :
  (NoDup packages →
   NoDup (SandboxInstall.getInstalledPackages node packages))
  ∧ (∀ x, x ∈ packages →
          x ∈ SandboxInstall.getInstalledPackages node packages)
  ∧ (∀ x, x ∈ SandboxInstall.getInstalledPackages node packages →
          x ∈ packages ∨ installed node x)
  ∧ (".bin" ∉ SandboxInstall.getInstalledPackages node [])
  ∧ (".yarn-integrity" ∉ SandboxInstall.getInstalledPackages node []).
Proof.
  destruct (getInstalledPackages_sound node packages) as (H1 & H2 & H3).
  destruct (getInstalledPackages_sound node []) as (_ & _ & H).
  split_and!; [done | done | done | |]; intros Hin;
    (destruct (H _ Hin) as [Hnil | Hinst];
     [by apply not_elem_of_nil in Hnil |]);
    by destruct (installed_not_bookkeeping _ _ Hinst).
Qed.

(** X5.  On a tree in which every directory can be read,
    [getInstalledPackages] misses nothing: every installed package, at any
    depth of nested [node_modules] and under any scope, is in the list. *)
Theorem getInstalledPackages_lists_all_installed
        (node : SandboxInstall.Node) (packages : list string) (x : string) :
  readable_tree node → installed node x →
  x ∈ SandboxInstall.getInstalledPackages node packages.
Proof.
  intros Hread Hinst.
  apply (getInstalledPackages_complete_below (S (node_size node)));
    [lia | done | done].
Qed.

Lemma getInstalledPackages_lists_only_installed_witness :
  let listing := SandboxInstall.getInstalledPackages Installation.sample [] in
  listing = ["koishi-plugin-x"; "sharp"; "@koishijs/plugin-help"; "left-pad"]
  ∧ NoDup listing
  ∧ (∀ x, x ∈ listing → installed Installation.sample x).
Proof.
  intros listing.
  destruct (getInstalledPackages_lists_only_installed Installation.sample [])
    as (Hnd & _ & Hsound & _).
  split_and!; [reflexivity | apply Hnd, NoDup_nil_2 |].
  intros x Hx. destruct (Hsound x Hx) as [Hnil | Hinst]; [| exact Hinst].
  by apply not_elem_of_nil in Hnil.
Defined.

Lemma getInstalledPackages_lists_all_installed_witness :
  "sharp" ∈ SandboxInstall.getInstalledPackages Installation.sample [].
Proof.
  apply getInstalledPackages_lists_all_installed.
  - repeat (constructor; simpl).
  - eapply (installed_below_package _ "koishi-plugin-x").
    + apply list_elem_of_further, list_elem_of_further, list_elem_of_here.
    + by split_and!.
    + reflexivity.
    + eapply (installed_package _ "sharp"); [apply list_elem_of_here |].
      by split_and!.
Defined.

(** ** What a scan records *)

Section foldl_check_filter.
Variable ins : gset string.

Lemma check_fresh_name n r :
  n ∉ insecurePackages r →
  check ins n r
  = if bool_decide (n ∈ UNSAFE_DEPENDENCIES ∨ n ∈ ins)
    then mkResult true (insecurePackages r ++ [n]) (analyzedAt r) (error r)
    else r.
Proof.
  intros Hn. unfold check, flag.
  assert (n ∈ insecurePackages r ++ [n]) as Hlast.
  { apply elem_of_app. right. by apply list_elem_of_singleton. }
  destruct (decide (n ∈ UNSAFE_DEPENDENCIES)) as [H1 | H1];
    destruct (decide (n ∈ ins)) as [H2 | H2];
    rewrite ?(bool_decide_eq_true_2 _ H1), ?(bool_decide_eq_false_2 _ H1),
      ?(bool_decide_eq_true_2 _ H2), ?(bool_decide_eq_false_2 _ H2); simpl;
    rewrite ?(bool_decide_eq_false_2 _ Hn), ?(bool_decide_eq_true_2 _ Hlast);
    [rewrite bool_decide_eq_true_2 by tauto
    | rewrite bool_decide_eq_true_2 by tauto
    | rewrite bool_decide_eq_true_2 by tauto
    | rewrite bool_decide_eq_false_2 by tauto]; done.
Qed.

Lemma foldl_check_filter names :
  ∀ r, NoDup names → (∀ x, x ∈ names → x ∉ insecurePackages r) →
       let found :=
         filter (λ n, n ∈ UNSAFE_DEPENDENCIES ∨ n ∈ ins) names in
       foldl (λ r n, check ins n r) r names
       = mkResult (isInsecure r || bool_decide (found ≠ []))
                  (insecurePackages r ++ found) (analyzedAt r) (error r).
Proof.
  induction names as [| n names IH]; intros r Hnd Hfresh; simpl.
  - rewrite app_nil_r, orb_false_r. by destruct r.
  - apply NoDup_cons in Hnd as [Hn Hnd].
    rewrite check_fresh_name by (apply Hfresh, list_elem_of_here).
    rewrite filter_cons. case_bool_decide as Hlisted.
    + rewrite decide_True by done. rewrite IH; [| done |].
      * simpl. rewrite <- app_assoc. simpl. by rewrite orb_true_r.
      * simpl. intros x Hx [Hin | ->%list_elem_of_singleton]%elem_of_app.
        -- by apply (Hfresh x); [apply list_elem_of_further |].
        -- done.
    + rewrite decide_False by done. apply IH; [done |].
      intros x Hx. by apply Hfresh, list_elem_of_further.
Qed.
End foldl_check_filter.

(** X6.  A sandbox scan whose installation succeeds records exactly the
    installed packages that are on a list, in the order of the listing:
    [insecurePackages] is the listing of [node_modules] filtered by the
    built-in set and the loaded list, and [isInsecure] says whether that is
    empty. *)
Theorem sandbox_scan_records_listed_installed
        (ins : gset string) (tempDir : string)
        (node : SandboxInstall.Node) (rm : option string) (now : Z)
        (packageName version : string)
        (cache : gmap string AnalysisResult) (dirs : gset string) :
  cache !! (packageName +:+ "@" +:+ version) = None →
  packageName ∉ ins →
  let found :=
    filter (λ n, n ∈ UNSAFE_DEPENDENCIES ∨ n ∈ ins)
           (SandboxInstall.getInstalledPackages node []) in
  (SandboxInstall.analyzePackageDependencies
     (inr ins) (inr tempDir) None None (Some node) rm now
     packageName version cache dirs).1.1.1
  = Resolved (mkResult (bool_decide (found ≠ [])) found now None).
Proof.
  intros Hmiss Hin found. unfold SandboxInstall.analyzePackageDependencies.
  rewrite Hmiss. unfold SandboxInstall.try_block.
  rewrite bool_decide_eq_false_2 by done. simpl.
  rewrite foldl_check_filter.
  - by destruct rm.
  - destruct (getInstalledPackages_sound node []) as (Hnd & _).
    apply Hnd, NoDup_nil_2.
  - intros x _. apply not_elem_of_nil.
Qed.

Lemma sandbox_scan_records_listed_installed_witness :
  (SandboxInstall.analyzePackageDependencies
     (inr {["left-pad"]}) (inr "/tmp/koishi-security-x7Gq2L") None None
     (Some Installation.sample) None 0%Z "koishi-plugin-x" "2.1.0" ∅ ∅).1.1.1
  = Resolved (mkResult true ["sharp"; "left-pad"] 0%Z None).
Proof.
  rewrite (sandbox_scan_records_listed_installed
             {["left-pad"]} "/tmp/koishi-security-x7Gq2L" Installation.sample
             None 0%Z "koishi-plugin-x" "2.1.0" ∅ ∅).
  - by vm_compute.
  - apply lookup_empty.
  - by vm_compute.
Defined.

Lemma foldl_check_only ins names :
  ∀ r x, x ∈ insecurePackages (foldl (λ r n, check ins n r) r names) →
         x ∈ insecurePackages r ∨ (x ∈ names ∧ listed ins x).
Proof.
  induction names as [| n names IH]; intros r x Hx; simpl in *; [by left |].
  destruct (IH _ _ Hx) as [Hx' | [Hin Hl]].
  - destruct (check_only ins n x r Hx') as [? | [-> Hl]]; [by left | right].
    split; [apply list_elem_of_here | done].
  - right. split; [by apply list_elem_of_further | done].
Qed.

Section recorded_facts.
Import MetadataGraph.
Variable net : string → nat → Fetcher.Fetched (option PkgData).
Variable NPM_REGISTRY : string.
Variable MAX_RETRIES : nat.
Variable ins : gset string.
Variable sched : nat → nat.
Variable now : Z.
Variables packageName version : string.
Variable versionInfo : VersionInfo.

Local Abbreviation m :=
  (traverse_all net NPM_REGISTRY MAX_RETRIES ins 3 sched
                (allDeps_of versionInfo)
                (start_memory ins now packageName version versionInfo)).

Lemma traversed_only_listed x :
  x ∈ insecurePackages (result m) → listed ins x.
Proof.
  revert x.
  apply (traverse_all_inv net NPM_REGISTRY MAX_RETRIES ins 3
           (λ m, ∀ x, x ∈ insecurePackages (result m) → listed ins x)).
  - intros d e m' _ Hm' x. rewrite callback_start_result. intros Hx.
    destruct (check_only ins e.1 x _ Hx) as [? | [-> ?]]; [by apply Hm' | done].
  - simpl. intros x Hx.
    destruct (foldl_check_only ins _ _ _ Hx) as [Hnil | [_ ?]]; [| done].
    by apply not_elem_of_nil in Hnil.
Qed.

Lemma traversed_fetched_checked depName range d :
  FetchDep depName range d ∈ issued m → listed ins depName →
  depName ∈ insecurePackages (result m).
Proof.
  revert depName range d.
  apply (traverse_all_inv net NPM_REGISTRY MAX_RETRIES ins 3
           (λ m, ∀ depName range d,
                FetchDep depName range d ∈ issued m → listed ins depName →
                depName ∈ insecurePackages (result m))).
  - intros d [n r] m' _ Hm' depName range d'.
    rewrite callback_start_result. unfold callback_start.
    case_bool_decide; simpl.
    + intros Hin Hl. by eapply check_keeps, Hm'.
    + intros [Hin | [= -> -> ->]%list_elem_of_singleton]%elem_of_app Hl.
      * by eapply check_keeps, Hm'.
      * by apply check_elem.
  - simpl. intros depName range d Hin. by apply list_elem_of_singleton in Hin.
Qed.
End recorded_facts.

(** X7.  A metadata-graph scan records no name that is not on a list: every
    name in [insecurePackages] of a fresh result is in the built-in set or in
    the loaded list. *)
Theorem scan_records_only_listed_names
        (net : string → nat → Fetcher.Fetched (option MetadataGraph.PkgData))
        (NPM_REGISTRY : string) (MAX_RETRIES : nat)
        (loadInsecurePackages : string + gset string)
        (sched : nat → nat) (now : Z) (packageName version : string)
        (cache : gmap string AnalysisResult) (r : AnalysisResult) (x : string) :
  cache !! (packageName +:+ "@" +:+ version) = None →
  (MetadataGraph.analyzePackageDependencies
     net NPM_REGISTRY MAX_RETRIES loadInsecurePackages sched now
     packageName version cache).1.1 = Resolved r →
  x ∈ insecurePackages r →
  ∃ ins, loadInsecurePackages = inr ins
         ∧ (x ∈ UNSAFE_DEPENDENCIES ∨ x ∈ ins).
Proof.
  intros Hmiss.
  destruct (analyze_cases net NPM_REGISTRY MAX_RETRIES loadInsecurePackages
              sched now packageName version cache)
    as [(cached & Hc & _) | (_ & r' & events & Hscan & ->)]; [congruence |].
  simpl. intros [= <-] Hx.
  destruct Hscan; simpl in Hx; try by apply not_elem_of_nil in Hx.
  - apply list_elem_of_singleton in Hx as ->. exists ins. split; [done | by right].
  - exists ins. split; [done |]. by eapply traversed_only_listed.
Qed.

Lemma scan_records_only_listed_names_witness :
  ∃ ins, (inr {["left-pad"]} : string + gset string) = inr ins
         ∧ ("puppeteer" ∈ UNSAFE_DEPENDENCIES ∨ "puppeteer" ∈ ins).
Proof.
  apply (scan_records_only_listed_names
           (Registry.serve Registry.flaky) Registry.url 3 (inr {["left-pad"]})
           (λ _, 0) 0%Z "koishi-plugin-x" "2.1.0" ∅
           (mkResult true ["left-pad"; "puppeteer"] 0%Z None) "puppeteer").
  - apply lookup_empty.
  - by vm_compute.
  - apply list_elem_of_further, list_elem_of_here.
Defined.

(** X8.  In a metadata-graph scan, no dependency is fetched without having
    been checked: whenever the scan requested the registry document of a
    dependency whose name is on a list, at whatever depth, that name is in
    [insecurePackages] of the result. *)
Theorem fetched_dependencies_are_checked
        (net : string → nat → Fetcher.Fetched (option MetadataGraph.PkgData))
        (NPM_REGISTRY : string) (MAX_RETRIES : nat) (ins : gset string)
        (sched : nat → nat) (now : Z) (packageName version : string)
        (cache : gmap string AnalysisResult) (r : AnalysisResult)
        (depName range : string) (d : nat) :
  cache !! (packageName +:+ "@" +:+ version) = None →
  let out := MetadataGraph.analyzePackageDependencies
               net NPM_REGISTRY MAX_RETRIES (inr ins) sched now
               packageName version cache in
  out.1.1 = Resolved r →
  MetadataGraph.FetchDep depName range d ∈ out.2 →
  depName ∈ UNSAFE_DEPENDENCIES ∨ depName ∈ ins →
  depName ∈ insecurePackages r.
Proof.
  intros Hmiss out. subst out.
  destruct (analyze_cases net NPM_REGISTRY MAX_RETRIES (inr ins)
              sched now packageName version cache)
    as [(cached & Hc & _) | (_ & r' & events & Hscan & ->)]; [congruence |].
  simpl. intros [= <-] Hin Hl.
  destruct Hscan as [| | | | ins' pkgData versionInfo Hload];
    try (by apply not_elem_of_nil in Hin);
    try (by apply list_elem_of_singleton in Hin).
  injection Hload as <-. by eapply traversed_fetched_checked.
Qed.

Lemma fetched_dependencies_are_checked_witness :
  "puppeteer" ∈ ["puppeteer"].
Proof.
  apply (fetched_dependencies_are_checked
           (Registry.serve Registry.flaky) Registry.url 3 ∅
           (λ _, 0) 0%Z "koishi-plugin-x" "2.1.0" ∅
           (mkResult true ["puppeteer"] 0%Z None) "puppeteer" "^21.0.0" 1).
  - apply lookup_empty.
  - by vm_compute.
  - vm_compute. do 4 apply list_elem_of_further. apply list_elem_of_here.
  - left. by vm_compute.
Defined.

(** ** The cache *)

(** X9.  After a scan, by either scanner, the cache holds the returned
    result under [name@version] and every other entry is as before; the
    cache size grows by one on a miss and stays on a hit. *)
Theorem scan_caches_its_result :
  (∀ net NPM_REGISTRY MAX_RETRIES load sched now packageName version cache,
      let out := MetadataGraph.analyzePackageDependencies
                   net NPM_REGISTRY MAX_RETRIES load sched now
                   packageName version cache in
      let key := packageName +:+ "@" +:+ version in
      (∃ r, out.1.1 = Resolved r ∧ out.1.2 !! key = Some r)
      ∧ (∀ k, k ≠ key → out.1.2 !! k = cache !! k)
      ∧ MetadataGraph.getAnalysisCacheSize out.1.2
        = match cache !! key with
          | Some _ => MetadataGraph.getAnalysisCacheSize cache
          | None => S (MetadataGraph.getAnalysisCacheSize cache)
          end)
  ∧ (∀ load mkdtemp writeFile install node_modules rm now
       packageName version cache dirs,
        let out := SandboxInstall.analyzePackageDependencies
                     load mkdtemp writeFile install node_modules rm now
                     packageName version cache dirs in
        let key := packageName +:+ "@" +:+ version in
        (∃ r, out.1.1.1 = Resolved r ∧ out.1.1.2 !! key = Some r)
        ∧ (∀ k, k ≠ key → out.1.1.2 !! k = cache !! k)
        ∧ SandboxInstall.getAnalysisCacheSize out.1.1.2
          = match cache !! key with
            | Some _ => SandboxInstall.getAnalysisCacheSize cache
            | None => S (SandboxInstall.getAnalysisCacheSize cache)
            end).
Proof.
  split.
  - intros. subst out key.
    destruct (analyze_cases net NPM_REGISTRY MAX_RETRIES load sched now
                packageName version cache)
      as [(cached & Hc & ->) | (Hc & r & events & _ & ->)]; simpl; rewrite Hc.
    + split_and!; [by exists cached | done | done].
    + split_and!.
      * exists r. split; [done | apply lookup_insert_eq].
      * intros k Hk. by apply lookup_insert_ne.
      * unfold MetadataGraph.getAnalysisCacheSize.
        by apply map_size_insert_None.
  - intros. subst out key.
    destruct (cache !! (packageName +:+ "@" +:+ version)) as [cached |] eqn:Hc.
    + erewrite sandbox_cached by done. simpl.
      split_and!; [by exists cached | done | done].
    + destruct (sandbox_fresh load mkdtemp writeFile install node_modules rm now
                  packageName version cache dirs Hc)
        as (r & thrown & tempDir & dirs1 & events & _ & Hout).
      simpl in Hout. rewrite Hout. simpl. split_and!.
      * eexists. split; [done | apply lookup_insert_eq].
      * intros k Hk. by apply lookup_insert_ne.
      * unfold SandboxInstall.getAnalysisCacheSize.
        by apply map_size_insert_None.
Qed.

(** ** Batches and merged dependencies *)

(** X10.  The batches of [traverseDependencies] cut the dependency entries
    into consecutive pieces: put back together they are the entries, in
    order; there are [ceil(n / 10)] of them; none is empty and none has more
    than 10 entries. *)
Theorem batches_partition {A} (depEntries : list A) :
  concat (MetadataGraph.batches depEntries) = depEntries
  ∧ length (MetadataGraph.batches depEntries) = (length depEntries + 9) / 10
  ∧ Forall (λ batch, 1 ≤ length batch ≤ 10) (MetadataGraph.batches depEntries).
Proof.
  split_and!; [apply concat_batches | |].
  - unfold MetadataGraph.batches, MetadataGraph.batch_starts.
    by rewrite !length_fmap, length_seq.
  - unfold MetadataGraph.batches, MetadataGraph.batch_starts,
      MetadataGraph.batchSize.
    rewrite <- list_fmap_compose. apply Forall_fmap, Forall_forall.
    intros k [_ Hk]%elem_of_seq. cbn beta. unfold slice, compose.
    rewrite length_take, length_drop.
    pose proof (Nat.div_mod_eq (length depEntries + (10 - 1)) 10).
    pose proof (Nat.mod_upper_bound (length depEntries + (10 - 1)) 10
                  ltac:(lia)).
    lia.
Qed.

Lemma get_put {V} k k' (v : V) o :
  get k (put k' v o) = if bool_decide (k' = k) then Some v else get k o.
Proof.
  induction o as [| [k0 v0] o IH]; simpl.
  - done.
  - destruct (decide (k0 = k')) as [-> | Hne].
    + rewrite bool_decide_eq_true_2 by done. simpl. by case_bool_decide.
    + rewrite (bool_decide_eq_false_2 (k0 = k')) by done. simpl.
      rewrite IH. repeat case_bool_decide; congruence.
Qed.

Lemma get_snoc {V} k (o : Obj V) kv :
  get k (o ++ [kv])
  = match get k o with
    | Some v => Some v
    | None => if bool_decide (kv.1 = k) then Some kv.2 else None
    end.
Proof.
  induction o as [| [k0 v0] o IH]; simpl.
  - by destruct kv.
  - destruct (bool_decide (k0 = k)); [done | apply IH].
Qed.

Lemma get_foldl_put {V} k (source : Obj V) :
  ∀ target,
    get k (foldl (λ acc kv, put kv.1 kv.2 acc) target source)
    = match get k (rev source) with
      | Some v => Some v
      | None => get k target
      end.
Proof.
  induction source as [| kv source IH]; intros target; simpl; [done |].
  rewrite IH, get_snoc, get_put.
  destruct (get k (rev source)); [done |].
  by destruct (bool_decide (kv.1 = k)).
Qed.

Lemma keys_put_NoDup {V} k (v : V) o : NoDup (keys o) → NoDup (keys (put k v o)).
Proof.
  unfold keys. induction o as [| [k0 v0] o IH]; simpl; intros Hnd.
  - apply NoDup_singleton.
  - apply NoDup_cons in Hnd as [Hk0 Hnd]. case_bool_decide as Hk; simpl.
    + subst k0. by apply NoDup_cons.
    + apply NoDup_cons. split; [| by apply IH].
      intros Hin. apply Hk0. clear -Hin Hk.
      induction o as [| [k1 v1] o IH]; simpl in *.
      * apply list_elem_of_singleton in Hin. congruence.
      * case_bool_decide; simpl in *.
        -- apply elem_of_cons in Hin as [-> | Hin]; [done |].
           by apply list_elem_of_further.
        -- apply elem_of_cons in Hin as [-> | Hin];
             [apply list_elem_of_here | by apply list_elem_of_further, IH].
Qed.

Lemma keys_spread_NoDup {V} (target : Obj V) source :
  NoDup (keys target) → NoDup (keys (spread target source)).
Proof.
  unfold spread. generalize (default [] source). intros l. revert target.
  induction l as [| kv l IH]; intros target Hnd; simpl; [done |].
  by apply IH, keys_put_NoDup.
Qed.

(** X11.  The merged dependencies of a manifest list every name once, and
    on a collision the later section wins: a name's range is the one in
    [optionalDependencies] if it is there, else the one in
    [peerDependencies], else the one in [dependencies] (within a section the
    last entry for a name counts). *)
Theorem allDeps_last_write_wins
        (versionInfo : MetadataGraph.VersionInfo) (depName : string) :
  let section := λ o : option (Obj string), get depName (rev (default [] o)) in
  NoDup (keys (MetadataGraph.allDeps_of versionInfo))
  ∧ get depName (MetadataGraph.allDeps_of versionInfo)
    = match section (MetadataGraph.optionalDependencies versionInfo) with
      | Some range => Some range
      | None =>
          match section (MetadataGraph.peerDependencies versionInfo) with
          | Some range => Some range
          | None => section (MetadataGraph.dependencies versionInfo)
          end
      end.
Proof.
  intros section. subst section. unfold MetadataGraph.allDeps_of. split.
  - do 3 apply keys_spread_NoDup. apply NoDup_nil_2.
  - unfold spread. rewrite !get_foldl_put. simpl.
    by repeat case_match.
Qed.

(** ** Numbers written and read back *)

Lemma digit_of_pretty_N_char d :
  (d < 10)%N → digit_of (pretty_N_char d) = Some (Z.of_N d).
Proof.
  intros Hd.
  assert (d = 0 ∨ d = 1 ∨ d = 2 ∨ d = 3 ∨ d = 4 ∨ d = 5 ∨ d = 6 ∨ d = 7
          ∨ d = 8 ∨ d = 9)%N as Hcases by lia.
  repeat (destruct Hcases as [-> | Hcases]; [reflexivity |]).
  by subst.
Qed.

Lemma pretty_N_char_plain d :
  (d < 10)%N →
  is_white (pretty_N_char d) = false
  ∧ pretty_N_char d ≠ "-"%char ∧ pretty_N_char d ≠ "+"%char.
Proof.
  intros Hd.
  assert (d = 0 ∨ d = 1 ∨ d = 2 ∨ d = 3 ∨ d = 4 ∨ d = 5 ∨ d = 6 ∨ d = 7
          ∨ d = 8 ∨ d = 9)%N as Hcases by lia.
  repeat (destruct Hcases as [-> | Hcases]; [by split_and! |]).
  subst. by split_and!.
Qed.

(** Reading the digits that [pretty] wrote gives the number back. *)
Lemma read_digits_pretty_N_go x :
  (0 < x)%N →
  ∀ s, read_digits (pretty_N_go x s) None = read_digits s (Some (Z.of_N x)).
Proof.
  induction (N.lt_wf_0 x) as [x _ IH]; intros Hx s.
  rewrite pretty_N_go_step by done.
  pose proof (N.mod_lt x 10 ltac:(lia)) as Hmod.
  pose proof (N.div_mod x 10 ltac:(lia)) as Hdiv.
  destruct (decide (x `div` 10 = 0)%N) as [H0 | H0].
  - rewrite H0, pretty_N_go_0. simpl.
    rewrite digit_of_pretty_N_char by done. simpl. do 2 f_equal. lia.
  - rewrite IH; [| apply N.div_lt; lia | by apply N.neq_0_lt_0]. simpl.
    rewrite digit_of_pretty_N_char by done. simpl. do 2 f_equal. lia.
Qed.

(** The first character [pretty] writes for a positive number is a digit. *)
Lemma pretty_N_go_head x :
  (0 < x)%N →
  ∀ s, ∃ d t, (d < 10)%N ∧ pretty_N_go x s = String (pretty_N_char d) t.
Proof.
  induction (N.lt_wf_0 x) as [x _ IH]; intros Hx s.
  rewrite pretty_N_go_step by done.
  destruct (decide (x `div` 10 = 0)%N) as [H0 | H0].
  - rewrite H0, pretty_N_go_0. eexists _, _. split; [| done].
    apply N.mod_lt. lia.
  - apply IH; [apply N.div_lt; lia | by apply N.neq_0_lt_0].
Qed.

Lemma parseInt_digits s d t :
  (d < 10)%N → s = String (pretty_N_char d) t →
  parseInt s = read_digits s None.
Proof.
  intros Hd ->. destruct (pretty_N_char_plain d Hd) as (Hw & Hm & Hp).
  unfold parseInt. simpl. rewrite Hw.
  destruct (pretty_N_char d) as [[] [] [] [] [] [] [] []]; try done.
Qed.

Lemma parseInt_pretty_pos p : parseInt (pretty (N.pos p)) = Some (Z.pos p).
Proof.
  unfold pretty, pretty_N. rewrite decide_False by done.
  destruct (pretty_N_go_head (N.pos p) ltac:(lia) "") as (d & t & Hd & Heq).
  rewrite (parseInt_digits _ d t Hd Heq).
  by rewrite read_digits_pretty_N_go by lia.
Qed.

(** [parseInt(String(z), 10)] is [z]. *)
Lemma parseInt_pretty (z : Z) : parseInt (pretty z) = Some z.
Proof.
  destruct z as [| p | p].
  - reflexivity.
  - apply parseInt_pretty_pos.
  - unfold pretty, pretty_Z, pretty, pretty_positive.
    unfold parseInt.
    change (skip_white ("-" +:+ pretty (N.pos p)))
      with (String "-" (pretty (N.pos p))).
    cbv iota beta.
    unfold pretty, pretty_N. rewrite decide_False by done.
    by rewrite read_digits_pretty_N_go by lia.
Qed.

Lemma read_digits_trimEnd s : ∀ acc, read_digits (trimEnd s) acc = read_digits s acc.
Proof.
  induction s as [| c s IH]; intros acc; [done |].
  simpl. destruct (trimEnd s) as [| c' t] eqn:Ht.
  - destruct (is_white c) eqn:Hw.
    + simpl. destruct (digit_of c) eqn:Hd; [| done].
      exfalso. clear -Hw Hd. unfold is_white, digit_of in *.
      case_bool_decide as Hn; [| done].
      apply bool_decide_eq_true in Hw.
      repeat (apply elem_of_cons in Hw as [Hw | Hw]; [lia |]).
      by apply not_elem_of_nil in Hw.
    + simpl. destruct (digit_of c); [| done]. by rewrite <- IH.
  - simpl. destruct (digit_of c); [| done]. by rewrite <- IH.
Qed.

Lemma trimEnd_head c s :
  is_white c = false → ∃ t, trimEnd (String c s) = String c t
                            ∧ ∀ acc, read_digits t acc = read_digits s acc.
Proof.
  intros Hw. simpl. destruct (trimEnd s) as [| c' t] eqn:Ht.
  - rewrite Hw. eexists. split; [done |]. intros acc.
    by rewrite <- (read_digits_trimEnd s), Ht.
  - eexists. split; [done |]. intros acc. by rewrite <- Ht, read_digits_trimEnd.
Qed.

Lemma skip_white_head s :
  skip_white s = EmptyString
  ∨ ∃ c t, skip_white s = String c t ∧ is_white c = false.
Proof.
  induction s as [| c s IH]; simpl; [by left |].
  destruct (is_white c) eqn:Hw; [done |]. right. by eexists _, _.
Qed.

(** [trim] does not change what [parseInt] reads. *)
Lemma parseInt_trim s : parseInt (trim s) = parseInt s.
Proof.
  unfold trim, parseInt at 2.
  destruct (skip_white_head s) as [-> | (c & t & -> & Hw)]; [done |].
  destruct (trimEnd_head c t Hw) as (t' & -> & Hread).
  unfold parseInt. simpl. rewrite Hw.
  destruct c as [[] [] [] [] [] [] [] []]; simpl; rewrite ?Hread; done.
Qed.

(** ** The update counter *)

Lemma readUpdateCounter_written z :
  UpdateCounter.readUpdateCounter false (Some (pretty z)) = z.
Proof.
  unfold UpdateCounter.readUpdateCounter.
  by rewrite parseInt_trim, parseInt_pretty.
Qed.

Lemma incrementUpdateCounter_written readFails file :
  UpdateCounter.incrementUpdateCounter readFails false file
  = ((UpdateCounter.readUpdateCounter readFails file + 1)%Z,
     Some (pretty (UpdateCounter.readUpdateCounter readFails file + 1)%Z)).
Proof. reflexivity. Qed.

(** X12.  What [incrementUpdateCounter] writes is read back by
    [readUpdateCounter].  As long as the counts stay safe integers: after an
    increment whose write succeeds, the counter reads one more than before,
    which is also what the increment returned, whatever the file held
    (nothing, a number with white space around it, or something that is not
    a number) and whether or not it could be read; an increment whose write
    fails returns the old count. *)
Theorem increment_is_read_back (readFails : bool) (file : option string) :
  let before := UpdateCounter.readUpdateCounter readFails file in
  let done := UpdateCounter.incrementUpdateCounter readFails false file in
  let lost := UpdateCounter.incrementUpdateCounter readFails true file in
  safe before → safe (before + 1) →
  done.1 = (before + 1)%Z
  ∧ UpdateCounter.readUpdateCounter false done.2 = done.1
  ∧ lost.1 = before.
Proof.
  intros before done lost _ _. subst done.
  rewrite incrementUpdateCounter_written.
  split_and!; [done | apply readUpdateCounter_written | done].
Qed.

Lemma increment_is_read_back_witness :
  let file := Some " 41
" in
  (UpdateCounter.incrementUpdateCounter false false file).1 = 42%Z
  ∧ UpdateCounter.readUpdateCounter false
      (UpdateCounter.incrementUpdateCounter false false file).2 = 42%Z
  ∧ (UpdateCounter.incrementUpdateCounter false true file).1 = 41%Z.
Proof.
  apply (increment_is_read_back false (Some " 41
")); vm_compute; split; discriminate.
Defined.

(** X13.  The counter counts: after a reset, [k] increments in a row (all
    writes succeeding, [k] below the largest safe integer) leave a counter
    that reads [k], and the next increment returns [k + 1]. *)
Theorem counter_counts_increments (file : option string) (k : nat) :
  let step := λ f, (UpdateCounter.incrementUpdateCounter false false f).2 in
  let after := Nat.iter k step (UpdateCounter.resetUpdateCounter false file) in
  safe (Z.of_nat (S k)) →
  UpdateCounter.readUpdateCounter false after = Z.of_nat k
  ∧ (UpdateCounter.incrementUpdateCounter false false after).1
    = Z.of_nat (S k).
Proof.
  intros step after _. subst after.
  assert (UpdateCounter.readUpdateCounter false
            (Nat.iter k step (UpdateCounter.resetUpdateCounter false file))
          = Z.of_nat k) as Hread.
  { induction k as [| k IH]; [reflexivity |].
    rewrite Nat.iter_succ. unfold step at 1.
    rewrite incrementUpdateCounter_written. cbn [snd].
    rewrite readUpdateCounter_written, IH. lia. }
  split; [done |].
  rewrite incrementUpdateCounter_written. cbn [fst]. rewrite Hread. lia.
Qed.

Lemma counter_counts_increments_witness :
  let step := λ f, (UpdateCounter.incrementUpdateCounter false false f).2 in
  let after := Nat.iter 3 step
                 (UpdateCounter.resetUpdateCounter false (Some "x")) in
  UpdateCounter.readUpdateCounter false after = 3%Z
  ∧ (UpdateCounter.incrementUpdateCounter false false after).1 = 4%Z.
Proof.
  apply (counter_counts_increments (Some "x") 3).
  vm_compute; split; discriminate.
Defined.

(** ** Package names *)

Lemma append_cons c (s t : string) : String c s +:+ t = String c (s +:+ t).
Proof. reflexivity. Qed.

Lemma append_nil_l (s : string) : "" +:+ s = s.
Proof. reflexivity. Qed.

Lemma append_nil_r (s : string) : s +:+ "" = s.
Proof.
  induction s as [| c s IH]; [done |]. by rewrite append_cons, IH.
Qed.

Lemma append_assoc (s1 s2 s3 : string) :
  (s1 +:+ s2) +:+ s3 = s1 +:+ s2 +:+ s3.
Proof.
  induction s1 as [| c s1 IH]; [done |]. by rewrite !append_cons, IH.
Qed.

Lemma append_eq_nil (s1 s2 : string) :
  s1 +:+ s2 = "" → s1 = "" ∧ s2 = "".
Proof. by destruct s1. Qed.

Lemma all_chars_app p (s1 s2 : string) :
  all_chars p (s1 +:+ s2) = all_chars p s1 && all_chars p s2.
Proof.
  induction s1 as [| c s1 IH]; [done |].
  rewrite append_cons. simpl. by rewrite IH, andb_assoc.
Qed.

Lemma all_chars_impl (p q : ascii → bool) (s : string) :
  (∀ c, p c = true → q c = true) →
  all_chars p s = true → all_chars q s = true.
Proof.
  intros Hpq. induction s as [| c s IH]; simpl; [done |].
  intros [Hc Hs]%andb_prop. by rewrite (Hpq _ Hc), IH.
Qed.

(** *** Expressions and the strings they stand for *)

Lemma matches_nil_nullable r s : matches r s → s = "" → nullable r = true.
Proof.
  induction 1 as [| | r1 r2 s1 s2 _ IH1 _ IH2 | r1 r2 s _ IH | r1 r2 s _ IH
                  | r s _ IH | r s1 s2 _ IH1 _ IH2]; intros Hs; simpl.
  - done.
  - done.
  - apply append_eq_nil in Hs as [-> ->]. by rewrite IH1, IH2.
  - by rewrite IH.
  - rewrite IH by done. apply orb_true_r.
  - by apply IH.
  - apply append_eq_nil in Hs as [-> ->]. by apply IH1.
Qed.

Lemma nullable_matches r : nullable r = true → matches r "".
Proof.
  induction r as [| | p | r1 IH1 r2 IH2 | r1 IH1 r2 IH2 | r IH]; simpl.
  - done.
  - constructor.
  - done.
  - intros [H1 H2]%andb_prop.
    apply (matches_Seq r1 r2 "" ""); auto.
  - intros [H | H]%orb_prop.
    + apply matches_Alt_l; auto.
    + apply matches_Alt_r; auto.
  - intros H. apply matches_Plus_one; auto.
Qed.

Lemma derive_matches r : ∀ c s, matches (derive c r) s → matches r (String c s).
Proof.
  induction r as [| | p | r1 IH1 r2 IH2 | r1 IH1 r2 IH2 | r IH];
    intros c s; simpl.
  - inversion 1.
  - inversion 1.
  - destruct (p c) eqn:Hp; inversion 1; subst. by constructor.
  - assert (∀ t, matches (Seq (derive c r1) r2) t →
                 matches (Seq r1 r2) (String c t)) as Hseq.
    { intros t Ht. inversion Ht as [| | ? ? s1 s2 H1 H2 | | | |]; subst.
      apply (matches_Seq r1 r2 (String c s1) s2); auto. }
    destruct (nullable r1) eqn:Hn; [| by apply Hseq].
    inversion 1 as [| | | ? ? ? Hl | ? ? ? Hr | |]; subst; [by apply Hseq |].
    apply (matches_Seq r1 r2 "" (String c s)); [| by apply IH2].
    by apply nullable_matches.
  - inversion 1 as [| | | ? ? ? Hl | ? ? ? Hr | |]; subst.
    + apply matches_Alt_l; auto.
    + apply matches_Alt_r; auto.
  - inversion 1 as [| | ? ? s1 s2 H1 H2 | | | |]; subst.
    inversion H2 as [| | | ? ? ? Hl | ? ? ? Hr | |]; subst.
    + inversion Hl; subst. rewrite append_nil_r.
      apply matches_Plus_one; auto.
    + apply (matches_Plus_more r (String c s1) s2); auto.
Qed.

Lemma matches_derive r s' :
  matches r s' → ∀ c s, s' = String c s → matches (derive c r) s.
Proof.
  induction 1 as [| p c' Hp | r1 r2 s1 s2 H1 IH1 H2 IH2
                  | r1 r2 s' _ IH | r1 r2 s' _ IH
                  | r s' _ IH | r s1 s2 H1 IH1 H2 IH2]; intros c s Hs; simpl.
  - done.
  - injection Hs as <- <-. rewrite Hp. constructor.
  - destruct s1 as [| c1 s1]; rewrite ?append_cons, ?append_nil_l in Hs.
    + rewrite (matches_nil_nullable _ _ H1 eq_refl).
      apply matches_Alt_r; auto.
    + injection Hs as -> <-.
      assert (matches (Seq (derive c r1) r2) (s1 +:+ s2)) as Hseq
        by (constructor; auto).
      destruct (nullable r1); [by apply matches_Alt_l | done].
  - apply matches_Alt_l; auto.
  - apply matches_Alt_r; auto.
  - rewrite <- (append_nil_r s).
    constructor; [auto |]. apply matches_Alt_l. constructor.
  - destruct s1 as [| c1 s1]; rewrite ?append_cons, ?append_nil_l in Hs.
    + exact (IH2 _ _ Hs).
    + injection Hs as -> <-.
      constructor; [auto |]. by apply matches_Alt_r.
Qed.

(** [test] decides [matches]. *)
Lemma test_matches r s : test r s = true ↔ matches r s.
Proof.
  revert r. induction s as [| c s IH]; intros r; simpl.
  - split; [apply nullable_matches |].
    intros H. by apply (matches_nil_nullable r "").
  - rewrite IH. split; [apply derive_matches |].
    intros H. by apply (matches_derive r (String c s)).
Qed.

Lemma matches_Seq_inv r1 r2 s :
  matches (Seq r1 r2) s →
  ∃ s1 s2, s = s1 +:+ s2 ∧ matches r1 s1 ∧ matches r2 s2.
Proof. inversion 1; subst; eauto. Qed.

Lemma matches_Alt_inv r1 r2 s :
  matches (Alt r1 r2) s → matches r1 s ∨ matches r2 s.
Proof. inversion 1; subst; auto. Qed.

Lemma matches_Lit l : matches (Lit l) l.
Proof.
  induction l as [| c l IH]; simpl; [constructor |].
  apply (matches_Seq _ _ (String c "") l); [| done].
  constructor. apply Ascii.eqb_refl.
Qed.

Lemma matches_Lit_inv l s : matches (Lit l) s → s = l.
Proof.
  revert s. induction l as [| c l IH]; intros s; simpl.
  - by inversion 1.
  - intros (s1 & s2 & -> & H1 & H2)%matches_Seq_inv.
    inversion H1 as [| p c' Hc | | | | |]; subst.
    apply Ascii.eqb_eq in Hc as <-.
    by rewrite append_cons, append_nil_l, (IH _ H2).
Qed.

Lemma matches_Plus_Class p s :
  matches (Plus (Class p)) s ↔ s ≠ "" ∧ all_chars p s = true.
Proof.
  split.
  - remember (Plus (Class p)) as r eqn:Hr. intros H. revert Hr.
    induction H as [| | | | | r s H _ | r s1 s2 H1 _ H2 IH2]; try done.
    + intros [= ->]. inversion H as [| ? c Hc | | | | |]; subst.
      simpl. by rewrite Hc.
    + intros [= ->]. inversion H1 as [| ? c Hc | | | | |]; subst.
      simpl. rewrite Hc. split; [done |]. by apply IH2.
  - intros [Hne Hall]. induction s as [| c s IH]; [done |].
    simpl in Hall. apply andb_prop in Hall as [Hc Hs].
    destruct s as [| c' s].
    + apply matches_Plus_one. by constructor.
    + apply (matches_Plus_more _ (String c "") (String c' s)).
      * by constructor.
      * by apply IH.
Qed.

(** *** [startsWith], [replace] and [split] on composed strings *)

Lemma prefix_nil (s : string) : String.prefix "" s = true.
Proof. by destruct s. Qed.

Lemma prefix_app (p s : string) : String.prefix p (p +:+ s) = true.
Proof.
  induction p as [| c p IH]; [apply prefix_nil |].
  rewrite append_cons, prefix_cons. by destruct (Ascii.ascii_dec c c).
Qed.

Lemma skip_app (p s : string) : skip (String.length p) (p +:+ s) = s.
Proof. induction p as [| c p IH]; [done |]. by rewrite append_cons. Qed.

Lemma replace_unfold (s pattern replacement : string) :
  replace s pattern replacement
  = if String.prefix pattern s then
      replacement +:+ skip (String.length pattern) s
    else
      match s with
      | EmptyString => EmptyString
      | String c s' => String c (replace s' pattern replacement)
      end.
Proof. by destruct s. Qed.

(** A pattern at the start of the string is the one replaced. *)
Lemma replace_prefix (p s r : string) : replace (p +:+ s) p r = r +:+ s.
Proof. by rewrite replace_unfold, prefix_app, skip_app. Qed.

(** A string without the pattern's first character is left as it is. *)
Lemma replace_absent c (p s r : string) :
  all_chars (λ x, negb (Ascii.eqb x c)) s = true →
  replace s (String c p) r = s.
Proof.
  induction s as [| x s IH]; [done |].
  simpl all_chars. intros [Hx Hs]%andb_prop.
  rewrite replace_unfold, prefix_cons.
  destruct (Ascii.ascii_dec c x) as [-> |].
  - by rewrite Ascii.eqb_refl in Hx.
  - by rewrite IH.
Qed.

Lemma split_nonempty sep s : split sep s ≠ [].
Proof.
  destruct s as [| c s]; [done |]. simpl.
  destruct (Ascii.eqb c sep); [done |]. by destruct (split sep s).
Qed.

(** Without the separator there is one part, the string itself. *)
Lemma split_absent sep s :
  all_chars (λ x, negb (Ascii.eqb x sep)) s = true → split sep s = [s].
Proof.
  induction s as [| c s IH]; [done |].
  simpl. intros [Hc Hs]%andb_prop.
  apply negb_true_iff in Hc. by rewrite Hc, IH.
Qed.

(** The first part ends at the first separator. *)
Lemma split_first sep s1 s2 :
  all_chars (λ x, negb (Ascii.eqb x sep)) s1 = true →
  split sep (s1 +:+ String sep s2) = s1 :: split sep s2.
Proof.
  induction s1 as [| c s1 IH].
  - intros _. rewrite append_nil_l. simpl. by rewrite Ascii.eqb_refl.
  - simpl all_chars. intros [Hc Hs]%andb_prop.
    apply negb_true_iff in Hc.
    rewrite append_cons. simpl. by rewrite Hc, IH.
Qed.

(** With a separator there are at least two parts. *)
Lemma split_present sep s :
  all_chars (λ x, negb (Ascii.eqb x sep)) s = false →
  ∃ part1 part2 parts, split sep s = part1 :: part2 :: parts.
Proof.
  induction s as [| c s IH]; [done |]. simpl.
  destruct (Ascii.eqb c sep) eqn:Hc; simpl.
  - intros _. pose proof (split_nonempty sep s).
    destruct (split sep s) as [| part parts]; [done | eauto].
  - intros (part1 & part2 & parts & ->)%IH. eauto.
Qed.

(** Two strings without a separator that are followed by one are equal as
    soon as one starts the other. *)
Lemma prefix_upto_sep sep (p scope t : string) :
  all_chars (λ x, negb (Ascii.eqb x sep)) p = true →
  all_chars (λ x, negb (Ascii.eqb x sep)) scope = true →
  String.prefix (p +:+ String sep "") (scope +:+ String sep t) = true →
  scope = p.
Proof.
  revert scope. induction p as [| a p IH]; intros [| c scope];
    simpl all_chars; rewrite ?append_cons, ?append_nil_l, ?prefix_cons.
  - done.
  - intros _ [Hc _]%andb_prop.
    destruct (Ascii.ascii_dec sep c) as [<- |]; [| done].
    by rewrite Ascii.eqb_refl in Hc.
  - intros [Ha _]%andb_prop _.
    destruct (Ascii.ascii_dec a sep) as [-> |]; [| done].
    by rewrite Ascii.eqb_refl in Ha.
  - intros [_ Hp]%andb_prop [_ Hs]%andb_prop.
    destruct (Ascii.ascii_dec a c) as [-> |]; [| done].
    intros H. by rewrite (IH scope Hp Hs H).
Qed.

(** *** Short names *)

(** The three shapes of a name that [VALID_PACKAGE_PATTERN] accepts. *)
Lemma VALID_PACKAGE_PATTERN_shapes name :
  test Plugins.VALID_PACKAGE_PATTERN name = true ↔
  ∃ rest,
    rest ≠ "" ∧ all_chars (λ c, is_word c || Ascii.eqb c "-") rest = true ∧
    (name = "koishi-plugin-" +:+ rest
     ∨ name = "@koishijs/plugin-" +:+ rest
     ∨ ∃ scope,
         scope ≠ "" ∧ all_chars (λ c, negb (Ascii.eqb c "/")) scope = true ∧
         name = "@" +:+ scope +:+ "/koishi-plugin-" +:+ rest).
Proof.
  rewrite test_matches. unfold Plugins.VALID_PACKAGE_PATTERN. split.
  - intros (s1 & rest & -> & H1 & [Hne Hrest]%matches_Plus_Class)%matches_Seq_inv.
    exists rest. split_and!; [done | done |].
    apply matches_Alt_inv in H1 as [H1 | H1].
    + right; right.
      apply matches_Seq_inv in H1 as (at_ & s' & -> & ->%matches_Lit_inv & H1).
      apply matches_Seq_inv in H1
        as (scope & lit & -> & [? ?]%matches_Plus_Class & ->%matches_Lit_inv).
      exists scope. split_and!; [done | done |].
      by rewrite !append_assoc.
    + apply matches_Alt_inv in H1 as [->%matches_Lit_inv | ->%matches_Lit_inv];
        auto.
  - intros (rest & Hne & Hrest & Hname).
    assert (matches (Plus (Class (λ c, is_word c || Ascii.eqb c "-"))) rest)
      as Hplus by by apply matches_Plus_Class.
    destruct Hname as [-> | [-> | (scope & Hs & Hscope & ->)]].
    + constructor; [| done]. do 2 apply matches_Alt_r. apply matches_Lit.
    + constructor; [| done]. apply matches_Alt_r, matches_Alt_l, matches_Lit.
    + rewrite <- !append_assoc. constructor; [| done]. apply matches_Alt_l.
      rewrite append_assoc.
      constructor; [apply matches_Lit |].
      constructor; [| apply matches_Lit]. by apply matches_Plus_Class.
Qed.

Lemma prefix_split (p s : string) :
  String.prefix p s = true → ∃ t, s = p +:+ t.
Proof.
  revert s. induction p as [| a p IH]; intros s; [by exists s |].
  destruct s as [| c s]; [done |]. rewrite prefix_cons.
  destruct (Ascii.ascii_dec a c) as [-> |]; [| done].
  intros [t ->]%IH. by exists t.
Qed.

Lemma word_no_slash (s : string) :
  all_chars (λ c, is_word c || Ascii.eqb c "-") s = true →
  all_chars (λ c, negb (Ascii.eqb c "/")) s = true.
Proof.
  apply all_chars_impl. intros c Hc. apply negb_true_iff, Ascii.eqb_neq.
  by intros ->.
Qed.

Lemma word_no_at (s : string) :
  all_chars (λ c, is_word c || Ascii.eqb c "-") s = true →
  all_chars (λ c, negb (Ascii.eqb c "@")) s = true.
Proof.
  apply all_chars_impl. intros c Hc. apply negb_true_iff, Ascii.eqb_neq.
  by intros ->.
Qed.

Lemma shortname_plain (rest : string) :
  Plugins.getPackageShortname ("koishi-plugin-" +:+ rest) = Normal rest.
Proof.
  unfold Plugins.getPackageShortname, startsWith.
  assert (String.prefix "@koishijs/" ("koishi-plugin-" +:+ rest) = false)
    as -> by reflexivity.
  assert (String.prefix "@" ("koishi-plugin-" +:+ rest) = false)
    as -> by reflexivity.
  by rewrite replace_prefix.
Qed.

Lemma shortname_official (rest : string) :
  Plugins.getPackageShortname ("@koishijs/plugin-" +:+ rest) = Normal rest.
Proof.
  unfold Plugins.getPackageShortname, startsWith.
  assert (String.prefix "@koishijs/" ("@koishijs/plugin-" +:+ rest) = true)
    as -> by apply (prefix_app "@koishijs/" ("plugin-" +:+ rest)).
  by rewrite replace_prefix.
Qed.

Lemma shortname_official_community (rest : string) :
  all_chars (λ c, is_word c || Ascii.eqb c "-") rest = true →
  Plugins.getPackageShortname ("@koishijs/koishi-plugin-" +:+ rest)
  = Normal ("@koishijs/koishi-plugin-" +:+ rest).
Proof.
  intros Hrest. unfold Plugins.getPackageShortname, startsWith.
  assert (String.prefix "@koishijs/" ("@koishijs/koishi-plugin-" +:+ rest)
          = true)
    as -> by apply (prefix_app "@koishijs/" ("koishi-plugin-" +:+ rest)).
  f_equal. rewrite replace_unfold.
  assert (String.prefix "@koishijs/plugin-"
            ("@koishijs/koishi-plugin-" +:+ rest) = false)
    as -> by reflexivity.
  change ("@koishijs/koishi-plugin-" +:+ rest)
    with (String "@" ("koishijs/koishi-plugin-" +:+ rest)).
  f_equal. apply replace_absent.
  by rewrite all_chars_app, (word_no_at rest).
Qed.

Lemma shortname_scoped (scope rest : string) :
  all_chars (λ c, negb (Ascii.eqb c "/")) scope = true →
  all_chars (λ c, is_word c || Ascii.eqb c "-") rest = true →
  scope ≠ "koishijs" →
  Plugins.getPackageShortname ("@" +:+ scope +:+ "/koishi-plugin-" +:+ rest)
  = Normal ("@" +:+ scope +:+ "/" +:+ rest).
Proof.
  intros Hscope Hrest Hne. unfold Plugins.getPackageShortname, startsWith.
  destruct (String.prefix "@koishijs/" _) eqn:Hpre.
  { destruct Hne.
    by apply (prefix_upto_sep "/" "koishijs" scope
                ("koishi-plugin-" +:+ rest)). }
  rewrite (prefix_app "@").
  change ("@" +:+ scope +:+ "/koishi-plugin-" +:+ rest)
    with (("@" +:+ scope) +:+ String "/" ("koishi-plugin-" +:+ rest)).
  rewrite split_first by done.
  rewrite split_absent
    by (by rewrite all_chars_app, (word_no_slash rest)).
  by rewrite replace_prefix.
Qed.

(** X14.  Every name that the scanner's filter [VALID_PACKAGE_PATTERN]
    lets through has a short name: [getPackageShortname] returns without
    throwing, and what it returns depends on the shape of the name only:
    [koishi-plugin-x] and [@koishijs/plugin-x] give [x], a community
    package [@scope/koishi-plugin-x] gives [@scope/x], and
    [@koishijs/koishi-plugin-x], which the filter accepts as well, keeps its
    whole name.  The first and third are not verified, the other two are. *)
Theorem valid_names_have_shortnames (name : string) :
  test Plugins.VALID_PACKAGE_PATTERN name = true →
  ∃ rest,
    rest ≠ "" ∧ all_chars (λ c, is_word c || Ascii.eqb c "-") rest = true ∧
    ((name = "koishi-plugin-" +:+ rest
      ∧ Plugins.getPackageShortname name = Normal rest
      ∧ Plugins.isVerifiedPackage name = false)
     ∨ (name = "@koishijs/plugin-" +:+ rest
        ∧ Plugins.getPackageShortname name = Normal rest
        ∧ Plugins.isVerifiedPackage name = true)
     ∨ (∃ scope,
          scope ≠ "" ∧ scope ≠ "koishijs"
          ∧ all_chars (λ c, negb (Ascii.eqb c "/")) scope = true
          ∧ name = "@" +:+ scope +:+ "/koishi-plugin-" +:+ rest
          ∧ Plugins.getPackageShortname name
            = Normal ("@" +:+ scope +:+ "/" +:+ rest)
          ∧ Plugins.isVerifiedPackage name = false)
     ∨ (name = "@koishijs/koishi-plugin-" +:+ rest
        ∧ Plugins.getPackageShortname name = Normal name
        ∧ Plugins.isVerifiedPackage name = true)).
Proof.
  intros (rest & Hne & Hrest & Hname)%VALID_PACKAGE_PATTERN_shapes.
  exists rest. split_and!; [done | done |].
  destruct Hname as [-> | [-> | (scope & Hs & Hscope & ->)]].
  - left. split_and!; [done | apply shortname_plain | done].
  - right; left. split_and!; [done | apply shortname_official |].
    apply (prefix_app "@koishijs/" ("plugin-" +:+ rest)).
  - destruct (decide (scope = "koishijs")) as [-> | Hk].
    + do 3 right.
      split_and!; [done | by apply shortname_official_community |].
      apply (prefix_app "@koishijs/" ("koishi-plugin-" +:+ rest)).
    + right; right; left. exists scope.
      split_and!; [done | done | done | done | by apply shortname_scoped |].
      unfold Plugins.isVerifiedPackage, startsWith.
      destruct (String.prefix "@koishijs/" _) eqn:Hpre; [| done].
      destruct Hk.
      by apply (prefix_upto_sep "/" "koishijs" scope
                  ("koishi-plugin-" +:+ rest)).
Qed.

Lemma valid_names_have_shortnames_witness :
  ∃ rest,
    rest ≠ "" ∧ all_chars (λ c, is_word c || Ascii.eqb c "-") rest = true ∧
    (("@koishijs/koishi-plugin-echo" = "koishi-plugin-" +:+ rest
      ∧ Plugins.getPackageShortname "@koishijs/koishi-plugin-echo"
        = Normal rest
      ∧ Plugins.isVerifiedPackage "@koishijs/koishi-plugin-echo" = false)
     ∨ ("@koishijs/koishi-plugin-echo" = "@koishijs/plugin-" +:+ rest
        ∧ Plugins.getPackageShortname "@koishijs/koishi-plugin-echo"
          = Normal rest
        ∧ Plugins.isVerifiedPackage "@koishijs/koishi-plugin-echo" = true)
     ∨ (∃ scope,
          scope ≠ "" ∧ scope ≠ "koishijs"
          ∧ all_chars (λ c, negb (Ascii.eqb c "/")) scope = true
          ∧ "@koishijs/koishi-plugin-echo"
            = "@" +:+ scope +:+ "/koishi-plugin-" +:+ rest
          ∧ Plugins.getPackageShortname "@koishijs/koishi-plugin-echo"
            = Normal ("@" +:+ scope +:+ "/" +:+ rest)
          ∧ Plugins.isVerifiedPackage "@koishijs/koishi-plugin-echo" = false)
     ∨ ("@koishijs/koishi-plugin-echo" = "@koishijs/koishi-plugin-" +:+ rest
        ∧ Plugins.getPackageShortname "@koishijs/koishi-plugin-echo"
          = Normal "@koishijs/koishi-plugin-echo"
        ∧ Plugins.isVerifiedPackage "@koishijs/koishi-plugin-echo" = true)).
Proof.
  apply (valid_names_have_shortnames "@koishijs/koishi-plugin-echo").
  vm_compute. reflexivity.
Defined.

(** X15.  [getPackageShortname] throws exactly on the names that start with
    [@] and have no [/]: there [name.split('/')] has one part, [pkgName] is
    [undefined] and [pkgName.replace] is a [TypeError].  Every other string
    has a short name. *)
Theorem getPackageShortname_throws (name : string) :
  (∃ message, Plugins.getPackageShortname name = TypeError message)
  ↔ startsWith name "@" = true
    ∧ all_chars (λ c, negb (Ascii.eqb c "/")) name = true.
Proof.
  unfold Plugins.getPackageShortname, startsWith.
  destruct (String.prefix "@koishijs/" name) eqn:Hofficial.
  { apply prefix_split in Hofficial as [t ->].
    split; [by intros [? ?] | by intros [_ ?]]. }
  destruct (String.prefix "@" name) eqn:Hat;
    [| split; [by intros [? ?] | by intros [? _]]].
  destruct (all_chars (λ c, negb (Ascii.eqb c "/")) name) eqn:Hslash.
  - rewrite split_absent by done. split; [done | eauto].
  - apply split_present in Hslash as (part1 & part2 & parts & ->).
    split; [by intros [? ?] | by intros [_ ?]].
Qed.

(** ** The scan of the registry *)

Section pages_facts.
Context {Plugin : Type}.
Variable search : nat → option (PluginScan.Page Plugin).

Lemma unset_positive (N : Z) : (0 < N)%Z → PluginScan.unset (Some N) = false.
Proof. by destruct N. Qed.

Lemma pages_S fuel plugins fromOffset totalPackages skipped requests :
  PluginScan.pages search (S fuel) plugins fromOffset totalPackages skipped
                   requests
  = match search fromOffset with
    | None => Some (requests ++ [fromOffset], PluginScan.Rejects)
    | Some data =>
        let totalPackages :=
          if PluginScan.unset totalPackages then PluginScan.total data
          else totalPackages in
        let batchResults :=
          PluginScan.details
          <$> filter (λ r, PluginScan.valid r = true)
                     (PluginScan.objects data) in
        if bool_decide (length (PluginScan.objects data) = 0) then
          Some (requests ++ [fromOffset], PluginScan.Resolves plugins skipped)
        else if PluginScan.reached
                  (fromOffset + length (PluginScan.objects data))
                  totalPackages then
          Some (requests ++ [fromOffset],
                PluginScan.Resolves
                  (plugins ++ omap id batchResults)
                  (skipped
                   + (length batchResults - length (omap id batchResults))))
        else
          PluginScan.pages search fuel (plugins ++ omap id batchResults)
            (fromOffset + length (PluginScan.objects data)) totalPackages
            (skipped + (length batchResults - length (omap id batchResults)))
            (requests ++ [fromOffset])
    end.
Proof. reflexivity. Qed.

(** The first answer fixes [totalPackages] when its total is truthy. *)
Lemma pages_first fuel plugins skipped requests page N :
  search 0 = Some page → PluginScan.total page = Some N → (0 < N)%Z →
  PluginScan.pages search fuel plugins 0 None skipped requests
  = PluginScan.pages search fuel plugins 0 (Some N) skipped requests.
Proof.
  intros Hsearch Htotal HN. destruct fuel as [| fuel]; [done |].
  rewrite !pages_S, Hsearch. cbn zeta.
  by rewrite Htotal, (unset_positive N HN).
Qed.

Lemma pages_bounded (N : Z) :
  (0 < N)%Z →
  ∀ fuel plugins fromOffset skipped requests,
    (Z.of_nat fromOffset < N)%Z → Z.to_nat N - fromOffset ≤ fuel →
    ∃ more settles,
      PluginScan.pages search fuel plugins fromOffset (Some N) skipped
                       requests
      = Some (requests ++ more, settles)
      ∧ length more ≤ Z.to_nat N - fromOffset
      ∧ hd_error more = Some fromOffset
      ∧ StronglySorted lt more.
Proof.
  intros HN fuel.
  induction fuel as [| fuel IH]; intros plugins fromOffset skipped requests
    Hfrom Hfuel; [lia |].
  assert (∀ settles : PluginScan.Settles Plugin,
            ∃ more settles',
              Some (requests ++ [fromOffset], settles)
              = Some (requests ++ more, settles')
              ∧ length more ≤ Z.to_nat N - fromOffset
              ∧ hd_error more = Some fromOffset
              ∧ StronglySorted lt more) as Hend.
  { intros settles. exists [fromOffset], settles.
    split_and!; [done | simpl; lia | done |]. repeat constructor. }
  rewrite pages_S. destruct (search fromOffset) as [data |]; [| apply Hend].
  cbn zeta. rewrite (unset_positive N HN).
  case_bool_decide as Hempty; [apply Hend |].
  destruct (PluginScan.reached _ _) eqn:Hreached; [apply Hend |].
  unfold PluginScan.reached in Hreached.
  apply bool_decide_eq_false in Hreached.
  edestruct (IH (plugins
                 ++ omap id (PluginScan.details
                             <$> filter (λ r, PluginScan.valid r = true)
                                        (PluginScan.objects data)))
                (fromOffset + length (PluginScan.objects data))
                (skipped
                 + (length (PluginScan.details
                            <$> filter (λ r, PluginScan.valid r = true)
                                       (PluginScan.objects data))
                    - length (omap id
                                (PluginScan.details
                                 <$> filter (λ r, PluginScan.valid r = true)
                                            (PluginScan.objects data)))))
                (requests ++ [fromOffset]))
    as (more & settles & -> & Hlen & Hhd & Hsorted); [lia | lia |].
  exists (fromOffset :: more), settles.
  split_and!.
  - by rewrite <- app_assoc.
  - simpl. lia.
  - done.
  - constructor; [done |].
    destruct more as [| o more]; [constructor |].
    injection Hhd as ->.
    apply StronglySorted_inv in Hsorted as [_ Hall].
    constructor; [lia |].
    eapply Forall_impl; [exact Hall |]. simpl. lia.
Qed.

(** Without a total, and with results on every page, the loop goes on. *)
Lemma pages_endless :
  (∀ fromOffset, ∃ page,
     search fromOffset = Some page ∧ PluginScan.total page = None
     ∧ PluginScan.objects page ≠ []) →
  ∀ fuel plugins fromOffset skipped requests,
    PluginScan.pages search fuel plugins fromOffset None skipped requests
    = None.
Proof.
  intros Hsearch fuel.
  induction fuel as [| fuel IH]; intros plugins fromOffset skipped requests;
    [done |].
  destruct (Hsearch fromOffset) as (page & Hpage & Htotal & Hobjects).
  rewrite pages_S, Hpage. cbn zeta. rewrite Htotal.
  change (PluginScan.unset None) with true. cbn iota.
  rewrite bool_decide_eq_false_2; [apply IH |].
  by destruct (PluginScan.objects page).
Qed.
End pages_facts.

(** X16.  The scan stops once the offset has reached the total that the
    first page announced: when that total is a positive number [N], the
    scan settles after at most [N] search requests, whatever the registry
    answers, and the offsets it asks for start at 0 and increase strictly
    (no page is requested twice). *)
Theorem scan_ends_within_total
        {Plugin} (search : nat → option (PluginScan.Page Plugin))
        (page : PluginScan.Page Plugin) (N : Z) (fuel : nat) :
  search 0 = Some page → PluginScan.total page = Some N → (0 < N)%Z →
  Z.to_nat N ≤ fuel →
  ∃ requests settles,
    PluginScan.fetchKoishiPlugins true search fuel = Some (requests, settles)
    ∧ length requests ≤ Z.to_nat N
    ∧ hd_error requests = Some 0
    ∧ StronglySorted lt requests.
Proof.
  intros Hsearch Htotal HN Hfuel. unfold PluginScan.fetchKoishiPlugins.
  rewrite (pages_first search fuel [] 0 [] page N Hsearch Htotal HN).
  destruct (pages_bounded search N HN fuel [] 0 0 [])
    as (more & settles & -> & Hlen & Hhd & Hsorted); [lia | lia |].
  exists more, settles. split_and!; [done | lia | done | done].
Qed.

Lemma scan_ends_within_total_witness :
  let entry := PluginScan.mkSearchResult (Some "koishi-plugin-echo")
                                         (Some "echo") in
  ∃ requests settles,
    PluginScan.fetchKoishiPlugins
      true (PluginScan.paged [entry; entry; entry] 2) 3
    = Some (requests, settles)
    ∧ length requests ≤ Z.to_nat 3
    ∧ hd_error requests = Some 0
    ∧ StronglySorted lt requests.
Proof.
  intros entry.
  apply (scan_ends_within_total
           (PluginScan.paged [entry; entry; entry] 2)
           (PluginScan.mkPage (Some 3%Z) [entry; entry]) 3%Z 3);
    [reflexivity | reflexivity | reflexivity | simpl; lia].
Defined.

(** X17.  The loop has no other way out: against a registry that never
    reports a total and has results on every page, [fromOffset >=
    totalPackages] compares with [undefined] and is never true, so the scan
    does not return, whatever the number of iterations. *)
Theorem scan_without_total_never_ends {Plugin}
        (search : nat → option (PluginScan.Page Plugin)) :
  (∀ fromOffset, ∃ page,
     search fromOffset = Some page ∧ PluginScan.total page = None
     ∧ PluginScan.objects page ≠ []) →
  ∀ fuel, PluginScan.fetchKoishiPlugins true search fuel = None.
Proof.
  intros Hsearch fuel. unfold PluginScan.fetchKoishiPlugins.
  by apply pages_endless.
Qed.

Lemma scan_without_total_never_ends_witness :
  PluginScan.fetchKoishiPlugins
    true
    (PluginScan.endless
       (PluginScan.mkSearchResult (Some "koishi-plugin-echo") (Some "echo")))
    1000
  = None.
Proof.
  apply (scan_without_total_never_ends
           (PluginScan.endless
              (PluginScan.mkSearchResult (Some "koishi-plugin-echo")
                                         (Some "echo")))).
  intros fromOffset. eexists. split_and!; [reflexivity | reflexivity | done].
Defined.

Lemma omap_id_fmap {A B} (f : A → option B) (l : list A) :
  omap id (f <$> l) = omap f l.
Proof.
  induction l as [| a l IH]; [done |]. csimpl.
  destruct (f a); simpl; by rewrite IH.
Qed.

Lemma length_omap_le {A B} (f : A → option B) (l : list A) :
  length (omap f l) ≤ length l.
Proof.
  induction l as [| a l IH]; [done |]. csimpl.
  destruct (f a); simpl; lia.
Qed.

Lemma pages_count_step (n fromOffset size : nat) :
  0 < size → fromOffset + size < n →
  (n - fromOffset + size - 1) / size
  = S ((n - (fromOffset + size) + size - 1) / size).
Proof.
  intros Hsize Hlt.
  replace (n - fromOffset + size - 1)
    with ((n - (fromOffset + size) + size - 1) + 1 * size) by lia.
  rewrite Nat.div_add by lia. lia.
Qed.

Lemma pages_count_last (n fromOffset size : nat) :
  fromOffset < n → n ≤ fromOffset + size →
  (n - fromOffset + size - 1) / size = 1.
Proof.
  intros Hlt Hle.
  replace (n - fromOffset + size - 1)
    with ((n - fromOffset - 1) + 1 * size) by lia.
  rewrite Nat.div_add by lia. rewrite Nat.div_small by lia. done.
Qed.

Section paged_facts.
Context {Plugin : Type}.
Variable entries : list (PluginScan.SearchResult Plugin).
Variable size : nat.
Hypothesis size_pos : 0 < size.

Local Abbreviation accepted l :=
  (filter (λ r : PluginScan.SearchResult Plugin, PluginScan.valid r = true) l).

Lemma pages_paged fuel :
  ∀ plugins fromOffset skipped requests,
    fromOffset < length entries → length entries - fromOffset ≤ fuel →
    PluginScan.pages (PluginScan.paged entries size) fuel plugins fromOffset
                     (Some (Z.of_nat (length entries))) skipped requests
    = Some (requests
            ++ ((λ k, fromOffset + k * size)
                <$> seq 0 ((length entries - fromOffset + size - 1) / size)),
            PluginScan.Resolves
              (plugins
               ++ omap PluginScan.details (accepted (drop fromOffset entries)))
              (skipped
               + (length (accepted (drop fromOffset entries))
                  - length (omap PluginScan.details
                              (accepted (drop fromOffset entries)))))).
Proof.
  induction fuel as [| fuel IH]; intros plugins fromOffset skipped requests
    Hfrom Hfuel; [lia |].
  rewrite pages_S. unfold PluginScan.paged at 1. cbn zeta.
  cbn [PluginScan.total PluginScan.objects].
  rewrite unset_positive by lia.
  rewrite length_take, length_drop, !omap_id_fmap, !length_fmap.
  rewrite bool_decide_eq_false_2 by lia.
  unfold PluginScan.reached.
  pose proof (take_drop size (drop fromOffset entries)) as Hsplit.
  destruct (decide (fromOffset + size < length entries)) as [Hmore | Hlast].
  - rewrite bool_decide_eq_false_2 by lia.
    replace (fromOffset + size `min` (length entries - fromOffset))
      with (fromOffset + size) by lia.
    rewrite IH by lia.
    rewrite (pages_count_step _ _ _ size_pos Hmore).
    assert (accepted (drop fromOffset entries)
            = accepted (take size (drop fromOffset entries))
              ++ accepted (drop (fromOffset + size) entries)) as ->
      by by rewrite <- Hsplit at 1; rewrite drop_drop, filter_app.
    rewrite !omap_app, !length_app.
    pose proof (length_omap_le PluginScan.details
                  (accepted (take size (drop fromOffset entries)))).
    pose proof (length_omap_le PluginScan.details
                  (accepted (drop (fromOffset + size) entries))).
    f_equal. f_equal.
    + rewrite <- app_assoc. f_equal.
      rewrite <- cons_seq, <- fmap_S_seq, fmap_cons, <- list_fmap_compose.
      simpl. f_equal; [lia |].
      apply list_fmap_ext. intros _ k _. simpl. lia.
    + f_equal; [by rewrite <- app_assoc | lia].
  - rewrite bool_decide_eq_true_2 by lia.
    rewrite (pages_count_last _ _ _ Hfrom) by lia.
    rewrite take_ge by (rewrite length_drop; lia).
    simpl. by rewrite Nat.add_0_r.
Qed.
End paged_facts.

(** X18.  Against a registry that serves a fixed list of [entries] in pages
    of [size], the scan asks for the offsets 0, [size], [2 * size], ...
    below the number of entries (offset 0 alone when there are none), and
    resolves with the plugins that [fetchPackageDetails] gave for the
    entries whose name [VALID_PACKAGE_PATTERN] accepts, in the registry's
    order: nothing is lost or repeated at the page boundaries.  The accepted
    entries that gave no plugin are the ones counted as skipped. *)
Theorem paged_scan_collects {Plugin}
        (entries : list (PluginScan.SearchResult Plugin)) (size fuel : nat) :
  let accepted := filter (λ r, PluginScan.valid r = true) entries in
  let plugins := omap PluginScan.details accepted in
  0 < size → length entries < fuel →
  PluginScan.fetchKoishiPlugins true (PluginScan.paged entries size) fuel
  = Some ((λ k, k * size)
          <$> seq 0 (1 `max` ((length entries + size - 1) / size)),
          PluginScan.Resolves plugins (length accepted - length plugins)).
Proof.
  intros accepted plugins Hsize Hfuel. subst accepted plugins.
  unfold PluginScan.fetchKoishiPlugins.
  destruct entries as [| entry rest] eqn:Hentries.
  - destruct fuel as [| fuel]; [simpl in Hfuel; lia |].
    rewrite pages_S. simpl. rewrite take_nil. simpl.
    rewrite Nat.div_small by lia. done.
  - rewrite <- Hentries in *.
    assert (0 < length entries) as Hpos by (rewrite Hentries; simpl; lia).
    rewrite (pages_first _ fuel [] 0 []
               (PluginScan.mkPage (Some (Z.of_nat (length entries)))
                                  (take size (drop 0 entries)))
               (Z.of_nat (length entries)))
      by (done || lia).
    rewrite (pages_paged entries size Hsize) by lia.
    rewrite Nat.sub_0_r, drop_0. simpl app.
    assert (1 ≤ (length entries + size - 1) / size) as Hone.
    { replace (length entries + size - 1)
        with ((length entries - 1) + 1 * size) by lia.
      rewrite Nat.div_add by lia. lia. }
    by rewrite Nat.max_r.
Qed.

Lemma paged_scan_collects_witness :
  let echo := PluginScan.mkSearchResult (Some "koishi-plugin-echo")
                                        (Some "echo") in
  let left_pad := PluginScan.mkSearchResult (Some "left-pad") (Some "pad") in
  let gone := PluginScan.mkSearchResult (Some "@koishijs/plugin-gone") None in
  PluginScan.fetchKoishiPlugins
    true (PluginScan.paged [echo; left_pad; gone; echo; echo] 2) 6
  = Some ([0; 2; 4], PluginScan.Resolves ["echo"; "echo"; "echo"] 1).
Proof.
  intros echo left_pad gone.
  etrans;
    [apply (paged_scan_collects [echo; left_pad; gone; echo; echo] 2 6);
     simpl; lia |].
  vm_compute. reflexivity.
Defined.

(** ** The served index *)

Lemma refresh_found {Plugin} (run : Refreshes.Run Plugin) state :
  (Refreshes.refresh state run).1
  = match Refreshes.found run with
    | Some plugins =>
        Server.mkIndex (Refreshes.now1 run) (length plugins) 1 plugins
    | None => state.1
    end
  ∧ (Refreshes.refresh state run).2
    = match Refreshes.found run with
      | Some plugins =>
          if Refreshes.writeFails run then state.2
          else Some (Server.saveToFile (Refreshes.now2 run) plugins)
      | None => state.2
      end.
Proof.
  unfold Refreshes.refresh, Refreshes.found, Server.updatePluginsData.
  destruct (Refreshes.scan run) as [message | [| plugin plugins]];
    [done | done |].
  rewrite bool_decide_eq_true_2 by done.
  by destruct (Refreshes.writeFails run).
Qed.

(** X19.  After any number of refreshes that run one after the other, the
    index that [/index.json] serves is the one made from the latest scan
    that resolved with at least one plugin, and the initial empty index when
    there was none: failed scans and scans that found nothing never replace
    what is served.  Its [total] is the number of its [objects].  When no
    write of the file failed, the file holds the plugins of the served
    index, with their number as [total], and is as the server found it
    while the initial index is served. *)
Theorem served_index_is_latest_found {Plugin}
        (file0 : option (Server.Index Plugin))
        (runs : list (Refreshes.Run Plugin)) :
  let served := (Refreshes.refreshes file0 runs).1 in
  let file := (Refreshes.refreshes file0 runs).2 in
  let latest := last (omap Refreshes.found runs) in
  Server.objects served = default [] latest
  ∧ Server.total served = length (Server.objects served)
  ∧ (latest = None → served = Server.pluginsData0)
  ∧ (Forall (λ run, Refreshes.writeFails run = false) runs →
     match latest with
     | Some plugins =>
         ∃ index, file = Some index ∧ Server.objects index = plugins
                  ∧ Server.total index = length plugins
     | None => file = file0
     end).
Proof.
  unfold Refreshes.refreshes.
  induction runs as [| run runs IH] using rev_ind; [by repeat split |].
  rewrite foldl_snoc, omap_app. cbn zeta in *.
  destruct (refresh_found run (foldl Refreshes.refresh
                                     (Server.pluginsData0, file0) runs))
    as [-> ->].
  destruct IH as (Hobjects & Htotal & Hnone & Hfile).
  simpl omap. destruct (Refreshes.found run) as [plugins |] eqn:Hfound.
  - rewrite last_snoc. simpl.
    split_and!; [done | done | done |].
    intros [_ Hrun%Forall_inv]%Forall_app. simpl in Hrun.
    rewrite Hrun. eauto.
  - simpl. rewrite app_nil_r.
    split_and!; [done | done | done |].
    intros [Hruns _]%Forall_app. by apply Hfile.
Qed.

Lemma served_index_is_latest_found_witness :
  let runs := [Refreshes.mkRun (inr ["echo"; "help"]) false "Mon" "Mon";
               Refreshes.mkRun (inl "ECONNRESET") false "Tue" "Tue";
               Refreshes.mkRun (inr []) false "Wed" "Wed"] in
  ∃ index, (Refreshes.refreshes None runs).2 = Some index
           ∧ Server.objects index = ["echo"; "help"]
           ∧ Server.total index = 2.
Proof.
  intros runs.
  apply (served_index_is_latest_found None runs).
  repeat constructor.
Defined.
